(** * Delivery pipeline of the Content-Creator server

    A shallow embedding of the Google Slides delivery pipeline:
    - [server/constants/slides.ts]       (constants, colour themes, trusted domains)
    - [server/errors/presentation-errors.ts]
    - [server/utils/url-validator.ts]    (image URL validation)
    - [server/presentation.ts]           (validation, compilation, batched execution)
    - [server/middleware/rate-limit.ts]  (fixed-window rate limiter)
    - [server/utils/token-manager.ts]    (single-flight token refresh)

    Numbers are [Z] or [nat] (all values involved are integers well inside the
    exact range of a JS number); strings are [string]; a value that may be
    [undefined] is an [option]; a thrown exception is the [Throw] completion. *)

From Stdlib Require Import ZArith QArith Lia Ascii String.
From stdpp Require Import gmap strings list pretty.

Open Scope Z_scope.

(* ===================================================================== *)
(** * JavaScript prelude *)
(* ===================================================================== *)

(** The line feed character, [\n]. *)
Definition LF : string := String (Ascii.ascii_of_nat 10) "".

(** Truthiness of a [string | undefined] value: defined and not empty. *)
Definition truthy (s : option string) : bool :=
  match s with
  | Some s => negb (String.eqb s "")
  | None => false
  end.

(** [arr && arr.length > 0] for a [string[] | undefined] value. *)
Definition nonEmptyArray (a : option (list string)) : bool :=
  match a with
  | Some (_ :: _) => true
  | _ => false
  end.

(** [Array.prototype.join]. *)
Fixpoint join (sep : string) (l : list string) : string :=
  match l with
  | [] => ""
  | [x] => x
  | x :: rest => x +:+ sep +:+ join sep rest
  end.

(** [Array.prototype.map] with the element index, as in [(q, i) => ...]. *)
Fixpoint mapi_from {A B} (i : nat) (f : A -> nat -> B) (l : list A) : list B :=
  match l with
  | [] => []
  | x :: rest => f x i :: mapi_from (S i) f rest
  end.

Definition mapi {A B} (f : A -> nat -> B) (l : list A) : list B := mapi_from 0 f l.

(** [Math.ceil(a / b)] for integers [a] and [b > 0]. *)
Definition ceil_div (a b : Z) : Z := - ((- a) / b).

(* ===================================================================== *)
(** * Errors ([presentation-errors.ts]) *)
(* ===================================================================== *)

(** Thrown values.  [PlainError msg] is [new Error(msg)] (or any error object
    raised by a library); [NonError] is a thrown value that is not an
    instance of [Error]. *)
Inductive JsError : Type :=
| GoogleAuthError
| TokenExpiredError
| TokenRefreshError
| InvalidImageUrlError (url : string)
| UntrustedImageDomainError (url : string)
| BatchSizeExceededError (slideIndex : nat) (requestCount : Z)
| SpeakerNotesError (slideIndex : option Z)
| ImageInsertionError (slideIndex : nat) (imageUrl : string) (cause : string)
| PlainError (msg : string)
| NonError.

(** [error instanceof Error ? error.message : 'Unknown error']. *)
Definition error_message (e : JsError) : string :=
  match e with
  | GoogleAuthError =>
      "Please reconnect your Google account to continue creating presentations."
  | TokenExpiredError =>
      "Your Google session has expired. Please reconnect your Google account."
  | TokenRefreshError =>
      "Failed to refresh your Google access token. Please reconnect your Google account."
  | InvalidImageUrlError url =>
      "Invalid or inaccessible image URL: " +:+ url +:+
      ". Please ensure the image is publicly accessible."
  | UntrustedImageDomainError url =>
      "Image URL from untrusted domain: " +:+ url +:+
      ". Only images from approved sources are allowed."
  | BatchSizeExceededError i n =>
      "Slide " +:+ pretty i +:+ " has too many elements (" +:+ pretty n +:+
      " requests). Please simplify the slide."
  | SpeakerNotesError i =>
      "Failed to add speaker notes to slide " +:+
      match i with Some i => pretty i | None => "NaN" end +:+
      ". Notes may not be available."
  | ImageInsertionError i url cause =>
      "Failed to insert image on slide " +:+ pretty i +:+ ": " +:+ cause +:+
      ". Image URL: " +:+ url
  | PlainError msg => msg
  | NonError => "Unknown error"
  end.

(** The outcome of running a piece of code: a value or a thrown error. *)
Inductive Completion (A : Type) : Type :=
| Return (a : A)
| Throw (e : JsError).
Arguments Return {A} a.
Arguments Throw {A} e.

(* ===================================================================== *)
(** * Constants ([constants/slides.ts]) *)
(* ===================================================================== *)

Definition DEFAULT_IMAGE_WIDTH_EMU : Z := 4000000.
Definition DEFAULT_IMAGE_HEIGHT_EMU : Z := 3000000.
Definition IMAGE_POSITION_X_EMU : Z := 2500000.
Definition IMAGE_POSITION_Y_EMU : Z := 1500000.

Definition TITLE_BOX_WIDTH_EMU : Z := 8000000.
Definition TITLE_BOX_HEIGHT_EMU : Z := 700000.
Definition SUBTITLE_BOX_HEIGHT_EMU : Z := 500000.
Definition CONTENT_BOX_WIDTH_EMU : Z := 8000000.
Definition CONTENT_BOX_HEIGHT_EMU : Z := 3000000.
Definition BULLET_BOX_HEIGHT_EMU : Z := 3000000.
Definition QUESTIONS_BOX_HEIGHT_EMU : Z := 3500000.

Definition TITLE_POSITION_X_EMU : Z := 500000.
Definition TITLE_POSITION_Y_EMU : Z := 500000.
Definition SUBTITLE_POSITION_Y_EMU : Z := 1500000.
Definition CONTENT_POSITION_WITH_TITLE_Y_EMU : Z := 1500000.
Definition CONTENT_POSITION_NO_TITLE_Y_EMU : Z := 800000.

Definition FONT_SIZE_TITLE_PT : Z := 36.
Definition FONT_SIZE_SUBTITLE_PT : Z := 20.
Definition FONT_SIZE_BODY_PT : Z := 16.
Definition FONT_SIZE_BULLETS_PT : Z := 18.
Definition FONT_SIZE_QUESTIONS_PT : Z := 16.

Definition GOOGLE_API_BATCH_SIZE : nat := 100.
Definition MAX_REQUESTS_PER_SLIDE : Z := 10.

Record RgbColor : Type := { red : Q; green : Q; blue : Q }.

Record Theme : Type := { primary : RgbColor; secondary : RgbColor; accent : RgbColor }.

Inductive ColorTheme : Type :=
| blue_theme | green_theme | purple_theme | orange_theme | teal_theme | red_theme.

Definition rgb (r g b : Q) : RgbColor := {| red := r; green := g; blue := b |}.

Definition COLOR_THEMES (t : ColorTheme) : Theme :=
  match t with
  | blue_theme =>
      {| primary := rgb 0.26 0.52 0.96; secondary := rgb 0.13 0.33 0.63;
         accent := rgb 0.85 0.92 0.99 |}
  | green_theme =>
      {| primary := rgb 0.13 0.59 0.53; secondary := rgb 0.09 0.39 0.35;
         accent := rgb 0.84 0.95 0.93 |}
  | purple_theme =>
      {| primary := rgb 0.61 0.35 0.71; secondary := rgb 0.41 0.21 0.51;
         accent := rgb 0.95 0.89 0.97 |}
  | orange_theme =>
      {| primary := rgb 0.95 0.61 0.07; secondary := rgb 0.76 0.44 0.05;
         accent := rgb 1.0 0.95 0.85 |}
  | teal_theme =>
      {| primary := rgb 0.11 0.66 0.71; secondary := rgb 0.07 0.47 0.51;
         accent := rgb 0.83 0.96 0.97 |}
  | red_theme =>
      {| primary := rgb 0.91 0.3 0.24; secondary := rgb 0.64 0.17 0.13;
         accent := rgb 0.99 0.9 0.89 |}
  end.

Definition TRUSTED_IMAGE_DOMAINS : list string :=
  [ "images.unsplash.com"; "unsplash.com"; "plus.unsplash.com"; "cdn.openai.com";
    "oaidalleapiprodscus.blob.core.windows.net"; "puter.com"; "api.puter.com";
    "storage.googleapis.com"; "drive.google.com" ].

(* ===================================================================== *)
(** * Strings of the platform *)
(* ===================================================================== *)

Definition is_upper (c : ascii) : bool :=
  let n := Ascii.nat_of_ascii c in (65 <=? n)%nat && (n <=? 90)%nat.
Definition is_lower (c : ascii) : bool :=
  let n := Ascii.nat_of_ascii c in (97 <=? n)%nat && (n <=? 122)%nat.
Definition is_digit (c : ascii) : bool :=
  let n := Ascii.nat_of_ascii c in (48 <=? n)%nat && (n <=? 57)%nat.
Definition is_alpha (c : ascii) : bool := is_upper c || is_lower c.

(** White space removed by [String.prototype.trim] (the ASCII part: tab, line
    feed, vertical tab, form feed, carriage return, space). *)
Definition is_space (c : ascii) : bool :=
  let n := Ascii.nat_of_ascii c in ((9 <=? n)%nat && (n <=? 13)%nat) || (n =? 32)%nat.

Definition lower_char (c : ascii) : ascii :=
  if is_upper c then Ascii.ascii_of_nat (Ascii.nat_of_ascii c + 32) else c.

(** Text of ASCII characters only.  On such text [toLowerCase] and [trim]
    below are those of the platform; outside it the platform also maps
    letters beyond [A]-[Z] and strips white space beyond the six ASCII
    characters. *)
Fixpoint ascii_only (s : string) : bool :=
  match s with
  | EmptyString => true
  | String c rest => (Ascii.nat_of_ascii c <? 128)%nat && ascii_only rest
  end.

(** [String.prototype.toLowerCase] on ASCII text. *)
Fixpoint toLowerCase (s : string) : string :=
  match s with
  | EmptyString => EmptyString
  | String c rest => String (lower_char c) (toLowerCase rest)
  end.

Fixpoint trimStart (s : string) : string :=
  match s with
  | EmptyString => EmptyString
  | String c rest => if is_space c then trimStart rest else s
  end.

Fixpoint trimEnd (s : string) : string :=
  match s with
  | EmptyString => EmptyString
  | String c rest =>
      match trimEnd rest with
      | EmptyString => if is_space c then EmptyString else String c EmptyString
      | rest' => String c rest'
      end
  end.

(** [String.prototype.trim] on ASCII text. *)
Definition trim (s : string) : string := trimEnd (trimStart s).

(** [String.prototype.endsWith]. *)
Definition endsWith (s suffix : string) : bool :=
  let n := String.length s in
  let k := String.length suffix in
  (k <=? n)%nat && String.eqb (String.substring (n - k) k s) suffix.

(** [String.prototype.startsWith]. *)
Definition startsWith (s pre : string) : bool := String.prefix pre s.

(* ===================================================================== *)
(** * URL validation ([utils/url-validator.ts]) *)
(* ===================================================================== *)

(** The fields of a WHATWG [URL] object that the validator reads or writes.
    [protocol] carries its trailing colon, [port] is empty for the default
    port of the scheme, as the platform reports them. *)
Record URL : Type := {
  protocol : string;
  username : string;
  password : string;
  hostname : string;
  port : string;
  pathname : string;
  search : string;
  hash : string
}.

(** [url.href] of a URL that has a host (every http, https or ftp URL has). *)
Definition href (u : URL) : string :=
  protocol u +:+ "//" +:+
  (if String.eqb (username u) "" && String.eqb (password u) "" then ""
   else username u +:+
        (if String.eqb (password u) "" then "" else ":" +:+ password u) +:+ "@") +:+
  hostname u +:+
  (if String.eqb (port u) "" then "" else ":" +:+ port u) +:+
  pathname u +:+ search u +:+ hash u.

(** [url.protocol = 'https:'] on an http URL: the scheme changes, and a port
    that is the default one of the new scheme is dropped. *)
Definition set_protocol_https (u : URL) : URL :=
  {| protocol := "https:";
     username := username u;
     password := password u;
     hostname := hostname u;
     port := if String.eqb (port u) "443" then "" else port u;
     pathname := pathname u;
     search := search u;
     hash := hash u |}.

(** Whether a (lower-cased) host name equals an allow-listed domain or is a
    subdomain of one: the predicate of the [some] call of [isUrlTrusted]. *)
Definition domain_matches (host domain : string) : bool :=
  let normalizedDomain := toLowerCase domain in
  String.eqb host normalizedDomain || endsWith host ("." +:+ normalizedDomain).

Definition hostname_trusted (domains : list string) (host : string) : bool :=
  existsb (domain_matches (toLowerCase host)) domains.

Section UrlValidator.

(** [new URL(s)] of the platform: [None] when the constructor throws. *)
Variable parseURL : string -> option URL.

(** The allow-list; [TRUSTED_IMAGE_DOMAINS] unless [addTrustedDomain] has
    extended it at run time. *)
Variable trusted_domains : list string.

Definition isUrlTrusted (url : string) : bool :=
  match parseURL url with
  | Some parsedUrl => hostname_trusted trusted_domains (hostname parsedUrl)
  | None => false
  end.

Definition validateImageUrl (url : option string) (allowUntrusted : bool)
  : Completion (option string) :=
  match url with
  | None => Return None
  | Some url =>
    if String.eqb url "" then Return None else
    let trimmedUrl := trim url in
    if String.eqb trimmedUrl "" then Return None else
    match parseURL trimmedUrl with
    | None => Throw (InvalidImageUrlError trimmedUrl)
    | Some parsedUrl =>
      if negb (String.eqb (protocol parsedUrl) "http:" ||
               String.eqb (protocol parsedUrl) "https:")
      then Throw (InvalidImageUrlError trimmedUrl)
      else
        let parsedUrl :=
          if String.eqb (protocol parsedUrl) "http:"
          then set_protocol_https parsedUrl else parsedUrl in
        if negb allowUntrusted && negb (isUrlTrusted (href parsedUrl))
        then Throw (UntrustedImageDomainError (href parsedUrl))
        else Return (Some (href parsedUrl))
    end
  end.

End UrlValidator.

(** ** A fragment of the platform's URL parser

    [parseURL_basic] covers the inputs [scheme://host[:port][/path]] with an
    alphabetic scheme, a host of dot-separated labels of letters and digits
    whose last label is alphabetic, a decimal port, and a path of letters,
    digits and [/ _ - .] without dot segments.  On these the WHATWG parser
    lower-cases scheme and host, drops the default port of the scheme and
    gives the empty path as [/].  Any other input is outside the fragment and
    is answered [None]. *)

Definition default_port (scheme : string) : option N :=
  if String.eqb scheme "http" then Some 80%N
  else if String.eqb scheme "https" then Some 443%N
  else if String.eqb scheme "ftp" then Some 21%N
  else if String.eqb scheme "ws" then Some 80%N
  else if String.eqb scheme "wss" then Some 443%N
  else None.

Fixpoint string_forallb (p : ascii -> bool) (s : string) : bool :=
  match s with
  | EmptyString => true
  | String c rest => p c && string_forallb p rest
  end.

(** Splits at the first character satisfying [p]: the part before it and the
    rest from it on. *)
Fixpoint break_at (p : ascii -> bool) (s : string) : string * string :=
  match s with
  | EmptyString => (EmptyString, EmptyString)
  | String c rest =>
      if p c then (EmptyString, s)
      else let '(a, b) := break_at p rest in (String c a, b)
  end.

Definition is_char (x : ascii) (c : ascii) : bool := Ascii.eqb x c.

(** Labels of a host: non-empty, letters and digits, the last one letters. *)
Fixpoint host_labels_ok (fuel : nat) (h : string) : bool :=
  match fuel with
  | O => false
  | S fuel =>
      let '(label, rest) := break_at (is_char ".") h in
      match label, rest with
      | EmptyString, _ => false
      | _, EmptyString => string_forallb is_alpha label
      | _, String _ rest' =>
          string_forallb (fun c => is_alpha c || is_digit c) label &&
          host_labels_ok fuel rest'
      end
  end.

Fixpoint parse_decimal_from (acc : N) (s : string) : option N :=
  match s with
  | EmptyString => Some acc
  | String c rest =>
      if is_digit c
      then parse_decimal_from (acc * 10 + (N.of_nat (Ascii.nat_of_ascii c) - 48))%N rest
      else None
  end.

Definition parse_port (scheme : string) (p : string) : option string :=
  match p with
  | EmptyString => Some ""
  | String _ rest =>
      match rest with
      | EmptyString => Some ""
      | _ =>
        match parse_decimal_from 0%N rest with
        | Some n =>
            if (65535 <? n)%N then None
            else if bool_decide (default_port scheme = Some n) then Some ""
            else Some (pretty n)
        | None => None
        end
      end
  end.

(** A path without dot segments: no [.] directly after a [/]. *)
Fixpoint path_ok (prev_slash : bool) (s : string) : bool :=
  match s with
  | EmptyString => true
  | String c rest =>
      if is_char "/" c then path_ok true rest
      else if is_char "." c then negb prev_slash && path_ok false rest
      else (is_alpha c || is_digit c || is_char "_" c || is_char "-" c) &&
           path_ok false rest
  end.

Definition parseURL_basic (s : string) : option URL :=
  let '(scheme, rest) := break_at (is_char ":") s in
  if negb (string_forallb is_alpha scheme) || String.eqb scheme "" then None else
  let scheme := toLowerCase scheme in
  match default_port scheme with
  | None => None
  | Some _ =>
    if negb (startsWith rest "://") then None else
    let rest := String.substring 3 (String.length rest - 3) rest in
    let '(authority, path) := break_at (is_char "/") rest in
    let '(host, portpart) := break_at (is_char ":") authority in
    if negb (host_labels_ok (String.length host) host) then None else
    match parse_port scheme portpart with
    | None => None
    | Some port =>
      if negb (path_ok false path) then None else
      Some {| protocol := scheme +:+ ":";
              username := "";
              password := "";
              hostname := toLowerCase host;
              port := port;
              pathname := if String.eqb path "" then "/" else path;
              search := "";
              hash := "" |}
    end
  end.

(* ===================================================================== *)
(** * Slide content and compiled operations ([presentation.ts]) *)
(* ===================================================================== *)

Inductive SlideType : Type := title_slide | content_slide | image_slide | questions_slide.

Record SlideContent : Type := {
  type : SlideType;
  title : option string;
  subtitle : option string;
  text : option string;
  bulletPoints : option (list string);
  imageUrl : option string;
  imageAlt : option string;
  imageAttribution : option string;
  questions : option (list string);
  notes : option string
}.

(** [{ ...slide, imageUrl: v }]. *)
Definition with_imageUrl (slide : SlideContent) (v : option string) : SlideContent :=
  {| type := type slide; title := title slide; subtitle := subtitle slide;
     text := text slide; bulletPoints := bulletPoints slide; imageUrl := v;
     imageAlt := imageAlt slide; imageAttribution := imageAttribution slide;
     questions := questions slide; notes := notes slide |}.

Record CreatePresentationOptions : Type := {
  colorTheme : option ColorTheme;
  allowUntrustedImages : option bool
}.

Record ElementProperties : Type := {
  pageObjectId : string;
  height : Z;
  width : Z;
  translateX : Z;
  translateY : Z
}.

Record TextStyle : Type := {
  fontSize : Z;
  bold : option bool;
  foregroundColor : option RgbColor
}.

(** The provider operations the compiler emits.  Constant members of the
    request objects (units [EMU] and [PT], [scaleX = scaleY = 1], the [BLANK]
    layout, the [TEXT_BOX] shape type) are fixed by the constructor. *)
Inductive Request : Type :=
| createSlide (objectId : string) (insertionIndex : nat)
| createShape (objectId : string) (elementProperties : ElementProperties)
| insertText (objectId : string) (text : string)
| updateTextStyle (objectId : string) (style : TextStyle) (fields : string)
| createImage (url : string) (elementProperties : ElementProperties)
| deleteObject (objectId : string).

(** The per-slide operation estimate of [validateSlideContent]. *)
Definition requestCount (content : SlideContent) : Z :=
  let requestCount := 1 in
  let requestCount := if truthy (title content) then requestCount + 3 else requestCount in
  let requestCount := if truthy (subtitle content) then requestCount + 3 else requestCount in
  let requestCount := if truthy (text content) then requestCount + 3 else requestCount in
  let requestCount :=
    if nonEmptyArray (bulletPoints content) then requestCount + 3 else requestCount in
  let requestCount :=
    if nonEmptyArray (questions content) then requestCount + 3 else requestCount in
  let requestCount := if truthy (imageUrl content) then requestCount + 1 else requestCount in
  let requestCount := if truthy (notes content) then requestCount + 1 else requestCount in
  requestCount.

(** The [forEach] of [validateSlideContent], from slide [index] on, against a
    per-slide ceiling: the first slide over twice the ceiling throws. *)
Fixpoint validateSlideContent_from (ceiling : Z) (index : nat)
    (slideContents : list SlideContent) : Completion unit :=
  match slideContents with
  | [] => Return tt
  | content :: rest =>
      if ceiling * 2 <? requestCount content
      then Throw (BatchSizeExceededError index (requestCount content))
      else validateSlideContent_from ceiling (S index) rest
  end.

Definition validateSlideContentWith (ceiling : Z) (slideContents : list SlideContent)
  : Completion unit :=
  validateSlideContent_from ceiling 0 slideContents.

Definition validateSlideContent (slideContents : list SlideContent) : Completion unit :=
  validateSlideContentWith MAX_REQUESTS_PER_SLIDE slideContents.

Section Images.

Variable parseURL : string -> option URL.
Variable trusted_domains : list string.

(** The callback of the [map] of [validateSlideImages].  Console output is
    not part of the model. *)
Definition validateSlideImage (allowUntrusted : bool) (slide : SlideContent)
  : SlideContent :=
  if negb (truthy (imageUrl slide)) then slide else
  match validateImageUrl parseURL trusted_domains (imageUrl slide) allowUntrusted with
  | Return validatedUrl => with_imageUrl slide validatedUrl
  | Throw _ => with_imageUrl slide None
  end.

Definition validateSlideImages (slideContents : list SlideContent)
    (allowUntrusted : option bool) : list SlideContent :=
  let allowUntrusted := default false allowUntrusted in
  map (validateSlideImage allowUntrusted) slideContents.

End Images.

Definition text_box (pageObjectId : string) (height width translateX translateY : Z)
  : ElementProperties :=
  {| pageObjectId := pageObjectId; height := height; width := width;
     translateX := translateX; translateY := translateY |}.

(** The bullet prefix, exactly the bytes of the source literal. *)
Definition BULLET_PREFIX : string := "â€¢ ".

Definition createSlideRequests (content : SlideContent) (index : nat)
    (colorTheme : option ColorTheme) : Completion (list Request) :=
  let slideId := "slide_" +:+ pretty index in
  let requests : list Request := [] in
  let theme : option Theme := COLOR_THEMES <$> colorTheme in
  let requests := requests ++ [createSlide slideId index] in
  let requests :=
    if truthy (title content) then
      let titleBoxId := "title_" +:+ pretty index in
      requests ++
      [ createShape titleBoxId
          (text_box slideId TITLE_BOX_HEIGHT_EMU TITLE_BOX_WIDTH_EMU
                    TITLE_POSITION_X_EMU TITLE_POSITION_Y_EMU);
        insertText titleBoxId (default "" (title content));
        updateTextStyle titleBoxId
          {| fontSize := FONT_SIZE_TITLE_PT; bold := Some true;
             foregroundColor := primary <$> theme |}
          (match theme with
           | Some _ => "fontSize,bold,foregroundColor"
           | None => "fontSize,bold"
           end) ]
    else requests in
  let requests :=
    if truthy (subtitle content) then
      let subtitleBoxId := "subtitle_" +:+ pretty index in
      requests ++
      [ createShape subtitleBoxId
          (text_box slideId SUBTITLE_BOX_HEIGHT_EMU TITLE_BOX_WIDTH_EMU
                    TITLE_POSITION_X_EMU SUBTITLE_POSITION_Y_EMU);
        insertText subtitleBoxId (default "" (subtitle content));
        updateTextStyle subtitleBoxId
          {| fontSize := FONT_SIZE_SUBTITLE_PT; bold := None;
             foregroundColor := secondary <$> theme |}
          (match theme with
           | Some _ => "fontSize,foregroundColor"
           | None => "fontSize"
           end) ]
    else requests in
  let requests :=
    if truthy (text content) then
      let textBoxId := "text_" +:+ pretty index in
      let yPosition :=
        if truthy (title content) then CONTENT_POSITION_WITH_TITLE_Y_EMU
        else CONTENT_POSITION_NO_TITLE_Y_EMU in
      requests ++
      [ createShape textBoxId
          (text_box slideId CONTENT_BOX_HEIGHT_EMU CONTENT_BOX_WIDTH_EMU
                    TITLE_POSITION_X_EMU yPosition);
        insertText textBoxId (default "" (text content));
        updateTextStyle textBoxId
          {| fontSize := FONT_SIZE_BODY_PT; bold := None; foregroundColor := None |}
          "fontSize" ]
    else requests in
  let requests :=
    if nonEmptyArray (bulletPoints content) then
      let bulletBoxId := "bullets_" +:+ pretty index in
      let yPosition :=
        if truthy (title content) then CONTENT_POSITION_WITH_TITLE_Y_EMU
        else CONTENT_POSITION_NO_TITLE_Y_EMU in
      let bulletText :=
        join LF (map (fun point => BULLET_PREFIX +:+ point)
                     (default [] (bulletPoints content))) in
      requests ++
      [ createShape bulletBoxId
          (text_box slideId BULLET_BOX_HEIGHT_EMU CONTENT_BOX_WIDTH_EMU
                    TITLE_POSITION_X_EMU yPosition);
        insertText bulletBoxId bulletText;
        updateTextStyle bulletBoxId
          {| fontSize := FONT_SIZE_BULLETS_PT; bold := None; foregroundColor := None |}
          "fontSize" ]
    else requests in
  let requests :=
    if nonEmptyArray (questions content) then
      let questionsBoxId := "questions_" +:+ pretty index in
      let yPosition :=
        if truthy (title content) then CONTENT_POSITION_WITH_TITLE_Y_EMU
        else CONTENT_POSITION_NO_TITLE_Y_EMU in
      let questionsText :=
        join (LF +:+ LF)
             (mapi (fun q i => pretty (i + 1)%nat +:+ ". " +:+ q)
                   (default [] (questions content))) in
      requests ++
      [ createShape questionsBoxId
          (text_box slideId QUESTIONS_BOX_HEIGHT_EMU CONTENT_BOX_WIDTH_EMU
                    TITLE_POSITION_X_EMU yPosition);
        insertText questionsBoxId questionsText;
        updateTextStyle questionsBoxId
          {| fontSize := FONT_SIZE_QUESTIONS_PT; bold := None; foregroundColor := None |}
          "fontSize" ]
    else requests in
  let requests :=
    if truthy (imageUrl content) then
      requests ++
      [ createImage (default "" (imageUrl content))
          (text_box slideId DEFAULT_IMAGE_HEIGHT_EMU DEFAULT_IMAGE_WIDTH_EMU
                    IMAGE_POSITION_X_EMU IMAGE_POSITION_Y_EMU) ]
    else requests in
  Return requests.

(* ===================================================================== *)
(** * The remote presentation API and the execution engine *)
(* ===================================================================== *)

(** What [presentations.get] returns, as far as the engine reads it. *)
Record PageElement : Type := {
  pe_objectId : option string;
  pe_placeholderType : option string      (* shape?.placeholder?.type *)
}.

Record NotesPage : Type := {
  np_objectId : option string;
  np_pageElements : option (list PageElement)
}.

Record Page : Type := {
  pg_objectId : option string;
  pg_notesPage : option NotesPage          (* slideProperties?.notesPage *)
}.

Record Presentation : Type := { slides : option (list Page) }.

(** The remote service: the answer to the [n]-th [presentations.get] call and
    to the [n]-th [presentations.batchUpdate] call (which may depend on the
    requests submitted).  Calls are counted from 0 within one run. *)
Record SlidesApi : Type := {
  api_get : nat -> Completion Presentation;
  api_batchUpdate : nat -> list Request -> Completion unit
}.

(** The calls made so far in a run: the number of [get] calls and the bodies
    of the [batchUpdate] calls, oldest first. *)
Record World : Type := {
  gets : nat;
  updates : list (list Request)
}.

Definition World0 : World := {| gets := 0; updates := [] |}.

(** Code that performs remote calls and may throw. *)
Definition Eff (A : Type) : Type := World -> Completion A * World.

Definition ret {A} (a : A) : Eff A := fun w => (Return a, w).

Definition throw {A} (e : JsError) : Eff A := fun w => (Throw e, w).

Definition bind {A B} (m : Eff A) (k : A -> Eff B) : Eff B :=
  fun w =>
    match m w with
    | (Return a, w') => k a w'
    | (Throw e, w') => (Throw e, w')
    end.

(** [try { m } catch (error) { h error }]. *)
Definition try_catch {A} (m : Eff A) (h : JsError -> Eff A) : Eff A :=
  fun w =>
    match m w with
    | (Return a, w') => (Return a, w')
    | (Throw e, w') => h e w'
    end.

Definition lift {A} (c : Completion A) : Eff A := fun w => (c, w).

Declare Scope eff_scope.
Delimit Scope eff_scope with eff.
Notation "x <- m ;; k" := (bind m (fun x => k))
  (at level 100, m at next level, right associativity) : eff_scope.

Definition presentations_get (api : SlidesApi) : Eff Presentation :=
  fun w => (api_get api (gets w), {| gets := S (gets w); updates := updates w |}).

Definition presentations_batchUpdate (api : SlidesApi) (requests : list Request)
  : Eff unit :=
  fun w => (api_batchUpdate api (length (updates w)) requests,
            {| gets := gets w; updates := updates w ++ [requests] |}).

(** [Array.prototype.find]. *)
Fixpoint find_first {A} (p : A -> bool) (l : list A) : option A :=
  match l with
  | [] => None
  | x :: rest => if p x then Some x else find_first p rest
  end.

(** [s.replace(pat, '')]: the first occurrence of [pat] is removed. *)
Fixpoint remove_first (pat s : string) : string :=
  if startsWith s pat then String.substring (String.length pat)
                                            (String.length s - String.length pat) s
  else match s with
       | EmptyString => EmptyString
       | String c rest => String c (remove_first pat rest)
       end.

Fixpoint leading_digits (acc : option Z) (s : string) : option Z :=
  match s with
  | EmptyString => acc
  | String c rest =>
      if is_digit c
      then leading_digits
             (Some (default 0 acc * 10 + (Z.of_nat (Ascii.nat_of_ascii c) - 48))) rest
      else acc
  end.

(** The value of a hexadecimal digit. *)
Definition hex_value (c : ascii) : option Z :=
  let n := Ascii.nat_of_ascii c in
  if is_digit c then Some (Z.of_nat n - 48)
  else if (97 <=? n)%nat && (n <=? 102)%nat then Some (Z.of_nat n - 87)
  else if (65 <=? n)%nat && (n <=? 70)%nat then Some (Z.of_nat n - 55)
  else None.

Fixpoint leading_hex_digits (acc : option Z) (s : string) : option Z :=
  match s with
  | EmptyString => acc
  | String c rest =>
      match hex_value c with
      | Some d => leading_hex_digits (Some (default 0 acc * 16 + d)) rest
      | None => acc
      end
  end.

(** The digits [parseInt] reads after the sign: hexadecimal ones after a
    prefix [0x] or [0X], decimal ones otherwise. *)
Definition parse_magnitude (s : string) : option Z :=
  match s with
  | String "0" (String x rest) =>
      if Ascii.eqb x "x" || Ascii.eqb x "X" then leading_hex_digits None rest
      else leading_digits None s
  | _ => leading_digits None s
  end.

(** [parseInt(s)] without a radix: leading white space, an optional sign,
    then the longest run of digits (hexadecimal after [0x]); [None] is
    [NaN]. *)
Definition parseInt (s : string) : option Z :=
  match trimStart s with
  | String "-" rest => Z.opp <$> parse_magnitude rest
  | String "+" rest => parse_magnitude rest
  | s' => parse_magnitude s'
  end.

Definition option_string_is (o : option string) (s : string) : bool :=
  match o with
  | Some x => String.eqb x s
  | None => false
  end.

(** [addSpeakerNotes]: looks the notes placeholder of the slide up on the
    live deck and inserts the text; whatever goes wrong is rethrown as a
    [SpeakerNotesError]. *)
Definition addSpeakerNotes (api : SlidesApi) (slideId : string) (notes : string)
  : Eff unit :=
  try_catch
    (presentation <- presentations_get api ;;
     match find_first (fun s => option_string_is (pg_objectId s) slideId)
                      (default [] (slides presentation)) with
     | None => throw (PlainError "Notes page not found")
     | Some slide =>
       match pg_notesPage slide with
       | None => throw (PlainError "Notes page not found")
       | Some notesPage =>
         if negb (truthy (np_objectId notesPage))
         then throw (PlainError "Notes page ID not available")
         else
           match find_first (fun el => option_string_is (pe_placeholderType el) "BODY")
                            (default [] (np_pageElements notesPage)) with
           | None => throw (PlainError "Notes shape not found")
           | Some notesShape =>
             if negb (truthy (pe_objectId notesShape))
             then throw (PlainError "Notes shape not found")
             else presentations_batchUpdate api
                    [insertText (default "" (pe_objectId notesShape)) notes]
           end
       end
     end)%eff
    (fun _ => throw (SpeakerNotesError (parseInt (remove_first "slide_" slideId)))).

(** [Array.prototype.slice(i, j)]. *)
Definition slice {A} (i j : nat) (l : list A) : list A := take (j - i) (drop i l).

(** The loop [for (i = 0; i < allRequests.length; i += GOOGLE_API_BATCH_SIZE)]
    that cuts the operation list into batches.  [fuel] bounds the number of
    iterations; the length of the list is always enough. *)
Fixpoint batches_loop {A} (fuel : nat) (i : nat) (allRequests : list A)
    (batches : list (list A)) : list (list A) :=
  match fuel with
  | O => batches
  | S fuel =>
      if (i <? length allRequests)%nat
      then batches_loop fuel (i + GOOGLE_API_BATCH_SIZE)%nat allRequests
             (batches ++ [slice i (i + GOOGLE_API_BATCH_SIZE) allRequests])
      else batches
  end.

Definition make_batches {A} (allRequests : list A) : list (list A) :=
  batches_loop (length allRequests) 0 allRequests [].

(** The accumulators of [addSlidesToPresentation]. *)
Record Acc : Type := {
  acc_requests : list Request;
  acc_failedSlides : list nat;
  acc_warnings : list string
}.

(** The [forEach] that compiles every validated slide, from [index] on. *)
Fixpoint compile_from (colorTheme : option ColorTheme) (index : nat)
    (validatedSlides : list SlideContent) (acc : Acc) : Acc :=
  match validatedSlides with
  | [] => acc
  | content :: rest =>
      let acc :=
        match createSlideRequests content index colorTheme with
        | Return slideRequests =>
            {| acc_requests := acc_requests acc ++ slideRequests;
               acc_failedSlides := acc_failedSlides acc;
               acc_warnings := acc_warnings acc |}
        | Throw error =>
            {| acc_requests := acc_requests acc;
               acc_failedSlides := acc_failedSlides acc ++ [index];
               acc_warnings :=
                 acc_warnings acc ++
                 ["Slide " +:+ pretty index +:+ ": " +:+ error_message error] |}
        end in
      compile_from colorTheme (S index) rest acc
  end.

(** The loop that submits the batches one after the other, from batch [i] on;
    the state is the batch counter [successCount] and the warnings. *)
Fixpoint submit_from (api : SlidesApi) (i : nat) (batches : list (list Request))
    (successCount : Z) (warnings : list string) : Eff (Z * list string) :=
  match batches with
  | [] => ret (successCount, warnings)
  | batch :: rest =>
      (st <-
         try_catch
           (_ <- presentations_batchUpdate api batch ;;
            ret (successCount + 1, warnings))
           (fun error =>
              ret (successCount,
                   warnings ++
                   ["Batch " +:+ pretty i +:+ " failed: " +:+ error_message error])) ;;
       submit_from api (S i) rest (fst st) (snd st))%eff
  end.

(** The loop that attaches the speaker notes, from slide [i] on. *)
Fixpoint notes_from (api : SlidesApi) (i : nat) (validatedSlides : list SlideContent)
    (warnings : list string) : Eff (list string) :=
  match validatedSlides with
  | [] => ret warnings
  | content :: rest =>
      (warnings <-
         (if truthy (notes content) then
            try_catch
              (_ <- addSpeakerNotes api ("slide_" +:+ pretty i)
                      (default "" (notes content)) ;;
               ret warnings)
              (fun _ =>
                 ret (warnings ++
                      ["Slide " +:+ pretty i +:+ ": Speaker notes could not be added"]))
          else ret warnings) ;;
       notes_from api (S i) rest warnings)%eff
  end.

Record Outcome : Type := {
  successCount : Z;
  failedSlides : list nat;
  warnings : list string
}.

Section Pipeline.

Variable parseURL : string -> option URL.
Variable trusted_domains : list string.
Variable api : SlidesApi.

(** [addSlidesToPresentation], against a per-slide ceiling.  [auth] is the
    completion of [await getOAuth2Client(user)]. *)
Definition addSlidesToPresentationWith (ceiling : Z) (auth : Completion unit)
    (slideContents : list SlideContent) (options : CreatePresentationOptions)
  : Eff Outcome :=
  (_ <- lift auth ;;
   let warnings : list string := [] in
   let failedSlides : list nat := [] in
   _ <- lift (validateSlideContentWith ceiling slideContents) ;;
   let validatedSlides :=
     validateSlideImages parseURL trusted_domains slideContents
                         (allowUntrustedImages options) in
   presentation <- presentations_get api ;;
   let firstSlideId := head (default [] (slides presentation)) ≫= pg_objectId in
   let allRequests : list Request :=
     if truthy firstSlideId then [deleteObject (default "" firstSlideId)] else [] in
   let acc :=
     compile_from (colorTheme options) 0 validatedSlides
       {| acc_requests := allRequests; acc_failedSlides := failedSlides;
          acc_warnings := warnings |} in
   let batches := make_batches (acc_requests acc) in
   st <- submit_from api 0 batches 0 (acc_warnings acc) ;;
   let warnings := snd st in
   warnings <- notes_from api 0 validatedSlides warnings ;;
   ret {| successCount :=
            Z.of_nat (length validatedSlides) -
            Z.of_nat (length (acc_failedSlides acc));
          failedSlides := acc_failedSlides acc;
          warnings := warnings |})%eff.

Definition addSlidesToPresentation :=
  addSlidesToPresentationWith MAX_REQUESTS_PER_SLIDE.

End Pipeline.

(** ** The engine in closed form *)

(** The number of batches for [n] operations: [n / GOOGLE_API_BATCH_SIZE],
    rounded up. *)
Definition batch_count (n : nat) : nat :=
  (n + (GOOGLE_API_BATCH_SIZE - 1)) / GOOGLE_API_BATCH_SIZE.

(** The batches cut from position [i] on: the [k]-th holds the operations at
    positions [i + k * GOOGLE_API_BATCH_SIZE] up to the next multiple. *)
Definition batches_of {A} (i : nat) (l : list A) : list (list A) :=
  map (fun k => slice (i + k * GOOGLE_API_BATCH_SIZE)
                      (i + k * GOOGLE_API_BATCH_SIZE + GOOGLE_API_BATCH_SIZE) l)
      (seq 0 (batch_count (length l - i))).

(** The warnings of the batches that the service refuses, when the first of
    [batches] has index [i] and is the [call]-th [batchUpdate] of the run. *)
Fixpoint batch_warnings (api : SlidesApi) (call i : nat) (batches : list (list Request))
  : list string :=
  match batches with
  | [] => []
  | batch :: rest =>
      match api_batchUpdate api call batch with
      | Return _ => []
      | Throw error => ["Batch " +:+ pretty i +:+ " failed: " +:+ error_message error]
      end ++ batch_warnings api (S call) (S i) rest
  end.

(** The number of batches that the service accepts. *)
Fixpoint batch_successes (api : SlidesApi) (call : nat) (batches : list (list Request))
  : Z :=
  match batches with
  | [] => 0
  | batch :: rest =>
      match api_batchUpdate api call batch with
      | Return _ => 1
      | Throw _ => 0
      end + batch_successes api (S call) rest
  end.

(** The warnings of the speaker-notes step and the calls made when it is
    over, from slide [i] on, started after the calls [w]. *)
Fixpoint notes_outcome (api : SlidesApi) (i : nat) (validatedSlides : list SlideContent)
    (w : World) : list string * World :=
  match validatedSlides with
  | [] => ([], w)
  | content :: rest =>
      if truthy (notes content) then
        let '(r, w') :=
          addSpeakerNotes api ("slide_" +:+ pretty i) (default "" (notes content)) w in
        let '(ws, w'') := notes_outcome api (S i) rest w' in
        (match r with
         | Return _ => []
         | Throw _ => ["Slide " +:+ pretty i +:+ ": Speaker notes could not be added"]
         end ++ ws, w'')
      else notes_outcome api (S i) rest w
  end.

Section BeforeNotes.

Variable parseURL : string -> option URL.
Variable trusted_domains : list string.
Variable api : SlidesApi.

(** [addSlidesToPresentation] up to the speaker-notes step: the validated
    slides, the accumulators of the compilation and the warnings so far. *)
Definition before_notes (ceiling : Z) (auth : Completion unit)
    (slideContents : list SlideContent) (options : CreatePresentationOptions)
  : Eff (list SlideContent * Acc * list string) :=
  (_ <- lift auth ;;
   _ <- lift (validateSlideContentWith ceiling slideContents) ;;
   let validatedSlides :=
     validateSlideImages parseURL trusted_domains slideContents
                         (allowUntrustedImages options) in
   presentation <- presentations_get api ;;
   let firstSlideId := head (default [] (slides presentation)) ≫= pg_objectId in
   let allRequests : list Request :=
     if truthy firstSlideId then [deleteObject (default "" firstSlideId)] else [] in
   let acc :=
     compile_from (colorTheme options) 0 validatedSlides
       {| acc_requests := allRequests; acc_failedSlides := [];
          acc_warnings := [] |} in
   st <- submit_from api 0 (make_batches (acc_requests acc)) 0 (acc_warnings acc) ;;
   ret (validatedSlides, acc, snd st))%eff.

End BeforeNotes.

(** The object identifier an operation creates or addresses. *)
Definition request_objectId (r : Request) : option string :=
  match r with
  | createSlide objectId _ => Some objectId
  | createShape objectId _ => Some objectId
  | insertText objectId _ => Some objectId
  | updateTextStyle objectId _ _ => Some objectId
  | createImage _ _ => None
  | deleteObject objectId => Some objectId
  end.

(** The page an operation places its element on. *)
Definition request_pageObjectId (r : Request) : option string :=
  match r with
  | createShape _ props => Some (pageObjectId props)
  | createImage _ props => Some (pageObjectId props)
  | _ => None
  end.

(** The identifiers a slide with index [index] may use, by field kind. *)
Definition slide_object_ids (index : nat) : list string :=
  [ "slide_" +:+ pretty index; "title_" +:+ pretty index;
    "subtitle_" +:+ pretty index; "text_" +:+ pretty index;
    "bullets_" +:+ pretty index; "questions_" +:+ pretty index ].

(* ===================================================================== *)
(** * Rate limiting middleware ([middleware/rate-limit.ts]) *)
(* ===================================================================== *)

(** What the key generators read of an express request. *)
Record Request_ : Type := {
  session_userId : option string;
  ip : option string;
  remoteAddress : option string
}.

Record RateLimitRecord : Type := {
  count : Z;
  resetTime : Z
}.

Record RateLimitOptions : Type := {
  maxRequests : Z;
  windowSeconds : Z;
  keyGenerator : Request_ -> string;
  skip : Request_ -> bool;
  message : option string
}.

(** [a || b] on [string | undefined] values. *)
Definition or_else (a b : option string) : option string :=
  if truthy a then a else b.

(** [a || 'literal'] on a [string | undefined] value. *)
Definition or_default (a : option string) (b : string) : string :=
  match a with
  | Some s => if String.eqb s "" then b else s
  | None => b
  end.

(** [req.ip || req.socket.remoteAddress || 'unknown']. *)
Definition default_keyGenerator (req : Request_) : string :=
  or_default (or_else (ip req) (remoteAddress req)) "unknown".

(** [userId || req.ip || req.socket.remoteAddress || 'unknown']. *)
Definition user_keyGenerator (req : Request_) : string :=
  or_default (or_else (or_else (session_userId req) (ip req)) (remoteAddress req))
             "unknown".

(** The three headers the middleware sets; [None] is [NaN]. *)
Record RateLimitHeaders : Type := {
  X_RateLimit_Limit : Z;
  X_RateLimit_Remaining : option Z;
  X_RateLimit_Reset : option Z
}.

(** The names every plain object inherits from [Object.prototype].  The
    store is the object literal [{}]: read under one of these names it gives
    the inherited value (a function, or the prototype itself), which is
    truthy and has neither [count] nor [resetTime]. *)
Definition OBJECT_PROTOTYPE_KEYS : list string :=
  [ "constructor"; "__proto__"; "hasOwnProperty"; "isPrototypeOf";
    "propertyIsEnumerable"; "toLocaleString"; "toString"; "valueOf";
    "__defineGetter__"; "__defineSetter__"; "__lookupGetter__"; "__lookupSetter__" ].

Definition is_prototype_key (key : string) : bool :=
  existsb (String.eqb key) OBJECT_PROTOTYPE_KEYS.

(** A store without own property under a name of [Object.prototype]: the
    empty store is one, and the middleware and the sweep keep it so. *)
Definition plain_store (store : gmap string RateLimitRecord) : Prop :=
  forall key, is_prototype_key key = true -> store !! key = None.

(** What the middleware does with the request: hand it on with [next()]
    (with the headers it set, none when the request was skipped), or answer
    it with a status, the [Retry-After] header and the JSON body. *)
Inductive Response : Type :=
| Next (headers : option RateLimitHeaders)
| Reject (status : Z) (headers : RateLimitHeaders) (Retry_After : Z)
         (body_message : string) (body_retryAfter : Z).

(** The middleware returned by [rateLimit(options)], at clock reading [now]
    (milliseconds), on the process-wide [rateLimitStore].  The map holds the
    own properties of the store object.  The object is private to the module,
    is created empty and is written by this middleware only, which never
    writes under a name of [OBJECT_PROTOTYPE_KEYS] (the stores it can have
    are the [plain_store]s): under such a name [rateLimitStore[key]] is the
    inherited value, so the test [!rateLimitStore[key] ||
    rateLimitStore[key].resetTime < now] is false and no record is stored;
    [count++] then yields [NaN] (kept on the inherited object, not in the
    store), the two headers computed from the record are [NaN], and
    [NaN > maxRequests] is false. *)
Definition rateLimit (options : RateLimitOptions) (req : Request_) (now : Z)
    (rateLimitStore : gmap string RateLimitRecord)
  : gmap string RateLimitRecord * Response :=
  if skip options req then (rateLimitStore, Next None) else
  let key := keyGenerator options req in
  if is_prototype_key key then
    (rateLimitStore,
     Next (Some {| X_RateLimit_Limit := maxRequests options;
                   X_RateLimit_Remaining := None;
                   X_RateLimit_Reset := None |}))
  else
  let windowMs := windowSeconds options * 1000 in
  (* initialize or get existing rate limit data *)
  let existing :=
    match rateLimitStore !! key with
    | Some r => if resetTime r <? now then None else Some r
    | None => None
    end in
  let rateLimit :=
    default {| count := 0; resetTime := now + windowMs |} existing in
  (* increment request count *)
  let rateLimit := {| count := count rateLimit + 1; resetTime := resetTime rateLimit |} in
  let rateLimitStore := <[key := rateLimit]> rateLimitStore in
  let headers :=
    {| X_RateLimit_Limit := maxRequests options;
       X_RateLimit_Remaining := Some (Z.max 0 (maxRequests options - count rateLimit));
       X_RateLimit_Reset := Some (ceil_div (resetTime rateLimit) 1000) |} in
  if maxRequests options <? count rateLimit then
    let retryAfter := ceil_div (resetTime rateLimit - now) 1000 in
    let errorMessage :=
      or_default (message options)
                 ("Rate limit exceeded. Please try again in " +:+ pretty retryAfter +:+
                  " seconds.") in
    (rateLimitStore, Reject 429 headers retryAfter errorMessage retryAfter)
  else (rateLimitStore, Next (Some headers)).

(** The record a call works on: the stored one while its window is active, a
    fresh one otherwise. *)
Definition current_record (options : RateLimitOptions) (now : Z)
    (stored : option RateLimitRecord) : RateLimitRecord :=
  match stored with
  | Some r =>
      if resetTime r <? now
      then {| count := 0; resetTime := now + windowSeconds options * 1000 |}
      else r
  | None => {| count := 0; resetTime := now + windowSeconds options * 1000 |}
  end.

(** [rateLimit.count++]. *)
Definition bump (r : RateLimitRecord) : RateLimitRecord :=
  {| count := count r + 1; resetTime := resetTime r |}.

(** The periodic sweep: entries whose window is over are deleted. *)
Definition cleanup (now : Z) (rateLimitStore : gmap string RateLimitRecord)
  : gmap string RateLimitRecord :=
  filter (fun kv => ¬ (resetTime kv.2 < now)) rateLimitStore.

Definition no_skip (req : Request_) : bool := false.

Definition aiGenerationRateLimit : RateLimitOptions :=
  {| maxRequests := 10; windowSeconds := 60; keyGenerator := user_keyGenerator;
     skip := no_skip;
     message := Some "Too many AI generation requests. Please wait before generating more content." |}.

Definition presentationCreationRateLimit : RateLimitOptions :=
  {| maxRequests := 5; windowSeconds := 300; keyGenerator := user_keyGenerator;
     skip := no_skip;
     message := Some "Too many presentations created. Please wait before creating more." |}.

Definition imageSearchRateLimit : RateLimitOptions :=
  {| maxRequests := 30; windowSeconds := 60; keyGenerator := user_keyGenerator;
     skip := no_skip;
     message := Some "Too many image searches. Please wait before searching again." |}.

Definition generalApiRateLimit : RateLimitOptions :=
  {| maxRequests := 100; windowSeconds := 60; keyGenerator := user_keyGenerator;
     skip := no_skip;
     message := Some "Too many requests. Please slow down." |}.

(** One admission attempt: which limiter, which request, at what time. *)
Record Attempt : Type := {
  at_options : RateLimitOptions;
  at_req : Request_;
  at_now : Z
}.

(** A sequence of attempts on the shared store: the final store and the
    responses, oldest first. *)
Fixpoint run_attempts (l : list Attempt) (store : gmap string RateLimitRecord)
  : gmap string RateLimitRecord * list Response :=
  match l with
  | [] => (store, [])
  | a :: rest =>
      let '(store, r) := rateLimit (at_options a) (at_req a) (at_now a) store in
      let '(store, rs) := run_attempts rest store in
      (store, r :: rs)
  end.

(** The same request sent through the same limiter at the given times. *)
Definition attempts_at (options : RateLimitOptions) (req : Request_) (times : list Z)
  : list Attempt :=
  map (fun t => {| at_options := options; at_req := req; at_now := t |}) times.

Definition admitted (r : Response) : bool :=
  match r with
  | Next _ => true
  | Reject _ _ _ _ _ => false
  end.

(* ===================================================================== *)
(** * Token refresh with a lock ([utils/token-manager.ts]) *)
(* ===================================================================== *)

(** The columns of a profile row that the credential code reads or writes;
    the expiry is in milliseconds since the epoch. *)
Record Profile : Type := {
  id : string;
  googleAccessToken : option string;
  googleRefreshToken : option string;
  googleTokenExpiry : option Z
}.

(** The [credentials] of a provider answer or of an OAuth2 client. *)
Record Credentials : Type := {
  access_token : option string;
  refresh_token : option string;
  expiry_date : option Z
}.

(** [needsTokenRefresh(tokenExpiry)] at clock reading [now]. *)
Definition needsTokenRefresh (tokenExpiry : option Z) (now : Z) : bool :=
  match tokenExpiry with
  | None => false
  | Some expiryTime =>
      let fiveMinutesFromNow := now + 5 * 60 * 1000 in
      expiryTime <=? fiveMinutesFromNow
  end.

(** The credentials [getOAuth2Client] sets on the client from a profile. *)
Definition credentials_of (user : Profile) : Credentials :=
  {| access_token := googleAccessToken user;
     refresh_token := googleRefreshToken user;
     expiry_date := googleTokenExpiry user |}.

(** [a ? a : b] on a number that may be [undefined]: 0 is falsy. *)
Definition truthy_number (a : option Z) : bool :=
  match a with
  | Some n => negb (n =? 0)
  | None => false
  end.

(** Modelled from the spec: [storage.updateProfile], which is not among the
    methods of [server/storage.ts]; the specification has the refresh persist
    the new access token and expiry through the credential store.  This is
    the row after [storage.updateProfile(user.id, {...})] with the two values
    [refreshGoogleToken] passes; the other columns stay. *)
Definition refreshed_profile (user : Profile) (credentials : Credentials)
    (row : Profile) : Profile :=
  {| id := id row;
     googleAccessToken := or_else (access_token credentials) (googleAccessToken user);
     googleRefreshToken := googleRefreshToken row;
     googleTokenExpiry :=
       if truthy_number (expiry_date credentials) then expiry_date credentials
       else googleTokenExpiry user |}.

(** The refresh job started by [refreshGoogleToken] (the promise stored in
    [refreshLocks]): suspended at one of its two [await]s, or settled. *)
Inductive Job : Type :=
| AwaitProvider (user : Profile)
| AwaitUpdate (user : Profile) (credentials : Credentials)
| Fulfilled
| Rejected (e : JsError).

(** A call of [getOAuth2Client(user)]: not yet made, suspended inside
    [refreshGoogleToken] at the [await] of lock [p] or at the [await] of
    [storage.getProfileById], or completed with the client's credentials and
    the profile it returns. *)
Inductive Caller : Type :=
| Idle (user : Profile)
| AwaitLock (user : Profile) (p : nat)
| AwaitProfile (user : Profile)
| Done (r : Completion (Credentials * Profile)).

(** The process: the [refreshLocks] map (a lock is the index of its job), the
    jobs, the profile table, the callers, and the principals for which
    [oauth2Client.refreshAccessToken()] has been called, oldest first. *)
Record State : Type := {
  refreshLocks : gmap string nat;
  jobs : list Job;
  profiles : gmap string Profile;
  callers : list Caller;
  providerCalls : list string
}.

(** What happens next: a caller makes its call (at a clock reading), the
    provider or the store answers a suspended job, a caller resumes after the
    promise it awaits has settled, the store answers a caller's read. *)
Inductive Event : Type :=
| Call (i : nat) (now : Z)
| ProviderAnswers (p : nat) (r : Completion Credentials)
| UpdateAnswers (p : nat) (r : Completion unit)
| LockSettled (i : nat)
| ProfileAnswers (i : nat) (r : Completion unit).

Definition set_caller (i : nat) (c : Caller) (s : State) : State :=
  {| refreshLocks := refreshLocks s; jobs := jobs s; profiles := profiles s;
     callers := <[i := c]> (callers s); providerCalls := providerCalls s |}.

(** The synchronous part of [getOAuth2Client(user)], up to its first
    suspension.  A caller that finds a lock awaits it; one that finds none
    starts a job, which calls the provider at once, and stores the lock. *)
Definition call (i : nat) (user : Profile) (now : Z) (s : State) : State :=
  if negb (truthy (googleAccessToken user)) || negb (truthy (googleRefreshToken user))
  then set_caller i (Done (Throw GoogleAuthError)) s
  else if negb (needsTokenRefresh (googleTokenExpiry user) now)
  then set_caller i (Done (Return (credentials_of user, user))) s
  else
    match refreshLocks s !! id user with
    | Some existingLock => set_caller i (AwaitLock user existingLock) s
    | None =>
        let refreshPromise := length (jobs s) in
        {| refreshLocks := <[id user := refreshPromise]> (refreshLocks s);
           jobs := jobs s ++ [AwaitProvider user];
           profiles := profiles s;
           callers := <[i := AwaitLock user refreshPromise]> (callers s);
           providerCalls := providerCalls s ++ [id user] |}
    end.

(** A job settles: its [finally] block deletes the lock of its user. *)
Definition settle (p : nat) (user : Profile) (j : Job)
    (profiles' : gmap string Profile) (s : State) : State :=
  {| refreshLocks := delete (id user) (refreshLocks s);
     jobs := <[p := j]> (jobs s);
     profiles := profiles';
     callers := callers s;
     providerCalls := providerCalls s |}.

Definition step (s : State) (e : Event) : option State :=
  match e with
  | Call i now =>
      match callers s !! i with
      | Some (Idle user) => Some (call i user now s)
      | _ => None
      end
  | ProviderAnswers p r =>
      match jobs s !! p with
      | Some (AwaitProvider user) =>
          match r with
          | Return credentials =>
              Some {| refreshLocks := refreshLocks s;
                      jobs := <[p := AwaitUpdate user credentials]> (jobs s);
                      profiles := profiles s;
                      callers := callers s;
                      providerCalls := providerCalls s |}
          | Throw _ => Some (settle p user (Rejected TokenRefreshError) (profiles s) s)
          end
      | _ => None
      end
  | UpdateAnswers p r =>
      match jobs s !! p with
      | Some (AwaitUpdate user credentials) =>
          match r with
          | Return _ =>
              Some (settle p user Fulfilled
                      (alter (refreshed_profile user credentials) (id user) (profiles s))
                      s)
          | Throw _ => Some (settle p user (Rejected TokenRefreshError) (profiles s) s)
          end
      | _ => None
      end
  | LockSettled i =>
      match callers s !! i with
      | Some (AwaitLock user p) =>
          match jobs s !! p with
          | Some Fulfilled => Some (set_caller i (AwaitProfile user) s)
          | Some (Rejected _) => Some (set_caller i (Done (Throw TokenExpiredError)) s)
          | _ => None
          end
      | _ => None
      end
  | ProfileAnswers i r =>
      match callers s !! i with
      | Some (AwaitProfile user) =>
          match r with
          | Return _ =>
              match profiles s !! id user with
              | Some updatedUser =>
                  Some (set_caller i
                          (Done (Return (credentials_of updatedUser, updatedUser))) s)
              | None => Some (set_caller i (Done (Throw TokenExpiredError)) s)
              end
          | Throw _ => Some (set_caller i (Done (Throw TokenExpiredError)) s)
          end
      | _ => None
      end
  end.

(** A schedule is run event by event; [None] when an event is not enabled. *)
Fixpoint exec (s : State) (evs : list Event) : option State :=
  match evs with
  | [] => Some s
  | e :: rest =>
      match step s e with
      | Some s' => exec s' rest
      | None => None
      end
  end.

(** [n] callers hold the same profile object of one principal; no refresh is
    in flight. *)
Definition init (db : gmap string Profile) (user : Profile) (n : nat) : State :=
  {| refreshLocks := ∅; jobs := []; profiles := db;
     callers := replicate n (Idle user); providerCalls := [] |}.

(** The calls of a schedule overlap: none is made after a refresh job has
    settled. *)
Fixpoint calls_overlap (settled : bool) (evs : list Event) : bool :=
  match evs with
  | [] => true
  | Call _ _ :: rest => negb settled && calls_overlap settled rest
  | ProviderAnswers _ (Throw _) :: rest => calls_overlap true rest
  | UpdateAnswers _ _ :: rest => calls_overlap true rest
  | _ :: rest => calls_overlap settled rest
  end.

(** Every call of the schedule is made at a time when the credential expires
    within the five-minute margin. *)
Definition calls_within_margin (expiry : Z) (evs : list Event) : bool :=
  forallb (fun e => match e with
                    | Call _ now => expiry <=? now + 5 * 60 * 1000
                    | _ => true
                    end) evs.

(** No read of the profile table fails. *)
Definition reads_succeed (evs : list Event) : bool :=
  forallb (fun e => match e with
                    | ProfileAnswers _ (Throw _) => false
                    | _ => true
                    end) evs.

Definition is_done (c : Caller) : bool :=
  match c with
  | Done _ => true
  | _ => false
  end.

(** ** The invariant of overlapping calls *)

(** Whether a refresh job has settled after event [e], given whether one had
    before. *)
Definition settled_after (settled : bool) (e : Event) : bool :=
  match e with
  | ProviderAnswers _ (Throw _) => true
  | UpdateAnswers _ _ => true
  | _ => settled
  end.

(** What every caller of a settled refresh job gets: the profile read back
    from the table when the job was fulfilled, the session-expired error when
    it was rejected (or when the row is gone). *)
Definition final_result (user : Profile) (j : Job) (table : gmap string Profile)
  : Completion (Credentials * Profile) :=
  match j with
  | Fulfilled =>
      match table !! id user with
      | Some updatedUser => Return (credentials_of updatedUser, updatedUser)
      | None => Throw TokenExpiredError
      end
  | _ => Throw TokenExpiredError
  end.

(** The answers a schedule gives to refresh jobs: those of the provider and
    those of the store to the update, in the order of the schedule. *)
Definition is_answer (e : Event) : bool :=
  match e with
  | ProviderAnswers _ _ => true
  | UpdateAnswers _ _ => true
  | _ => false
  end.

Definition refresh_answers (evs : list Event) : list Event :=
  List.filter is_answer evs.

Section Phases.

Variable db : gmap string Profile.
Variable user : Profile.
Variable n : nat.

(** The events seen so far. *)
Variable hist : list Event.

(** One refresh job is in flight; every caller is still to call or awaits
    its lock. *)
Definition in_flight (s : State) : Prop :=
  refreshLocks s = {[ id user := 0%nat ]} /\
  ((jobs s = [AwaitProvider user] /\ refresh_answers hist = []) \/
   exists credentials,
     jobs s = [AwaitUpdate user credentials] /\
     refresh_answers hist = [ProviderAnswers 0 (Return credentials)]) /\
  profiles s = db /\
  providerCalls s = [id user] /\
  length (callers s) = n /\
  Forall (fun c => c = Idle user \/ c = AwaitLock user 0) (callers s).

(** How the one job has settled and the table it leaves, by the answers it
    got: rejected, with the table as it was, when the provider or the store
    refused; fulfilled, with the row of the principal updated, when both
    accepted. *)
Definition settlement (j : Job) (table : gmap string Profile) : Prop :=
  (((exists e, refresh_answers hist = [ProviderAnswers 0 (Throw e)]) \/
    (exists credentials e,
        refresh_answers hist =
          [ProviderAnswers 0 (Return credentials); UpdateAnswers 0 (Throw e)])) /\
   j = Rejected TokenRefreshError /\ table = db) \/
  (exists credentials,
      refresh_answers hist =
        [ProviderAnswers 0 (Return credentials); UpdateAnswers 0 (Return tt)] /\
      j = Fulfilled /\
      table = alter (refreshed_profile user credentials) (id user) db).

(** The job has settled and released the lock; callers are on their way to
    the common result. *)
Definition after_settlement (s : State) : Prop :=
  refreshLocks s = ∅ /\
  (exists j,
      jobs s = [j] /\
      settlement j (profiles s) /\
      Forall (fun c => c = Idle user \/ c = AwaitLock user 0 \/
                       (c = AwaitProfile user /\ j = Fulfilled) \/
                       c = Done (final_result user j (profiles s)))
             (callers s)) /\
  providerCalls s = [id user] /\
  length (callers s) = n.

Definition overlap_invariant (settled : bool) (s : State) : Prop :=
  if settled then after_settlement s
  else (s = init db user n /\ refresh_answers hist = []) \/ in_flight s.

End Phases.

(* ===================================================================== *)
(** * Further functions of the same files *)
(* ===================================================================== *)

(** ** [url-validator.ts]: [validateImageUrls], [isPublicUrl],
    [addTrustedDomain] *)

(** An entry of the array [validateImageUrls] returns. *)
Record UrlCheck : Type := {
  uc_url : option string;
  uc_valid : bool;
  uc_error : option string
}.

(** The callback of the [map] of [validateImageUrls]. *)
Definition checkImageUrl (parseURL : string -> option URL) (trusted_domains : list string)
    (allowUntrusted : bool) (url : option string) : UrlCheck :=
  match validateImageUrl parseURL trusted_domains url allowUntrusted with
  | Return validatedUrl =>
      {| uc_url := validatedUrl; uc_valid := true; uc_error := None |}
  | Throw error =>
      {| uc_url := url; uc_valid := false; uc_error := Some (error_message error) |}
  end.

Definition validateImageUrls (parseURL : string -> option URL)
    (trusted_domains : list string) (urls : list (option string))
    (allowUntrusted : bool) : list UrlCheck :=
  map (checkImageUrl parseURL trusted_domains allowUntrusted) urls.

(** Matching a literal at the start of a string: the rest after it. *)
Fixpoint match_lit (lit s : string) : option string :=
  match lit with
  | EmptyString => Some s
  | String c lit' =>
      match s with
      | String x rest => if Ascii.eqb c x then match_lit lit' rest else None
      | EmptyString => None
      end
  end.

(** The rest of a string after its leading digits. *)
Fixpoint skip_digits (s : string) : string :=
  match s with
  | String c rest => if is_digit c then skip_digits rest else s
  | EmptyString => EmptyString
  end.

(** Matching [\d+] at the start of a string (as many digits as there are,
    at least one): the rest after them. *)
Definition match_digits (s : string) : option string :=
  match s with
  | String c rest => if is_digit c then Some (skip_digits rest) else None
  | EmptyString => None
  end.

(** Matching [(1[6-9]|2\d|3[01])] at the start of a string. *)
Definition match_172_second (s : string) : option string :=
  match s with
  | String c1 (String c2 rest) =>
      let n2 := Ascii.nat_of_ascii c2 in
      if (Ascii.eqb c1 "1" && (54 <=? n2)%nat && (n2 <=? 57)%nat) ||
         (Ascii.eqb c1 "2" && is_digit c2) ||
         (Ascii.eqb c1 "3" && (Ascii.eqb c2 "0" || Ascii.eqb c2 "1"))
      then Some rest else None
  | _ => None
  end.

Definition at_end (o : option string) : bool :=
  match o with
  | Some EmptyString => true
  | _ => false
  end.

(** The next piece of a pattern, after what has been matched so far. *)
Definition and_then (o : option string) (f : string -> option string) : option string :=
  match o with
  | Some rest => f rest
  | None => None
  end.

(** [\.\d+] after what has been matched so far. *)
Definition dot_number (o : option string) : option string :=
  and_then (and_then o (match_lit ".")) match_digits.

(** The [privatePatterns] of [isPublicUrl], in their order. *)
Definition privatePatterns : list (string -> bool) :=
  [ (* /^localhost$/i *)
    (fun h => String.eqb (toLowerCase h) "localhost");
    (* /^127\.\d+\.\d+\.\d+$/ *)
    (fun h => at_end (dot_number (dot_number (and_then (match_lit "127." h) match_digits))));
    (* /^10\.\d+\.\d+\.\d+$/ *)
    (fun h => at_end (dot_number (dot_number (and_then (match_lit "10." h) match_digits))));
    (* /^172\.(1[6-9]|2\d|3[01])\.\d+\.\d+$/ *)
    (fun h => at_end (dot_number (dot_number
                        (and_then (match_lit "172." h) match_172_second))));
    (* /^192\.168\.\d+\.\d+$/ *)
    (fun h => at_end (dot_number (and_then (match_lit "192.168." h) match_digits)));
    (* /^0\.0\.0\.0$/ *)
    (fun h => String.eqb h "0.0.0.0");
    (* /^\[::/ *)
    (fun h => startsWith h "[::");
    (* /^::1$/ *)
    (fun h => String.eqb h "::1") ].

Definition isPrivateHost (hostname : string) : bool :=
  existsb (fun pattern => pattern hostname) privatePatterns.

Definition isPublicUrl (parseURL : string -> option URL) (url : string) : bool :=
  match parseURL url with
  | Some parsedUrl => negb (isPrivateHost (toLowerCase (hostname parsedUrl)))
  | None => false
  end.

(** [s.replace(/^https?:\/\//, '')]. *)
Definition strip_scheme (s : string) : string :=
  match match_lit "http://" s with
  | Some rest => rest
  | None =>
      match match_lit "https://" s with
      | Some rest => rest
      | None => s
      end
  end.

(** [addTrustedDomain(domain)]: the allow-list afterwards. *)
Definition addTrustedDomain (domain : string) (domains : list string) : list string :=
  let normalizedDomain := strip_scheme (toLowerCase domain) in
  if existsb (String.eqb normalizedDomain) domains then domains
  else domains ++ [normalizedDomain].

(** A non-empty string of digits. *)
Definition numeral (s : string) : Prop :=
  s <> "" /\ string_forallb is_digit s = true.

(** The host [a.b.c.d] written in decimal. *)
Definition dotted_quad (a b c d : nat) : string :=
  pretty a +:+ "." +:+ pretty b +:+ "." +:+ pretty c +:+ "." +:+ pretty d.

(** ** [presentation.ts]: what an operation creates and what it relies on *)

(** The identifier of the object an operation creates. *)
Definition request_creates (r : Request) : option string :=
  match r with
  | createSlide objectId _ => Some objectId
  | createShape objectId _ => Some objectId
  | _ => None
  end.

(** The identifier of the object an operation relies on: the page an element
    is placed on, the shape whose text is written or styled.  [deleteObject]
    addresses an object of the deck as it was read, not one of the script. *)
Definition request_needs (r : Request) : option string :=
  match r with
  | createShape _ props => Some (pageObjectId props)
  | insertText objectId _ => Some objectId
  | updateTextStyle objectId _ _ => Some objectId
  | createImage _ props => Some (pageObjectId props)
  | _ => None
  end.

(** A script in which every operation finds the object it relies on among
    the objects [known] or created earlier in the script, and creates no
    object a second time. *)
Fixpoint script_ok (known : list string) (ops : list Request) : Prop :=
  match ops with
  | [] => True
  | r :: rest =>
      (forall id, request_needs r = Some id -> In id known) /\
      match request_creates r with
      | Some id => ~ In id known /\ script_ok (id :: known) rest
      | None => script_ok known rest
      end
  end.

(** The operations the compilation loop starts from: the deletion of the
    first slide of the deck, when it has one. *)
Definition initial_requests (firstSlideId : option string) : list Request :=
  if truthy firstSlideId then [deleteObject (default "" firstSlideId)] else [].

(** The operations compiled for a deck whose first slide is [firstSlideId]. *)
Definition compiled_requests (colorTheme : option ColorTheme)
    (firstSlideId : option string) (validatedSlides : list SlideContent)
  : list Request :=
  acc_requests
    (compile_from colorTheme 0 validatedSlides
       {| acc_requests := initial_requests firstSlideId;
          acc_failedSlides := []; acc_warnings := [] |}).

(** The slides that carry speaker notes. *)
Definition slides_with_notes (slideContents : list SlideContent) : nat :=
  length (filter (fun content => truthy (notes content) = true) slideContents).

(** ** [presentation.ts]: where an operation places its element *)

(** The size and position of the element an operation places on a page. *)
Definition request_box (r : Request) : option ElementProperties :=
  match r with
  | createShape _ props => Some props
  | createImage _ props => Some props
  | _ => None
  end.

(** Two elements cover a common area of the page. *)
Definition boxes_overlap (a b : ElementProperties) : Prop :=
  translateX a < translateX b + width b /\ translateX b < translateX a + width a /\
  translateY a < translateY b + height b /\ translateY b < translateY a + height a.

(** The field mask that names exactly the properties a text style sets, in
    the order [fontSize], [bold], [foregroundColor]. *)
Definition style_fields (style : TextStyle) : string :=
  "fontSize" +:+
  match bold style with Some _ => ",bold" | None => "" end +:+
  match foregroundColor style with Some _ => ",foregroundColor" | None => "" end.

(** ** [rate-limit.ts]: the store before and after a sweep *)

(** Two stores that differ only in records whose window was over at time
    [t]: the second may still hold them, the first has dropped them. *)
Definition swept_of (t : Z) (store1 store2 : gmap string RateLimitRecord) : Prop :=
  forall k,
    store1 !! k = store2 !! k \/
    (store1 !! k = None /\ exists r, store2 !! k = Some r /\ resetTime r < t).

(** ** [token-manager.ts]: jobs in flight *)

(** The principal whose refresh a job is still working on. *)
Definition job_user (j : Job) : option Profile :=
  match j with
  | AwaitProvider user => Some user
  | AwaitUpdate user _ => Some user
  | _ => None
  end.

(** A process in which nothing has happened yet: callers of any principals,
    all of them still to call, no lock and no job. *)
Definition quiet (s : State) : Prop :=
  refreshLocks s = ∅ /\ jobs s = [] /\ providerCalls s = [] /\
  Forall (fun c => exists user, c = Idle user) (callers s).

(** Locks and jobs in flight correspond: every lock points to a job in
    flight for its principal, every job in flight holds the lock of its
    principal, and the provider has been called once per job. *)
Definition locks_match_jobs (s : State) : Prop :=
  (forall uid p,
      refreshLocks s !! uid = Some p ->
      exists j user, jobs s !! p = Some j /\ job_user j = Some user /\ id user = uid) /\
  (forall p j user,
      jobs s !! p = Some j -> job_user j = Some user ->
      refreshLocks s !! id user = Some p) /\
  length (providerCalls s) = length (jobs s).

(** What a completed call hands back: one of the two credential errors, or
    a profile with the credentials read from it. *)
Definition result_ok (r : Completion (Credentials * Profile)) : Prop :=
  r = Throw GoogleAuthError \/ r = Throw TokenExpiredError \/
  exists updatedUser, r = Return (credentials_of updatedUser, updatedUser).

(** The identifier does not occur in a list of identifiers that are all
    different from it by their prefix or are kept out by [Hfresh]. *)
Ltac fresh_id Hfresh :=
  let H := fresh in
  intros H; cbn [In] in H;
  repeat (destruct H as [H|H]; [discriminate H|]);
  revert H; apply Hfresh; unfold slide_object_ids; cbn [In]; tauto.

(* ===================================================================== *)
(** * Sample inputs *)
(* ===================================================================== *)

(** A slide on which every optional field is present. *)
Definition full_slide : SlideContent :=
  {| type := content_slide; title := Some "Plants"; subtitle := Some "Unit 1";
     text := Some "Photosynthesis"; bulletPoints := Some ["light"; "water"];
     imageUrl := Some "https://images.unsplash.com/leaf.png"; imageAlt := None;
     imageAttribution := None; questions := Some ["Why green?"];
     notes := Some "Remind the class of the lab." |}.

(** A slide with a title only. *)
Definition title_only (t : string) : SlideContent :=
  {| type := title_slide; title := Some t; subtitle := None; text := None;
     bulletPoints := None; imageUrl := None; imageAlt := None;
     imageAttribution := None; questions := None; notes := None |}.

(** A deck whose only slide is the default blank one, without notes page. *)
Definition blank_deck : Presentation :=
  {| slides := Some [ {| pg_objectId := Some "p"; pg_notesPage := None |} ] |}.

(** A remote service that accepts every call. *)
Definition ok_api : SlidesApi :=
  {| api_get := fun _ => Return blank_deck;
     api_batchUpdate := fun _ _ => Return tt |}.

Definition default_options : CreatePresentationOptions :=
  {| colorTheme := None; allowUntrustedImages := None |}.

(** A remote service that refuses the second [batchUpdate] call of a run. *)
Definition flaky_api : SlidesApi :=
  {| api_get := fun _ => Return blank_deck;
     api_batchUpdate :=
       fun n _ => if (n =? 1)%nat then Throw (PlainError "quota exceeded") else Return tt |}.

(** A slide with a title and an image reference. *)
Definition image_slide_of (t url : string) : SlideContent :=
  {| type := image_slide; title := Some t; subtitle := None; text := None;
     bulletPoints := None; imageUrl := Some url; imageAlt := None;
     imageAttribution := None; questions := None; notes := None |}.

(** Two slides have the same optional fields present. *)
Definition same_fields (c1 c2 : SlideContent) : Prop :=
  truthy (title c1) = truthy (title c2) /\
  truthy (subtitle c1) = truthy (subtitle c2) /\
  truthy (text c1) = truthy (text c2) /\
  nonEmptyArray (bulletPoints c1) = nonEmptyArray (bulletPoints c2) /\
  nonEmptyArray (questions c1) = nonEmptyArray (questions c2) /\
  truthy (imageUrl c1) = truthy (imageUrl c2).

(** A principal whose access token expires at 1000000 ms. *)
Definition alice : Profile :=
  {| id := "alice"; googleAccessToken := Some "old-token";
     googleRefreshToken := Some "refresh-1"; googleTokenExpiry := Some 1000000 |}.

Definition new_credentials : Credentials :=
  {| access_token := Some "new-token"; refresh_token := None;
     expiry_date := Some 4600000 |}.

(** Three overlapping calls, the third made while the refresh is in flight,
    and the answers of provider and store interleaved with them. *)
Definition overlapping_schedule : list Event :=
  [ Call 0 900000; Call 1 900001; ProviderAnswers 0 (Return new_credentials);
    Call 2 900002; UpdateAnswers 0 (Return tt); LockSettled 1; LockSettled 0;
    ProfileAnswers 1 (Return tt); LockSettled 2; ProfileAnswers 0 (Return tt);
    ProfileAnswers 2 (Return tt) ].

(** A parser that knows one address. *)
Definition parse_only (url : string) (u : URL) : string -> option URL :=
  fun s => if String.eqb s url then Some u else None.

(** An image address on a private network, as the URL parser reads it. *)
Definition private_image_url : URL :=
  {| protocol := "http:"; username := ""; password := "";
     hostname := "172.20.0.7"; port := ""; pathname := "/logo.png";
     search := ""; hash := "" |}.

(** A remote service that can be read but refuses every [batchUpdate]. *)
Definition refusing_api : SlidesApi :=
  {| api_get := fun _ => Return blank_deck;
     api_batchUpdate := fun _ _ => Throw (PlainError "quota exceeded") |}.

(** A second principal. *)
Definition bob : Profile :=
  {| id := "bob"; googleAccessToken := Some "bob-token";
     googleRefreshToken := Some "refresh-2"; googleTokenExpiry := Some 1000000 |}.

(** Callers of two principals, and a schedule in which their refreshes
    interleave; the provider refuses the second principal, and the first
    principal calls again after its refresh has settled. *)
Definition two_principals : State :=
  {| refreshLocks := ∅; jobs := []; profiles := {[ "alice" := alice; "bob" := bob ]};
     callers := [Idle alice; Idle bob; Idle alice]; providerCalls := [] |}.

Definition interleaved_schedule : list Event :=
  [ Call 0 900000; Call 1 900001; ProviderAnswers 1 (Throw (PlainError "invalid_grant"));
    ProviderAnswers 0 (Return new_credentials); LockSettled 1;
    UpdateAnswers 0 (Return tt); Call 2 900005; LockSettled 0;
    ProfileAnswers 0 (Return tt) ].

(** A parser that knows the address of [private_image_url] under both
    schemes. *)
Definition parse_private (s : string) : option URL :=
  if String.eqb s "http://172.20.0.7/logo.png" then Some private_image_url
  else if String.eqb s "https://172.20.0.7/logo.png"
       then Some (set_protocol_https private_image_url)
       else None.

(** Options that allow images from any host. *)
Definition untrusted_allowed : CreatePresentationOptions :=
  {| colorTheme := None; allowUntrustedImages := Some true |}.

(** A slide with every optional field but speaker notes: 17 operations. *)
Definition plain_slide : SlideContent :=
  {| type := content_slide; title := Some "Plants"; subtitle := Some "Unit 1";
     text := Some "Photosynthesis"; bulletPoints := Some ["light"; "water"];
     imageUrl := Some "https://images.unsplash.com/leaf.png"; imageAlt := None;
     imageAttribution := None; questions := Some ["Why green?"];
     notes := None |}.

(** Twenty slides that compile, on a deck with one slide to delete, to
    1 + 13 * 17 + 7 * 4 = 250 operations. *)
Definition lesson250 : list SlideContent :=
  replicate 13 plain_slide ++ replicate 7 (title_only "Recap").

(* ===================================================================== *)
(** * Properties of the content validator *)
(* ===================================================================== *)

Lemma requestCount_bounds (content : SlideContent) :
  1 <= requestCount content <= 18.
Proof.
  unfold requestCount.
  destruct (truthy (title content)), (truthy (subtitle content)),
    (truthy (text content)), (nonEmptyArray (bulletPoints content)),
    (nonEmptyArray (questions content)), (truthy (imageUrl content)),
    (truthy (notes content)); lia.
Qed.

Lemma requestCount_full_slide : requestCount full_slide = 18.
Proof. reflexivity. Qed.

Lemma validateSlideContent_from_within (ceiling : Z) (slideContents : list SlideContent) :
  forall index,
    Forall (fun c => requestCount c <= ceiling * 2) slideContents ->
    validateSlideContent_from ceiling index slideContents = Return tt.
Proof.
  induction slideContents as [|c rest IH]; intros index Hall; simpl.
  - reflexivity.
  - inversion Hall as [|? ? Hc Hrest]; subst.
    destruct (Z.ltb_spec (ceiling * 2) (requestCount c)) as [Hlt|_]; [lia|].
    now apply IH.
Qed.

Lemma validateSlideContent_returns (slideContents : list SlideContent) :
  validateSlideContent slideContents = Return tt.
Proof.
  unfold validateSlideContent, validateSlideContentWith.
  apply validateSlideContent_from_within.
  apply Forall_forall. intros c _.
  pose proof (requestCount_bounds c). unfold MAX_REQUESTS_PER_SLIDE. lia.
Qed.

(** ** C10 *)

(** C10: for every slide content the operation estimate of
    [validateSlideContent] is at most 18 (and 18 is reached), which does not
    exceed [2 * MAX_REQUESTS_PER_SLIDE = 20]; so the branch that throws
    [BatchSizeExceededError] is never taken and [validateSlideContent]
    returns normally on every slide list. *)
Theorem validateSlideContent_never_throws :
  (forall content : SlideContent,
      requestCount content <= 18 /\
      requestCount content <= MAX_REQUESTS_PER_SLIDE * 2) /\
  requestCount full_slide = 18 /\
  MAX_REQUESTS_PER_SLIDE * 2 = 20 /\
  (forall slideContents : list SlideContent,
      validateSlideContent slideContents = Return tt).
Proof.
  split; [|split; [|split]].
  - intros content. pose proof (requestCount_bounds content).
    unfold MAX_REQUESTS_PER_SLIDE. lia.
  - reflexivity.
  - reflexivity.
  - apply validateSlideContent_returns.
Qed.

(* ===================================================================== *)
(** * Properties of the URL validator *)
(* ===================================================================== *)

Lemma domain_matches_false (host domain : string) :
  domain_matches host domain = false <->
  host <> toLowerCase domain /\ endsWith host ("." +:+ toLowerCase domain) = false.
Proof.
  unfold domain_matches. rewrite orb_false_iff, String.eqb_neq. reflexivity.
Qed.

(** A host is not trusted exactly when it neither equals an allow-listed
    domain nor ends with a dot followed by one. *)
Lemma hostname_trusted_false (domains : list string) (host : string) :
  hostname_trusted domains host = false <->
  (forall d, In d domains ->
     toLowerCase host <> toLowerCase d /\
     endsWith (toLowerCase host) ("." +:+ toLowerCase d) = false).
Proof.
  unfold hostname_trusted. induction domains as [|d rest IH]; simpl.
  - split; [intros _ d [] | reflexivity].
  - rewrite orb_false_iff, IH, domain_matches_false. split.
    + intros [Hd Hrest] d' [<-|Hin]; [exact Hd | now apply Hrest].
    + intros H. split; [apply H; now left | intros d' Hin; apply H; now right].
Qed.

Section UrlValidatorFacts.

Variable parseURL : string -> option URL.
Variable domains : list string.

(** The validator on a string that parses, after the empty-string exits. *)
Lemma validateImageUrl_parsed (url : string) (u : URL) (allowUntrusted : bool) :
  url <> "" -> trim url <> "" -> parseURL (trim url) = Some u ->
  validateImageUrl parseURL domains (Some url) allowUntrusted =
    if negb (String.eqb (protocol u) "http:" || String.eqb (protocol u) "https:")
    then Throw (InvalidImageUrlError (trim url))
    else
      let u' := if String.eqb (protocol u) "http:" then set_protocol_https u else u in
      if negb allowUntrusted && negb (isUrlTrusted parseURL domains (href u'))
      then Throw (UntrustedImageDomainError (href u'))
      else Return (Some (href u')).
Proof.
  intros Hne Htrim Hparse. unfold validateImageUrl.
  apply String.eqb_neq in Hne. apply String.eqb_neq in Htrim.
  now rewrite Hne, Htrim, Hparse.
Qed.

Lemma validateImageUrl_bad_scheme (url : string) (u : URL) (allowUntrusted : bool) :
  url <> "" -> trim url <> "" -> parseURL (trim url) = Some u ->
  protocol u <> "http:" -> protocol u <> "https:" ->
  validateImageUrl parseURL domains (Some url) allowUntrusted =
    Throw (InvalidImageUrlError (trim url)).
Proof.
  intros Hne Htrim Hparse Hhttp Hhttps.
  rewrite (validateImageUrl_parsed url u) by assumption.
  apply String.eqb_neq in Hhttp. apply String.eqb_neq in Hhttps.
  now rewrite Hhttp, Hhttps.
Qed.

Lemma validateImageUrl_upgrades (url : string) (u : URL) (allowUntrusted : bool) :
  url <> "" -> trim url <> "" -> parseURL (trim url) = Some u ->
  protocol u = "http:" ->
  allowUntrusted = true \/
    isUrlTrusted parseURL domains (href (set_protocol_https u)) = true ->
  validateImageUrl parseURL domains (Some url) allowUntrusted =
    Return (Some (href (set_protocol_https u))).
Proof.
  intros Hne Htrim Hparse Hhttp Hok.
  rewrite (validateImageUrl_parsed url u) by assumption.
  rewrite Hhttp. simpl.
  destruct Hok as [-> | ->]; [reflexivity | now rewrite andb_false_r].
Qed.

Lemma validateImageUrl_untrusted (url : string) (u v : URL) :
  url <> "" -> trim url <> "" -> parseURL (trim url) = Some u ->
  protocol u = "http:" \/ protocol u = "https:" ->
  let u' := if String.eqb (protocol u) "http:" then set_protocol_https u else u in
  parseURL (href u') = Some v ->
  (forall d, In d domains ->
     toLowerCase (hostname v) <> toLowerCase d /\
     endsWith (toLowerCase (hostname v)) ("." +:+ toLowerCase d) = false) ->
  validateImageUrl parseURL domains (Some url) false =
    Throw (UntrustedImageDomainError (href u')) /\
  validateImageUrl parseURL domains (Some url) true = Return (Some (href u')).
Proof.
  intros Hne Htrim Hparse Hscheme u' Hv Hhost.
  rewrite !(validateImageUrl_parsed url u) by assumption.
  assert (Hs : negb (String.eqb (protocol u) "http:" ||
                     String.eqb (protocol u) "https:") = false).
  { destruct Hscheme as [-> | ->]; reflexivity. }
  rewrite Hs. fold u'. unfold isUrlTrusted. rewrite Hv.
  apply hostname_trusted_false in Hhost. rewrite Hhost. split; reflexivity.
Qed.

End UrlValidatorFacts.

(** ** C5 *)

(** C5: [validateImageUrl] rejects every URL whose scheme is neither http nor
    https with [InvalidImageUrlError]; an http URL that passes the domain
    check (or is exempted from it) comes back as the same URL with the scheme
    set to https; with [allowUntrusted = false] a well-formed http(s) URL
    whose host neither equals nor is a subdomain of an allow-listed domain is
    rejected with [UntrustedImageDomainError], and with [allowUntrusted =
    true] it is accepted.  The three sample URLs of the specification behave
    as it says. *)
Theorem validateImageUrl_contract :
  (forall parseURL domains url u allowUntrusted,
      url <> "" -> trim url <> "" -> parseURL (trim url) = Some u ->
      protocol u <> "http:" -> protocol u <> "https:" ->
      validateImageUrl parseURL domains (Some url) allowUntrusted =
        Throw (InvalidImageUrlError (trim url))) /\
  (forall parseURL domains url u allowUntrusted,
      url <> "" -> trim url <> "" -> parseURL (trim url) = Some u ->
      protocol u = "http:" ->
      allowUntrusted = true \/
        isUrlTrusted parseURL domains (href (set_protocol_https u)) = true ->
      validateImageUrl parseURL domains (Some url) allowUntrusted =
        Return (Some (href (set_protocol_https u))) /\
      protocol (set_protocol_https u) = "https:" /\
      hostname (set_protocol_https u) = hostname u /\
      pathname (set_protocol_https u) = pathname u /\
      search (set_protocol_https u) = search u /\
      hash (set_protocol_https u) = hash u) /\
  (forall parseURL domains url u v,
      url <> "" -> trim url <> "" -> parseURL (trim url) = Some u ->
      protocol u = "http:" \/ protocol u = "https:" ->
      let u' := if String.eqb (protocol u) "http:" then set_protocol_https u else u in
      parseURL (href u') = Some v ->
      (forall d, In d domains ->
         toLowerCase (hostname v) <> toLowerCase d /\
         endsWith (toLowerCase (hostname v)) ("." +:+ toLowerCase d) = false) ->
      validateImageUrl parseURL domains (Some url) false =
        Throw (UntrustedImageDomainError (href u')) /\
      validateImageUrl parseURL domains (Some url) true = Return (Some (href u'))) /\
  validateImageUrl parseURL_basic TRUSTED_IMAGE_DOMAINS (Some "ftp://x/y") false =
    Throw (InvalidImageUrlError "ftp://x/y") /\
  validateImageUrl parseURL_basic TRUSTED_IMAGE_DOMAINS
    (Some "http://images.unsplash.com/a.png") false =
    Return (Some "https://images.unsplash.com/a.png") /\
  validateImageUrl parseURL_basic TRUSTED_IMAGE_DOMAINS
    (Some "https://evil.example.com/a.png") false =
    Throw (UntrustedImageDomainError "https://evil.example.com/a.png") /\
  validateImageUrl parseURL_basic TRUSTED_IMAGE_DOMAINS
    (Some "https://evil.example.com/a.png") true =
    Return (Some "https://evil.example.com/a.png").
Proof.
  split; [|split; [|split]].
  - intros. now apply (validateImageUrl_bad_scheme parseURL domains url u).
  - intros parseURL domains url u allowUntrusted Hne Htrim Hparse Hhttp Hok.
    split; [now apply validateImageUrl_upgrades | repeat split].
  - intros parseURL domains url u v Hne Htrim Hparse Hscheme u' Hv Hhost.
    now apply (validateImageUrl_untrusted parseURL domains url u v).
  - repeat split; vm_compute; reflexivity.
Qed.

Lemma validateImageUrl_contract_witness :
  validateImageUrl parseURL_basic TRUSTED_IMAGE_DOMAINS (Some " ftp://x/y ") true =
    Throw (InvalidImageUrlError "ftp://x/y") /\
  validateImageUrl parseURL_basic TRUSTED_IMAGE_DOMAINS
    (Some "http://Images.Unsplash.com:443/a.png") false =
    Return (Some "https://images.unsplash.com/a.png") /\
  validateImageUrl parseURL_basic TRUSTED_IMAGE_DOMAINS
    (Some "http://unsplash.com.evil.org/a.png") false =
    Throw (UntrustedImageDomainError "https://unsplash.com.evil.org/a.png").
Proof.
  destruct validateImageUrl_contract as (Hscheme & Hupgrade & Huntrusted & _).
  split; [|split].
  - apply (Hscheme parseURL_basic TRUSTED_IMAGE_DOMAINS " ftp://x/y "
             {| protocol := "ftp:"; username := ""; password := ""; hostname := "x";
                port := ""; pathname := "/y"; search := ""; hash := "" |} true);
      [discriminate | discriminate | vm_compute; reflexivity
       | discriminate | discriminate].
  - apply (Hupgrade parseURL_basic TRUSTED_IMAGE_DOMAINS
             "http://Images.Unsplash.com:443/a.png"
             {| protocol := "http:"; username := ""; password := "";
                hostname := "images.unsplash.com"; port := "443";
                pathname := "/a.png"; search := ""; hash := "" |} false);
      [discriminate | discriminate | vm_compute; reflexivity | reflexivity
       | right; vm_compute; reflexivity].
  - apply (Huntrusted parseURL_basic TRUSTED_IMAGE_DOMAINS
             "http://unsplash.com.evil.org/a.png"
             {| protocol := "http:"; username := ""; password := "";
                hostname := "unsplash.com.evil.org"; port := "";
                pathname := "/a.png"; search := ""; hash := "" |}
             {| protocol := "https:"; username := ""; password := "";
                hostname := "unsplash.com.evil.org"; port := "";
                pathname := "/a.png"; search := ""; hash := "" |});
      [discriminate | discriminate | vm_compute; reflexivity | left; reflexivity
       | vm_compute; reflexivity |].
    apply hostname_trusted_false. vm_compute. reflexivity.
Defined.


(* ===================================================================== *)
(** * Properties of the batch execution engine *)
(* ===================================================================== *)

Lemma batch_size_pos : (0 < GOOGLE_API_BATCH_SIZE)%nat.
Proof. unfold GOOGLE_API_BATCH_SIZE. lia. Qed.

Lemma batch_count_0 : batch_count 0 = 0%nat.
Proof. reflexivity. Qed.

Lemma batch_count_step (m : nat) :
  (0 < m)%nat -> batch_count m = S (batch_count (m - GOOGLE_API_BATCH_SIZE)).
Proof.
  unfold batch_count, GOOGLE_API_BATCH_SIZE. intros Hm.
  destruct (Nat.le_gt_cases 100 m).
  - replace (m + (100 - 1))%nat with ((m - 100 + (100 - 1)) + 1 * 100)%nat by lia.
    rewrite Nat.div_add by lia. lia.
  - replace (m - 100 + (100 - 1))%nat with 99%nat by lia.
    rewrite (Nat.div_small 99 100) by lia.
    replace (m + (100 - 1))%nat with ((m - 1) + 1 * 100)%nat by lia.
    rewrite Nat.div_add by lia. rewrite Nat.div_small; lia.
Qed.

Lemma batches_of_done {A} (i : nat) (l : list A) :
  (length l <= i)%nat -> batches_of i l = [].
Proof.
  intros Hle. unfold batches_of.
  replace (length l - i)%nat with 0%nat by lia. reflexivity.
Qed.

Lemma batches_of_step {A} (i : nat) (l : list A) :
  (i < length l)%nat ->
  batches_of i l =
    slice i (i + GOOGLE_API_BATCH_SIZE) l :: batches_of (i + GOOGLE_API_BATCH_SIZE) l.
Proof.
  intros Hlt. unfold batches_of.
  rewrite (batch_count_step (length l - i)) by lia.
  rewrite <- cons_seq. cbn [map]. f_equal.
  - f_equal; lia.
  - rewrite <- seq_shift, map_map.
    replace (length l - i - GOOGLE_API_BATCH_SIZE)%nat
      with (length l - (i + GOOGLE_API_BATCH_SIZE))%nat by lia.
    apply map_ext. intros k. f_equal; lia.
Qed.

(** The loop computes the closed form, whenever its fuel covers the
    operations still to be cut. *)
Lemma batches_loop_closed {A} (l : list A) :
  forall fuel i batches,
    (length l - i <= fuel)%nat ->
    batches_loop fuel i l batches = batches ++ batches_of i l.
Proof.
  induction fuel as [|fuel IH]; intros i batches Hfuel.
  - rewrite batches_of_done by lia. cbn [batches_loop]. now rewrite app_nil_r.
  - cbn [batches_loop]. destruct (Nat.ltb_spec i (length l)) as [Hlt|Hge].
    + rewrite IH by (pose proof batch_size_pos; lia).
      rewrite (batches_of_step i l Hlt). now rewrite <- app_assoc.
    + rewrite batches_of_done by lia. now rewrite app_nil_r.
Qed.

Lemma make_batches_closed {A} (l : list A) : make_batches l = batches_of 0 l.
Proof.
  unfold make_batches. rewrite batches_loop_closed by lia. reflexivity.
Qed.

Lemma concat_batches_of {A} (l : list A) :
  forall n i, (length l - i <= n)%nat -> concat (batches_of i l) = drop i l.
Proof.
  induction n as [|n IH]; intros i Hn.
  - rewrite batches_of_done by lia. now rewrite drop_ge by lia.
  - destruct (Nat.lt_ge_cases i (length l)) as [Hlt|Hge].
    + rewrite (batches_of_step i l Hlt). cbn [concat].
      rewrite IH by (pose proof batch_size_pos; lia).
      unfold slice. replace (i + GOOGLE_API_BATCH_SIZE - i)%nat
        with GOOGLE_API_BATCH_SIZE by lia.
      rewrite <- (drop_drop l GOOGLE_API_BATCH_SIZE i). apply take_drop.
    + rewrite batches_of_done by lia. now rewrite drop_ge by lia.
Qed.

Lemma length_slice {A} (i j : nat) (l : list A) :
  length (slice i j l) = Nat.min (j - i) (length l - i).
Proof. unfold slice. now rewrite length_take, length_drop. Qed.

(** Every batch is a window of the operation list that starts inside it. *)
Lemma batches_of_lookup {A} (l : list A) (i k : nat) (b : list A) :
  batches_of i l !! k = Some b ->
  b = slice (i + k * GOOGLE_API_BATCH_SIZE)
            (i + k * GOOGLE_API_BATCH_SIZE + GOOGLE_API_BATCH_SIZE) l /\
  (k < batch_count (length l - i))%nat.
Proof.
  unfold batches_of. intros Hk.
  rewrite list_lookup_fmap in Hk.
  destruct (seq 0 (batch_count (length l - i)) !! k) as [k'|] eqn:Hseq;
    [|discriminate Hk].
  apply lookup_seq in Hseq as [-> Hlt]. cbn in Hk. inversion Hk. split; [reflexivity|lia].
Qed.

Lemma batch_count_gt (m k : nat) :
  (k < batch_count m)%nat -> (k * GOOGLE_API_BATCH_SIZE < m)%nat.
Proof.
  unfold batch_count, GOOGLE_API_BATCH_SIZE. intros Hk.
  destruct (Nat.le_gt_cases m (k * 100)) as [Hle|]; [|assumption].
  exfalso. assert ((m + (100 - 1)) / 100 < S k)%nat; [|lia].
  apply Nat.Div0.div_lt_upper_bound. lia.
Qed.

Lemma batch_count_last (m k : nat) :
  (S k < batch_count m)%nat -> (k * GOOGLE_API_BATCH_SIZE + GOOGLE_API_BATCH_SIZE < m)%nat.
Proof.
  intros Hk. apply batch_count_gt in Hk. lia.
Qed.

Section Engine.

Variable api : SlidesApi.

(** The submission loop never throws: it submits every batch, in order,
    counts the accepted ones and appends one warning per refused one. *)
Lemma submit_from_spec (batches : list (list Request)) :
  forall i successCount warnings w,
    submit_from api i batches successCount warnings w =
      (Return (successCount + batch_successes api (length (updates w)) batches,
               warnings ++ batch_warnings api (length (updates w)) i batches),
       {| gets := gets w; updates := updates w ++ batches |}).
Proof.
  induction batches as [|batch rest IH]; intros i sc ws w.
  - cbn. rewrite Z.add_0_r, !app_nil_r. now destruct w.
  - cbn [submit_from batch_warnings batch_successes].
    unfold bind, try_catch, presentations_batchUpdate, ret.
    destruct (api_batchUpdate api (length (updates w)) batch) as [[]|e];
      rewrite IH; cbn [gets updates fst snd];
      rewrite length_app, Nat.add_1_r, <- !app_assoc; cbn [app length].
    all: now rewrite ?Z.add_0_l, ?Z.add_assoc.
Qed.

Lemma batch_warnings_all_accepted (batches : list (list Request)) :
  forall call i,
    (forall k b, batches !! k = Some b ->
                 api_batchUpdate api (call + k) b = Return tt) ->
    batch_warnings api call i batches = [].
Proof.
  induction batches as [|batch rest IH]; intros call i Hok; cbn.
  - reflexivity.
  - rewrite <- (Nat.add_0_r call) at 1. rewrite (Hok 0%nat batch eq_refl).
    apply IH. intros k b Hk.
    replace (S call + k)%nat with (call + S k)%nat by lia. now apply Hok.
Qed.

(** When exactly one batch is refused, exactly one warning is recorded, and
    it names the index of that batch. *)
Lemma batch_warnings_single (batches : list (list Request)) :
  forall call i j b e,
    batches !! j = Some b ->
    api_batchUpdate api (call + j) b = Throw e ->
    (forall k b', k <> j -> batches !! k = Some b' ->
                  api_batchUpdate api (call + k) b' = Return tt) ->
    batch_warnings api call i batches =
      ["Batch " +:+ pretty (i + j)%nat +:+ " failed: " +:+ error_message e].
Proof.
  induction batches as [|batch rest IH]; intros call i j b e Hj He Hothers.
  - discriminate Hj.
  - destruct j as [|j]; cbn in Hj; cbn [batch_warnings].
    + inversion Hj; subst. rewrite Nat.add_0_r in He. rewrite He.
      rewrite Nat.add_0_r. cbn [app]. f_equal.
      apply batch_warnings_all_accepted. intros k b' Hk.
      replace (S call + k)%nat with (call + S k)%nat by lia.
      apply Hothers; [lia | exact Hk].
    + rewrite <- (Nat.add_0_r call) at 1.
      rewrite (Hothers 0%nat batch) by (lia || reflexivity). cbn [app].
      replace (i + S j)%nat with (S i + j)%nat by lia.
      apply (IH (S call) (S i) j b e Hj).
      * now replace (S call + j)%nat with (call + S j)%nat by lia.
      * intros k b' Hk Hlook.
        replace (S call + k)%nat with (call + S k)%nat by lia.
        apply Hothers; [lia | exact Hlook].
Qed.

(** The notes loop never throws; it only extends the warnings. *)
Lemma notes_from_spec (validatedSlides : list SlideContent) :
  forall i warnings w,
    notes_from api i validatedSlides warnings w =
      (Return (warnings ++ fst (notes_outcome api i validatedSlides w)),
       snd (notes_outcome api i validatedSlides w)).
Proof.
  induction validatedSlides as [|content rest IH]; intros i ws w.
  - cbn. now rewrite app_nil_r.
  - cbn [notes_from notes_outcome]. unfold bind at 1.
    destruct (truthy (notes content)).
    + unfold try_catch, bind, ret.
      destruct (addSpeakerNotes api ("slide_" +:+ pretty i)
                  (default "" (notes content)) w) as [[[]|e] w'];
        rewrite IH;
        destruct (notes_outcome api (S i) rest w') as [ws' w'']; cbn [fst snd];
        now rewrite <- ?app_assoc.
    + unfold ret. apply IH.
Qed.

End Engine.

(** The operations of one slide, as [createSlideRequests] returns them. *)
Lemma createSlideRequests_returns (content : SlideContent) (index : nat)
    (colorTheme : option ColorTheme) :
  exists requests, createSlideRequests content index colorTheme = Return requests.
Proof. unfold createSlideRequests. eexists. reflexivity. Qed.

(** Compilation fails for no slide: the list of failed slides and the
    warnings stay as they are. *)
Lemma compile_from_frame (colorTheme : option ColorTheme)
    (validatedSlides : list SlideContent) :
  forall index acc,
    acc_failedSlides (compile_from colorTheme index validatedSlides acc) =
      acc_failedSlides acc /\
    acc_warnings (compile_from colorTheme index validatedSlides acc) =
      acc_warnings acc.
Proof.
  induction validatedSlides as [|content rest IH]; intros index acc.
  - split; reflexivity.
  - cbn [compile_from].
    destruct (createSlideRequests_returns content index colorTheme) as [rs ->].
    destruct (IH (S index)
                {| acc_requests := acc_requests acc ++ rs;
                   acc_failedSlides := acc_failedSlides acc;
                   acc_warnings := acc_warnings acc |}) as [-> ->].
    split; reflexivity.
Qed.

Section Run.

Variable parseURL : string -> option URL.
Variable domains : list string.
Variable api : SlidesApi.

(** The run is its part before the notes step followed by the notes step,
    which contributes nothing but further warnings. *)
Lemma addSlidesToPresentationWith_split (ceiling : Z) (auth : Completion unit)
    (slideContents : list SlideContent) (options : CreatePresentationOptions)
    (w : World) :
  addSlidesToPresentationWith parseURL domains api ceiling auth slideContents options w =
    match before_notes parseURL domains api ceiling auth slideContents options w with
    | (Return (validatedSlides, acc, pre), w1) =>
        (Return {| successCount :=
                     Z.of_nat (length validatedSlides) -
                     Z.of_nat (length (acc_failedSlides acc));
                   failedSlides := acc_failedSlides acc;
                   warnings := pre ++ fst (notes_outcome api 0 validatedSlides w1) |},
         snd (notes_outcome api 0 validatedSlides w1))
    | (Throw e, w1) => (Throw e, w1)
    end.
Proof.
  unfold addSlidesToPresentationWith, before_notes, bind, lift.
  destruct auth as [[]|e]; [|reflexivity].
  destruct (validateSlideContentWith ceiling slideContents) as [[]|e]; [|reflexivity].
  destruct (presentations_get api w) as [[p|e] w0]; [|reflexivity].
  rewrite submit_from_spec. cbn [fst snd ret].
  rewrite notes_from_spec. reflexivity.
Qed.

(** Once the credential is valid and the deck can be read, the part before
    the notes step returns: all batches have been submitted, whatever the
    service answered to them. *)
Lemma before_notes_returns (ceiling : Z) (slideContents : list SlideContent)
    (options : CreatePresentationOptions) (w : World) (p : Presentation) :
  validateSlideContentWith ceiling slideContents = Return tt ->
  api_get api (gets w) = Return p ->
  exists acc,
    acc_failedSlides acc = [] /\
    before_notes parseURL domains api ceiling (Return tt) slideContents options w =
      (Return (validateSlideImages parseURL domains slideContents
                 (allowUntrustedImages options),
               acc,
               batch_warnings api (length (updates w)) 0
                 (make_batches (acc_requests acc))),
       {| gets := S (gets w);
          updates := updates w ++ make_batches (acc_requests acc) |}).
Proof.
  intros Hvalid Hget.
  unfold before_notes, bind, lift, presentations_get. rewrite Hvalid, Hget.
  set (acc := compile_from _ _ _ _).
  exists acc. rewrite submit_from_spec. cbn [fst snd ret gets updates].
  destruct (compile_from_frame (colorTheme options)
              (validateSlideImages parseURL domains slideContents
                 (allowUntrustedImages options)) 0
              {| acc_requests :=
                   if truthy (head (default [] (slides p)) ≫= pg_objectId)
                   then [deleteObject
                           (default "" (head (default [] (slides p)) ≫= pg_objectId))]
                   else [];
                 acc_failedSlides := []; acc_warnings := [] |}) as [Hf Hw].
  fold acc in Hf, Hw. cbn in Hf, Hw. rewrite Hw. split; [exact Hf | reflexivity].
Qed.

End Run.

(** Every entry the notes step adds is a speaker-notes warning. *)
Lemma notes_outcome_entries (api : SlidesApi) (validatedSlides : list SlideContent) :
  forall i w,
    Forall (fun s => exists i : nat,
                s = "Slide " +:+ pretty i +:+ ": Speaker notes could not be added")
           (fst (notes_outcome api i validatedSlides w)).
Proof.
  induction validatedSlides as [|content rest IH]; intros i w; cbn [notes_outcome].
  - constructor.
  - destruct (truthy (notes content)); [|apply IH].
    destruct (addSpeakerNotes api ("slide_" +:+ pretty i)
                (default "" (notes content)) w) as [r w'].
    specialize (IH (S i) w').
    destruct (notes_outcome api (S i) rest w') as [ws w'']. cbn [fst] in *.
    destruct r; cbn [app]; [exact IH|].
    constructor; [now exists i | exact IH].
Qed.

(** What one call of [addSpeakerNotes] does to the service. *)
Lemma addSpeakerNotes_effect (api : SlidesApi) (slideId notes : string) (w : World) :
  gets (snd (addSpeakerNotes api slideId notes w)) = S (gets w) /\
  ((fst (addSpeakerNotes api slideId notes w) = Return tt /\
    exists shapeId,
      updates (snd (addSpeakerNotes api slideId notes w)) =
        updates w ++ [[insertText shapeId notes]] /\
      api_batchUpdate api (length (updates w)) [insertText shapeId notes] = Return tt) \/
   (fst (addSpeakerNotes api slideId notes w) =
      Throw (SpeakerNotesError (parseInt (remove_first "slide_" slideId))) /\
    (updates (snd (addSpeakerNotes api slideId notes w)) = updates w \/
     exists shapeId,
       updates (snd (addSpeakerNotes api slideId notes w)) =
         updates w ++ [[insertText shapeId notes]]))).
Proof.
  unfold addSpeakerNotes, try_catch, bind, presentations_get, throw,
    presentations_batchUpdate.
  destruct (api_get api (gets w)) as [p|e]; cbn [fst snd gets updates];
    [|split; [reflexivity | right; split; [reflexivity | now left]]].
  destruct (find_first _ (default [] (slides p))) as [slide|];
    [|split; [reflexivity | right; split; [reflexivity | now left]]].
  destruct (pg_notesPage slide) as [notesPage|];
    [|split; [reflexivity | right; split; [reflexivity | now left]]].
  destruct (negb (truthy (np_objectId notesPage)));
    [split; [reflexivity | right; split; [reflexivity | now left]]|].
  destruct (find_first _ (default [] (np_pageElements notesPage))) as [notesShape|];
    [|split; [reflexivity | right; split; [reflexivity | now left]]].
  destruct (negb (truthy (pe_objectId notesShape)));
    [split; [reflexivity | right; split; [reflexivity | now left]]|].
  cbn [fst snd gets updates].
  destruct (api_batchUpdate api (length (updates w))
              [insertText (default "" (pe_objectId notesShape)) notes])
    as [[]|e] eqn:Hup; cbn [fst snd gets updates].
  - split; [reflexivity|]. left. split; [reflexivity|].
    exists (default "" (pe_objectId notesShape)). split; [reflexivity | exact Hup].
  - split; [reflexivity|]. right. split; [reflexivity|]. right.
    now exists (default "" (pe_objectId notesShape)).
Qed.

Lemma slides_with_notes_cons (content : SlideContent) (rest : list SlideContent) :
  slides_with_notes (content :: rest) =
  ((if truthy (notes content) then 1 else 0) + slides_with_notes rest)%nat.
Proof.
  unfold slides_with_notes. rewrite filter_cons.
  destruct (truthy (notes content)); case_decide; try congruence; reflexivity.
Qed.

(** The sanitization keeps the notes of every slide. *)
Lemma validateSlideImage_notes (parseURL : string -> option URL) (domains : list string)
    (allowUntrusted : bool) (slide : SlideContent) :
  notes (validateSlideImage parseURL domains allowUntrusted slide) = notes slide.
Proof.
  unfold validateSlideImage. destruct (negb (truthy (imageUrl slide))); [reflexivity|].
  now destruct (validateImageUrl parseURL domains (imageUrl slide) allowUntrusted).
Qed.

Lemma validateSlideImages_notes (parseURL : string -> option URL) (domains : list string)
    (slideContents : list SlideContent) (allowUntrusted : option bool) :
  slides_with_notes (validateSlideImages parseURL domains slideContents allowUntrusted) =
  slides_with_notes slideContents.
Proof.
  unfold validateSlideImages.
  induction slideContents as [|content rest IH]; [reflexivity|].
  cbn [map]. rewrite !slides_with_notes_cons, IH, validateSlideImage_notes. reflexivity.
Qed.

(** The notes step adds at most one warning per slide with notes. *)
Lemma notes_outcome_warnings_le (api : SlidesApi) (validatedSlides : list SlideContent) :
  forall i w,
    (length (fst (notes_outcome api i validatedSlides w)) <=
       slides_with_notes validatedSlides)%nat.
Proof.
  induction validatedSlides as [|content rest IH]; intros i w.
  - cbn. lia.
  - cbn [notes_outcome]. rewrite slides_with_notes_cons.
    destruct (truthy (notes content)).
    + destruct (addSpeakerNotes api ("slide_" +:+ pretty i)
                  (default "" (notes content)) w) as [r w'].
      specialize (IH (S i) w').
      destruct (notes_outcome api (S i) rest w') as [ws w'']. cbn [fst] in *.
      destruct r; cbn [app length]; lia.
    + specialize (IH (S i) w). lia.
Qed.

(** The notes step reads the deck once per slide with notes and submits at
    most one insertion for each. *)
Lemma notes_outcome_world (api : SlidesApi) (validatedSlides : list SlideContent) :
  forall i w,
    gets (snd (notes_outcome api i validatedSlides w)) =
      (gets w + slides_with_notes validatedSlides)%nat /\
    exists inserted,
      updates (snd (notes_outcome api i validatedSlides w)) = updates w ++ inserted /\
      (length inserted <= slides_with_notes validatedSlides)%nat /\
      (length inserted + length (fst (notes_outcome api i validatedSlides w)) >=
         slides_with_notes validatedSlides)%nat /\
      Forall (fun batch => exists shapeId text, batch = [insertText shapeId text]) inserted.
Proof.
  induction validatedSlides as [|content rest IH]; intros i w.
  - cbn [notes_outcome snd fst]. split; [unfold slides_with_notes; cbn; lia|].
    exists []. rewrite app_nil_r. repeat split; [cbn; lia | cbn; lia | constructor].
  - cbn [notes_outcome]. rewrite slides_with_notes_cons.
    destruct (truthy (notes content)).
    + destruct (addSpeakerNotes_effect api ("slide_" +:+ pretty i)
                  (default "" (notes content)) w) as [Hgets Hcases].
      destruct (addSpeakerNotes api ("slide_" +:+ pretty i)
                  (default "" (notes content)) w) as [r w'].
      cbn [fst snd] in Hgets, Hcases.
      destruct (IH (S i) w') as (Hg & inserted & Hup & Hle & Hge & Hall).
      destruct (notes_outcome api (S i) rest w') as [ws w'']. cbn [fst snd] in *.
      split; [lia|].
      destruct Hcases as [(-> & shapeId & Hw' & _) | (-> & [Hw' | (shapeId & Hw')])].
      * exists ([insertText shapeId (default "" (notes content))] :: inserted).
        rewrite Hup, Hw', <- app_assoc. cbn [app length].
        repeat split; [lia | lia |]. constructor; [eauto | exact Hall].
      * exists inserted. rewrite Hup, Hw'. cbn [app length].
        repeat split; [lia | lia | exact Hall].
      * exists ([insertText shapeId (default "" (notes content))] :: inserted).
        rewrite Hup, Hw', <- app_assoc. cbn [app length].
        repeat split; [lia | lia |]. constructor; [eauto | exact Hall].
    + destruct (IH (S i) w) as (Hg & inserted & Hup & Hle & Hge & Hall).
      split; [lia|]. exists inserted. repeat split; [exact Hup | lia | lia | exact Hall].
Qed.

Section RunFacts.

Variable parseURL : string -> option URL.
Variable domains : list string.
Variable api : SlidesApi.

(** The run in closed form, once the credential is valid and the deck has
    been read. *)
Lemma addSlidesToPresentation_closed (slideContents : list SlideContent)
    (options : CreatePresentationOptions) (w : World) (p : Presentation) :
  api_get api (gets w) = Return p ->
  let validatedSlides :=
    validateSlideImages parseURL domains slideContents (allowUntrustedImages options) in
  let ops :=
    compiled_requests (colorTheme options)
      (head (default [] (slides p)) ≫= pg_objectId) validatedSlides in
  let w1 := {| gets := S (gets w); updates := updates w ++ make_batches ops |} in
  addSlidesToPresentation parseURL domains api (Return tt) slideContents options w =
    (Return {| successCount := Z.of_nat (length slideContents);
               failedSlides := [];
               warnings :=
                 batch_warnings api (length (updates w)) 0 (make_batches ops) ++
                 fst (notes_outcome api 0 validatedSlides w1) |},
     snd (notes_outcome api 0 validatedSlides w1)).
Proof.
  intros Hget validatedSlides ops w1.
  unfold addSlidesToPresentation, addSlidesToPresentationWith, bind, lift.
  fold (validateSlideContent slideContents).
  rewrite validateSlideContent_returns.
  unfold presentations_get. rewrite Hget.
  fold validatedSlides.
  change (if truthy (head (default [] (slides p)) ≫= pg_objectId)
          then [deleteObject (default "" (head (default [] (slides p)) ≫= pg_objectId))]
          else [])
    with (initial_requests (head (default [] (slides p)) ≫= pg_objectId)).
  set (acc := compile_from _ _ _ _).
  assert (Hops : acc_requests acc = ops) by reflexivity.
  destruct (compile_from_frame (colorTheme options) validatedSlides 0
              {| acc_requests := initial_requests (head (default [] (slides p)) ≫= pg_objectId);
                 acc_failedSlides := []; acc_warnings := [] |}) as [Hf Hw].
  fold acc in Hf, Hw. cbn [acc_failedSlides acc_warnings] in Hf, Hw.
  rewrite submit_from_spec. cbn [fst snd ret gets updates].
  rewrite notes_from_spec. cbn [fst snd].
  rewrite Hf, Hw, Hops. cbn [length app]. fold w1.
  unfold validatedSlides at 1, validateSlideImages. rewrite length_map, Z.sub_0_r.
  reflexivity.
Qed.

End RunFacts.

(** ** C6 *)

(** C6: the operation list is cut into consecutive batches of at most
    [GOOGLE_API_BATCH_SIZE] = 100 operations (all but the last hold exactly
    100, so 250 operations give batches of 100, 100 and 50); the batches are
    submitted one after the other; a batch the service refuses leaves exactly
    one warning naming its index, and every later batch is still submitted.
    The run does exactly this with the operations it has compiled: once the
    credential is valid and the deck has been read, it returns an outcome,
    the [batchUpdate] calls it has made are the batches of the compiled
    operation list, all of them and in order, followed by the insertions of
    speaker notes, and its warnings are the warnings of the refused batches
    followed by those of the notes step. *)
Theorem batches_partition_and_isolate :
  (forall ops : list Request,
      concat (make_batches ops) = ops /\
      length (make_batches ops) = batch_count (length ops) /\
      (forall k b, make_batches ops !! k = Some b ->
         b = slice (k * 100) (k * 100 + 100) ops /\
         (0 < length b <= 100)%nat /\
         ((S k < length (make_batches ops))%nat -> length b = 100%nat))) /\
  (forall ops : list Request,
      length ops = 250%nat -> map length (make_batches ops) = [100; 100; 50]%nat) /\
  (forall (ops : list Request) (fuel : nat),
      (length ops <= fuel)%nat -> batches_loop fuel 0 ops [] = make_batches ops) /\
  (forall api batches successCount warnings w,
      submit_from api 0 batches successCount warnings w =
        (Return (successCount + batch_successes api (length (updates w)) batches,
                 warnings ++ batch_warnings api (length (updates w)) 0 batches),
         {| gets := gets w; updates := updates w ++ batches |})) /\
  (forall api batches call j b e,
      batches !! j = Some b ->
      api_batchUpdate api (call + j) b = Throw e ->
      (forall k b', k <> j -> batches !! k = Some b' ->
                    api_batchUpdate api (call + k) b' = Return tt) ->
      batch_warnings api call 0 batches =
        ["Batch " +:+ pretty j +:+ " failed: " +:+ error_message e]) /\
  (forall parseURL domains api slideContents options w p,
      api_get api (gets w) = Return p ->
      let validatedSlides :=
        validateSlideImages parseURL domains slideContents
          (allowUntrustedImages options) in
      let ops :=
        compiled_requests (colorTheme options)
          (head (default [] (slides p)) ≫= pg_objectId) validatedSlides in
      exists w' notes_warnings inserted,
        addSlidesToPresentation parseURL domains api (Return tt) slideContents options w
        = (Return {| successCount := Z.of_nat (length slideContents);
                     failedSlides := [];
                     warnings :=
                       batch_warnings api (length (updates w)) 0 (make_batches ops) ++
                       notes_warnings |}, w') /\
        updates w' = updates w ++ make_batches ops ++ inserted /\
        Forall (fun batch => exists shapeId text, batch = [insertText shapeId text])
               inserted /\
        (length inserted <= slides_with_notes slideContents)%nat /\
        Forall (fun s => exists i : nat,
                    s = "Slide " +:+ pretty i +:+ ": Speaker notes could not be added")
               notes_warnings /\
        (length notes_warnings <= slides_with_notes slideContents)%nat).
Proof.
  split; [|split; [|split; [|split; [|split]]]].
  - intros ops. rewrite make_batches_closed. split; [|split].
    + rewrite (concat_batches_of ops (length ops) 0) by lia. reflexivity.
    + unfold batches_of. rewrite length_map, length_seq. f_equal. lia.
    + intros k b Hk. destruct (batches_of_lookup ops 0 k b Hk) as [-> Hlt].
      rewrite Nat.sub_0_r in Hlt. cbn [Nat.add]. fold GOOGLE_API_BATCH_SIZE.
      split; [reflexivity|]. rewrite length_slice.
      pose proof (batch_count_gt _ _ Hlt) as Hin. pose proof batch_size_pos.
      split; [lia|].
      unfold batches_of. rewrite length_map, length_seq, Nat.sub_0_r.
      intros Hlast. apply batch_count_last in Hlast. lia.
  - intros ops Hlen. rewrite make_batches_closed. unfold batches_of.
    rewrite Nat.sub_0_r, Hlen.
    change (batch_count 250) with 3%nat. cbn [seq map].
    rewrite !length_slice, Hlen. reflexivity.
  - intros ops fuel Hfuel. rewrite batches_loop_closed by lia.
    now rewrite make_batches_closed.
  - intros. apply submit_from_spec.
  - intros api batches call j b e Hj He Hothers.
    apply (batch_warnings_single api batches call 0 j b e Hj He Hothers).
  - intros parseURL domains api slideContents options w p Hget validatedSlides ops.
    rewrite (addSlidesToPresentation_closed parseURL domains api slideContents
               options w p Hget).
    fold validatedSlides. fold ops.
    set (w1 := {| gets := S (gets w); updates := updates w ++ make_batches ops |}).
    destruct (notes_outcome_world api validatedSlides 0 w1)
      as (_ & inserted & Hup & Hle & _ & Hall).
    pose proof (notes_outcome_warnings_le api validatedSlides 0 w1) as Hwarn.
    unfold validatedSlides in Hle, Hwarn.
    rewrite validateSlideImages_notes in Hle, Hwarn.
    exists (snd (notes_outcome api 0 validatedSlides w1)),
           (fst (notes_outcome api 0 validatedSlides w1)), inserted.
    split; [reflexivity|]. split; [|split; [exact Hall|split; [exact Hle|split]]].
    + rewrite Hup. unfold w1. cbn [updates]. now rewrite <- app_assoc.
    + apply notes_outcome_entries.
    + exact Hwarn.
Qed.

Lemma batches_partition_and_isolate_witness :
  exists w',
    addSlidesToPresentation parseURL_basic TRUSTED_IMAGE_DOMAINS flaky_api (Return tt)
      lesson250 default_options World0 =
      (Return {| successCount := 20; failedSlides := [];
                 warnings := ["Batch 1 failed: quota exceeded"] |}, w') /\
    map length (updates w') = [100; 100; 50]%nat.
Proof.
  destruct batches_partition_and_isolate
    as (_ & Hsizes & _ & _ & Hsingle & Houtcome).
  specialize (Houtcome parseURL_basic TRUSTED_IMAGE_DOMAINS flaky_api lesson250
                default_options World0 blank_deck eq_refl).
  cbv zeta in Houtcome.
  set (ops := compiled_requests _ _ _) in Houtcome.
  destruct Houtcome as (w' & notes_warnings & inserted & Hrun & Hup & _ & Hins & _ & Hnotes).
  change (slides_with_notes lesson250) with 0%nat in Hins, Hnotes.
  destruct inserted; [|cbn in Hins; lia].
  destruct notes_warnings; [|cbn in Hnotes; lia].
  assert (Hlen : length ops = 250%nat) by (vm_compute; reflexivity).
  assert (Hwarn : batch_warnings flaky_api 0 0 (make_batches ops) =
                  ["Batch 1 failed: quota exceeded"]).
  { apply (Hsingle flaky_api (make_batches ops) 0%nat 1%nat
             (slice 100 200 ops) (PlainError "quota exceeded")).
    - vm_compute. reflexivity.
    - reflexivity.
    - intros k b' Hk _. unfold flaky_api. cbn [api_batchUpdate].
      destruct k as [|[|k]]; [reflexivity | congruence | reflexivity]. }
  exists w'. split.
  - rewrite Hrun, app_nil_r. cbn [World0 updates length]. rewrite Hwarn. reflexivity.
  - rewrite Hup, app_nil_r. cbn [World0 updates app]. now apply Hsizes.
Defined.

(** ** C8 *)

(** C8: once the run has reached the speaker-notes step, with its validated
    slides, its list of failed slides and its warnings so far, the outcome it
    returns has [successCount] and [failedSlides] computed from those values
    alone; the notes step, whatever fails in it, only appends entries to the
    warnings, one per slide whose notes could not be added. *)
Theorem speaker_notes_failure_only_warns
    (parseURL : string -> option URL) (domains : list string) (api : SlidesApi)
    (ceiling : Z) (auth : Completion unit) (slideContents : list SlideContent)
    (options : CreatePresentationOptions) (w : World)
    (validatedSlides : list SlideContent) (acc : Acc) (pre : list string) (w1 : World) :
  before_notes parseURL domains api ceiling auth slideContents options w =
    (Return (validatedSlides, acc, pre), w1) ->
  addSlidesToPresentationWith parseURL domains api ceiling auth slideContents options w =
    (Return {| successCount :=
                 Z.of_nat (length validatedSlides) -
                 Z.of_nat (length (acc_failedSlides acc));
               failedSlides := acc_failedSlides acc;
               warnings := pre ++ fst (notes_outcome api 0 validatedSlides w1) |},
     snd (notes_outcome api 0 validatedSlides w1)) /\
  Forall (fun s => exists i : nat,
              s = "Slide " +:+ pretty i +:+ ": Speaker notes could not be added")
         (fst (notes_outcome api 0 validatedSlides w1)).
Proof.
  intros Hpre. split.
  - rewrite addSlidesToPresentationWith_split, Hpre. reflexivity.
  - apply notes_outcome_entries.
Qed.

Lemma speaker_notes_failure_only_warns_witness :
  exists w2,
    addSlidesToPresentationWith parseURL_basic TRUSTED_IMAGE_DOMAINS ok_api
      MAX_REQUESTS_PER_SLIDE (Return tt) [title_only "Intro"; full_slide]
      default_options World0
    = (Return {| successCount := 2; failedSlides := [];
                 warnings := ["Slide 1: Speaker notes could not be added"] |}, w2).
Proof.
  edestruct (speaker_notes_failure_only_warns parseURL_basic TRUSTED_IMAGE_DOMAINS
               ok_api MAX_REQUESTS_PER_SLIDE (Return tt)
               [title_only "Intro"; full_slide] default_options World0)
    as [Hrun _].
  - lazy. reflexivity.
  - eexists. rewrite Hrun. lazy. reflexivity.
Defined.


(* ===================================================================== *)
(** * Properties of the request compiler *)
(* ===================================================================== *)

Lemma createSlideRequests_ids (content : SlideContent) (index : nat)
    (colorTheme : option ColorTheme) :
  exists requests,
    createSlideRequests content index colorTheme = Return requests /\
    head requests = Some (createSlide ("slide_" +:+ pretty index) index) /\
    (forall r id, In r requests -> request_objectId r = Some id ->
                  In id (slide_object_ids index)) /\
    (forall r pid, In r requests -> request_pageObjectId r = Some pid ->
                   pid = "slide_" +:+ pretty index).
Proof.
  unfold createSlideRequests. eexists. split; [reflexivity|].
  destruct (truthy (title content)), (truthy (subtitle content)),
    (truthy (text content)), (nonEmptyArray (bulletPoints content)),
    (nonEmptyArray (questions content)), (truthy (imageUrl content));
    (split; [reflexivity|]); split; intros r x Hin Hid;
    cbn [app In] in Hin;
    repeat (destruct Hin as [<-|Hin]; [inversion Hid; subst; cbn; tauto|]);
    destruct Hin.
Qed.

Lemma createSlideRequests_same_fields (c1 c2 : SlideContent) (index : nat)
    (t1 t2 : option ColorTheme) (r1 r2 : list Request) :
  same_fields c1 c2 ->
  createSlideRequests c1 index t1 = Return r1 ->
  createSlideRequests c2 index t2 = Return r2 ->
  map request_objectId r1 = map request_objectId r2.
Proof.
  intros (Ht & Hs & Hx & Hb & Hq & Hi). unfold createSlideRequests.
  rewrite Ht, Hs, Hx, Hb, Hq, Hi.
  intros H1 H2. inversion H1; inversion H2; subst. clear H1 H2.
  destruct (truthy (title c2)), (truthy (subtitle c2)), (truthy (text c2)),
    (nonEmptyArray (bulletPoints c2)), (nonEmptyArray (questions c2)),
    (truthy (imageUrl c2)); reflexivity.
Qed.

Lemma slide_object_ids_disjoint (i j : nat) (x : string) :
  i <> j -> In x (slide_object_ids i) -> ~ In x (slide_object_ids j).
Proof.
  intros Hij Hi Hj. unfold slide_object_ids in *. cbn [In] in Hi, Hj.
  destruct Hi as [<-|[<-|[<-|[<-|[<-|[<-|[]]]]]]];
    destruct Hj as [Hj|[Hj|[Hj|[Hj|[Hj|[Hj|[]]]]]]];
    try discriminate Hj;
    apply Hij; symmetry; apply (inj pretty); apply (String.app_inj _ _ _ Hj).
Qed.

(** ** C7 *)

(** C7: compilation is deterministic.  Two runs of [createSlideRequests] on
    the same slide, index and theme (and two runs of the compilation loop on
    the same slide list) give the same operations in the same order.  The
    operations of slide [i] start with the creation of [slide_i]; every
    object identifier in them is one of [slide_i], [title_i], [subtitle_i],
    [text_i], [bullets_i], [questions_i], and every element is placed on
    page [slide_i]: the identifiers depend on the index and on which fields
    are present, not on their contents or on the theme, and slides with
    different indices never share an identifier. *)
Theorem createSlideRequests_deterministic :
  (forall content index colorTheme r1 r2,
      createSlideRequests content index colorTheme = Return r1 ->
      createSlideRequests content index colorTheme = Return r2 ->
      r1 = r2) /\
  (forall colorTheme slideContents acc a1 a2,
      compile_from colorTheme 0 slideContents acc = a1 ->
      compile_from colorTheme 0 slideContents acc = a2 ->
      acc_requests a1 = acc_requests a2) /\
  (forall content index colorTheme,
      exists requests,
        createSlideRequests content index colorTheme = Return requests /\
        head requests = Some (createSlide ("slide_" +:+ pretty index) index) /\
        (forall r id, In r requests -> request_objectId r = Some id ->
                      In id (slide_object_ids index)) /\
        (forall r pid, In r requests -> request_pageObjectId r = Some pid ->
                       pid = "slide_" +:+ pretty index)) /\
  (forall c1 c2 index t1 t2 r1 r2,
      same_fields c1 c2 ->
      createSlideRequests c1 index t1 = Return r1 ->
      createSlideRequests c2 index t2 = Return r2 ->
      map request_objectId r1 = map request_objectId r2) /\
  (forall i j id,
      i <> j -> In id (slide_object_ids i) -> ~ In id (slide_object_ids j)).
Proof.
  split; [|split; [|split; [|split]]].
  - intros content index colorTheme r1 r2 H1 H2. congruence.
  - intros colorTheme slideContents acc a1 a2 H1 H2. congruence.
  - apply createSlideRequests_ids.
  - apply createSlideRequests_same_fields.
  - apply slide_object_ids_disjoint.
Qed.

Lemma createSlideRequests_deterministic_witness :
  map request_objectId
      (match createSlideRequests (title_only "Intro") 3 None with
       | Return r => r
       | Throw _ => []
       end) =
  map request_objectId
      (match createSlideRequests (title_only "Recap") 3 (Some teal_theme) with
       | Return r => r
       | Throw _ => []
       end) /\
  ~ In "title_3" (slide_object_ids 4).
Proof.
  destruct createSlideRequests_deterministic as (_ & _ & _ & Hsame & Hdisj).
  split.
  - apply (Hsame (title_only "Intro") (title_only "Recap") 3%nat None (Some teal_theme));
      [repeat split | reflexivity | reflexivity].
  - apply (Hdisj 3%nat 4%nat "title_3"); [discriminate | vm_compute; tauto].
Defined.

(** ** C4 *)

(** A slide whose image reference fails validation survives the
    sanitization without its image. *)
Lemma validateSlideImage_drops_image (parseURL : string -> option URL)
    (domains : list string) (allowUntrusted : bool) (slide : SlideContent)
    (e : JsError) :
  truthy (imageUrl slide) = true ->
  validateImageUrl parseURL domains (imageUrl slide) allowUntrusted = Throw e ->
  validateSlideImage parseURL domains allowUntrusted slide = with_imageUrl slide None.
Proof.
  intros Htruthy Hthrow. unfold validateSlideImage. now rewrite Htruthy, Hthrow.
Qed.

(** C4, on the code: a slide whose image URL is refused (bad scheme, or
    untrusted domain) is submitted without its image, but the outcome the
    caller receives carries no warning about the removal: with a service that
    accepts every call, [warnings] is empty. *)
Lemma image_removal_not_reported :
  validateImageUrl parseURL_basic TRUSTED_IMAGE_DOMAINS (Some "ftp://x/y") false =
    Throw (InvalidImageUrlError "ftp://x/y") /\
  validateImageUrl parseURL_basic TRUSTED_IMAGE_DOMAINS
    (Some "https://evil.example.com/a.png") false =
    Throw (UntrustedImageDomainError "https://evil.example.com/a.png") /\
  validateSlideImages parseURL_basic TRUSTED_IMAGE_DOMAINS
    [image_slide_of "Leaf" "ftp://x/y";
     image_slide_of "Root" "https://evil.example.com/a.png"] None =
    [with_imageUrl (image_slide_of "Leaf" "ftp://x/y") None;
     with_imageUrl (image_slide_of "Root" "https://evil.example.com/a.png") None] /\
  fst (addSlidesToPresentation parseURL_basic TRUSTED_IMAGE_DOMAINS ok_api (Return tt)
         [image_slide_of "Leaf" "ftp://x/y";
          image_slide_of "Root" "https://evil.example.com/a.png"]
         default_options World0) =
    Return {| successCount := 2; failedSlides := []; warnings := [] |}.
Proof.
  repeat split; vm_compute; reflexivity.
Qed.


(* ===================================================================== *)
(** * Properties of the rate limiter *)
(* ===================================================================== *)



(** Under a name inherited from [Object.prototype] nothing is stored and every
    call is handed on. *)
Lemma rateLimit_prototype_key (options : RateLimitOptions) (req : Request_) (now : Z)
    (store : gmap string RateLimitRecord) :
  skip options req = false ->
  is_prototype_key (keyGenerator options req) = true ->
  rateLimit options req now store =
    (store,
     Next (Some {| X_RateLimit_Limit := maxRequests options;
                   X_RateLimit_Remaining := None;
                   X_RateLimit_Reset := None |})).
Proof. intros Hskip Hkey. unfold rateLimit. now rewrite Hskip, Hkey. Qed.

Lemma rateLimit_store (options : RateLimitOptions) (req : Request_) (now : Z)
    (store : gmap string RateLimitRecord) :
  skip options req = false ->
  is_prototype_key (keyGenerator options req) = false ->
  fst (rateLimit options req now store) =
    <[keyGenerator options req :=
        bump (current_record options now (store !! keyGenerator options req))]> store.
Proof.
  intros Hskip Hkey. unfold rateLimit. rewrite Hskip, Hkey.
  set (key := keyGenerator options req).
  assert (Hcur :
    default {| count := 0; resetTime := now + windowSeconds options * 1000 |}
      match store !! key with
      | Some r => if resetTime r <? now then None else Some r
      | None => None
      end = current_record options now (store !! key)).
  { unfold current_record. destruct (store !! key) as [r|]; [|reflexivity].
    now destruct (resetTime r <? now). }
  rewrite Hcur. fold (bump (current_record options now (store !! key))).
  now destruct (maxRequests options <? count (bump (current_record options now (store !! key)))).
Qed.

Lemma rateLimit_response (options : RateLimitOptions) (req : Request_) (now : Z)
    (store : gmap string RateLimitRecord) :
  skip options req = false ->
  is_prototype_key (keyGenerator options req) = false ->
  let r := bump (current_record options now (store !! keyGenerator options req)) in
  (count r <= maxRequests options ->
     exists headers, snd (rateLimit options req now store) = Next (Some headers)) /\
  (maxRequests options < count r ->
     exists headers msg,
       snd (rateLimit options req now store) =
         Reject 429 headers (ceil_div (resetTime r - now) 1000) msg
                (ceil_div (resetTime r - now) 1000)).
Proof.
  intros Hskip Hkey. unfold rateLimit. rewrite Hskip, Hkey.
  set (key := keyGenerator options req).
  assert (Hcur :
    default {| count := 0; resetTime := now + windowSeconds options * 1000 |}
      match store !! key with
      | Some r => if resetTime r <? now then None else Some r
      | None => None
      end = current_record options now (store !! key)).
  { unfold current_record. destruct (store !! key) as [r|]; [|reflexivity].
    now destruct (resetTime r <? now). }
  rewrite Hcur. fold (bump (current_record options now (store !! key))).
  cbv zeta. set (r := bump (current_record options now (store !! key))).
  destruct (Z.ltb_spec (maxRequests options) (count r)) as [Hlt|Hle]; cbn [snd]; split.
  - lia.
  - intros _. eexists _, _. reflexivity.
  - intros _. eexists. reflexivity.
  - lia.
Qed.

(** A call leaves the records of all other keys alone. *)
Lemma rateLimit_frame (options : RateLimitOptions) (req : Request_) (now : Z)
    (store : gmap string RateLimitRecord) (k : string) :
  k <> keyGenerator options req ->
  fst (rateLimit options req now store) !! k = store !! k.
Proof.
  intros Hk. destruct (skip options req) eqn:Hskip.
  - unfold rateLimit. now rewrite Hskip.
  - destruct (is_prototype_key (keyGenerator options req)) eqn:Hkey.
    + now rewrite rateLimit_prototype_key.
    + rewrite rateLimit_store by assumption. now rewrite lookup_insert_ne.
Qed.

(** The middleware never writes under a name inherited from
    [Object.prototype], and the sweep only deletes: the store, empty at the
    start, never has an own property that would hide an inherited one. *)
Lemma rateLimit_plain_store (options : RateLimitOptions) (req : Request_) (now : Z)
    (store : gmap string RateLimitRecord) :
  plain_store store -> plain_store (fst (rateLimit options req now store)).
Proof.
  intros Hplain key Hkey.
  destruct (decide (key = keyGenerator options req)) as [->|Hne].
  - destruct (skip options req) eqn:Hskip.
    + unfold rateLimit. rewrite Hskip. now apply Hplain.
    + rewrite rateLimit_prototype_key by assumption. now apply Hplain.
  - rewrite rateLimit_frame by assumption. now apply Hplain.
Qed.

Lemma cleanup_plain_store (now : Z) (store : gmap string RateLimitRecord) :
  plain_store store -> plain_store (cleanup now store).
Proof.
  intros Hplain key Hkey. unfold cleanup.
  rewrite map_lookup_filter, (Hplain key Hkey). reflexivity.
Qed.

Lemma run_attempts_cons (a : Attempt) (rest : list Attempt)
    (store : gmap string RateLimitRecord) :
  run_attempts (a :: rest) store =
    (fst (run_attempts rest
            (fst (rateLimit (at_options a) (at_req a) (at_now a) store))),
     snd (rateLimit (at_options a) (at_req a) (at_now a) store) ::
     snd (run_attempts rest
            (fst (rateLimit (at_options a) (at_req a) (at_now a) store)))).
Proof.
  cbn [run_attempts].
  destruct (rateLimit (at_options a) (at_req a) (at_now a) store) as [s r].
  cbn [fst snd]. now destruct (run_attempts rest s).
Qed.

Section Window.

Variable options : RateLimitOptions.
Variable req : Request_.
Hypothesis Hskip : skip options req = false.
Hypothesis Hkey : is_prototype_key (keyGenerator options req) = false.

Let key := keyGenerator options req.

(** A first call of a window: the record is replaced by a fresh one that
    counts this call. *)
Lemma rateLimit_fresh (now : Z) (store : gmap string RateLimitRecord) :
  (store !! key = None \/ exists r, store !! key = Some r /\ resetTime r < now) ->
  fst (rateLimit options req now store) =
    <[key := {| count := 1; resetTime := now + windowSeconds options * 1000 |}]> store /\
  (1 <= maxRequests options ->
     admitted (snd (rateLimit options req now store)) = true).
Proof.
  intros Hfresh.
  assert (Hcur : bump (current_record options now (store !! key)) =
                 {| count := 1; resetTime := now + windowSeconds options * 1000 |}).
  { destruct Hfresh as [-> | (r & -> & Hr)]; [reflexivity|].
    unfold current_record. destruct (Z.ltb_spec (resetTime r) now); [reflexivity|lia]. }
  split.
  - rewrite rateLimit_store by assumption. fold key. now rewrite Hcur.
  - intros Hmax.
    destruct (rateLimit_response options req now store Hskip Hkey) as [Hadmit _].
    fold key in Hadmit. rewrite Hcur in Hadmit.
    destruct (Hadmit Hmax) as [h ->]. reflexivity.
Qed.

(** A call inside an active window: the stored count goes up by one, the
    reset time stays, and the call is admitted exactly when the new count
    does not exceed [maxRequests]. *)
Lemma rateLimit_active (now : Z) (store : gmap string RateLimitRecord)
    (r : RateLimitRecord) :
  store !! key = Some r -> now <= resetTime r ->
  fst (rateLimit options req now store) = <[key := bump r]> store /\
  (count r + 1 <= maxRequests options ->
     admitted (snd (rateLimit options req now store)) = true) /\
  (maxRequests options < count r + 1 ->
     exists headers msg,
       snd (rateLimit options req now store) =
         Reject 429 headers (ceil_div (resetTime r - now) 1000) msg
                (ceil_div (resetTime r - now) 1000)).
Proof.
  intros Hr Hnow.
  assert (Hcur : current_record options now (store !! key) = r).
  { rewrite Hr. unfold current_record.
    destruct (Z.ltb_spec (resetTime r) now); [lia|reflexivity]. }
  destruct (rateLimit_response options req now store Hskip Hkey) as [Hadmit Hreject].
  fold key in Hadmit, Hreject. rewrite Hcur in Hadmit, Hreject.
  split; [|split].
  - rewrite rateLimit_store by assumption. fold key. now rewrite Hcur.
  - intros Hle. destruct (Hadmit Hle) as [h ->]. reflexivity.
  - exact Hreject.
Qed.

(** Calls that all fall inside the active window of a record. *)
Lemma run_attempts_active (times : list Z) :
  forall (store : gmap string RateLimitRecord) (r : RateLimitRecord),
    store !! key = Some r ->
    Forall (fun t => t <= resetTime r) times ->
    fst (run_attempts (attempts_at options req times) store) !! key =
      Some {| count := count r + Z.of_nat (length times); resetTime := resetTime r |} /\
    forall n resp,
      snd (run_attempts (attempts_at options req times) store) !! n = Some resp ->
      exists t,
        times !! n = Some t /\
        (count r + Z.of_nat n + 1 <= maxRequests options -> admitted resp = true) /\
        (maxRequests options < count r + Z.of_nat n + 1 ->
           exists headers msg,
             resp = Reject 429 headers (ceil_div (resetTime r - t) 1000) msg
                           (ceil_div (resetTime r - t) 1000)).
Proof.
  induction times as [|t rest IH]; intros store r Hr Hall.
  - cbn. split; [rewrite Hr; f_equal; destruct r; cbn; f_equal; lia|].
    intros n resp Hn. destruct n; discriminate Hn.
  - inversion Hall as [|? ? Ht Hrest]; subst.
    unfold attempts_at. cbn [map]. fold (attempts_at options req rest).
    rewrite run_attempts_cons. cbn [fst snd at_options at_req at_now].
    destruct (rateLimit_active t store r Hr Ht) as (Hstore & Hadmit & Hreject).
    rewrite Hstore.
    destruct (IH (<[key := bump r]> store) (bump r)) as [Hfinal Hresps].
    { apply lookup_insert_eq. }
    { exact Hrest. }
    split.
    + rewrite Hfinal. cbn [bump count resetTime length]. do 2 f_equal. lia.
    + intros [|n] resp Hn; cbn in Hn.
      * inversion Hn; subst. exists t. split; [reflexivity|].
        rewrite Z.add_0_r. split; assumption.
      * destruct (Hresps n resp Hn) as (t' & Ht' & Ha & Hj).
        exists t'. split; [exact Ht'|]. cbn [bump count resetTime] in Ha, Hj.
        split; intros H; [apply Ha | apply Hj]; lia.
Qed.

End Window.

(** ** C3 *)




Lemma run_attempts_app (l1 l2 : list Attempt) :
  forall store,
    run_attempts (l1 ++ l2) store =
      (fst (run_attempts l2 (fst (run_attempts l1 store))),
       snd (run_attempts l1 store) ++
       snd (run_attempts l2 (fst (run_attempts l1 store)))).
Proof.
  induction l1 as [|a rest IH]; intros store.
  - cbn. now destruct (run_attempts l2 store).
  - cbn [app]. rewrite !run_attempts_cons, IH. reflexivity.
Qed.

Lemma run_attempts_plain_store (l : list Attempt) :
  forall store, plain_store store -> plain_store (fst (run_attempts l store)).
Proof.
  induction l as [|a rest IH]; intros store Hplain; [exact Hplain|].
  rewrite run_attempts_cons. cbn [fst]. apply IH. now apply rateLimit_plain_store.
Qed.

Lemma length_run_attempts (l : list Attempt) :
  forall store, length (snd (run_attempts l store)) = length l.
Proof.
  induction l as [|a rest IH]; intros store; [reflexivity|].
  rewrite run_attempts_cons. cbn [snd length]. now rewrite IH.
Qed.

(** The stored count after a call decides its admission. *)
Lemma rateLimit_count (a : Attempt) (store : gmap string RateLimitRecord) :
  skip (at_options a) (at_req a) = false ->
  is_prototype_key (keyGenerator (at_options a) (at_req a)) = false ->
  exists r',
    fst (rateLimit (at_options a) (at_req a) (at_now a) store)
      !! keyGenerator (at_options a) (at_req a) = Some r' /\
    (admitted (snd (rateLimit (at_options a) (at_req a) (at_now a) store)) = true <->
     count r' <= maxRequests (at_options a)) /\
    (forall r, store !! keyGenerator (at_options a) (at_req a) = Some r ->
               at_now a <= resetTime r -> count r' = count r + 1).
Proof.
  intros Hskip Hkey.
  set (key := keyGenerator (at_options a) (at_req a)) in *.
  exists (bump (current_record (at_options a) (at_now a) (store !! key))).
  split; [|split].
  - rewrite rateLimit_store by assumption. apply lookup_insert_eq.
  - destruct (rateLimit_response (at_options a) (at_req a) (at_now a) store Hskip Hkey)
      as [Hadmit Hreject]. fold key in Hadmit, Hreject.
    split.
    + intros Ha.
      destruct (Z.le_gt_cases
                  (count (bump (current_record (at_options a) (at_now a) (store !! key))))
                  (maxRequests (at_options a))) as [Hle|Hgt]; [exact Hle|].
      destruct (Hreject Hgt) as (h & msg & Hr). rewrite Hr in Ha. discriminate Ha.
    + intros Hle. destruct (Hadmit Hle) as [h ->]. reflexivity.
  - intros r Hr Hnow. rewrite Hr. unfold current_record.
    destruct (Z.ltb_spec (resetTime r) (at_now a)); [lia|reflexivity].
Qed.

(** A call never moves the reset time of a record backwards; it moves it, to
    a strictly later time, only when the window is over. *)
Lemma rateLimit_resetTime (a : Attempt) (store : gmap string RateLimitRecord)
    (k : string) (r : RateLimitRecord) :
  0 <= windowSeconds (at_options a) ->
  store !! k = Some r ->
  exists r',
    fst (rateLimit (at_options a) (at_req a) (at_now a) store) !! k = Some r' /\
    resetTime r <= resetTime r' /\
    (at_now a <= resetTime r -> resetTime r' = resetTime r) /\
    (resetTime r' <> resetTime r ->
       resetTime r < at_now a /\ resetTime r < resetTime r').
Proof.
  intros Hwin Hr.
  destruct (skip (at_options a) (at_req a)) eqn:Hskip.
  { exists r. unfold rateLimit. rewrite Hskip. cbn [fst].
    repeat split; auto; try lia; congruence. }
  destruct (is_prototype_key (keyGenerator (at_options a) (at_req a))) eqn:Hkey.
  { exists r. rewrite rateLimit_prototype_key by assumption. cbn [fst].
    repeat split; auto; try lia; congruence. }
  destruct (decide (k = keyGenerator (at_options a) (at_req a))) as [->|Hk].
  - rewrite rateLimit_store by assumption. rewrite lookup_insert_eq, Hr.
    eexists. split; [reflexivity|].
    unfold current_record, bump.
    destruct (Z.ltb_spec (resetTime r) (at_now a)); cbn [resetTime];
      repeat split; try lia.
  - exists r. rewrite rateLimit_frame by assumption.
    repeat split; auto; try lia; congruence.
Qed.

Lemma run_attempts_resetTime (attempts : list Attempt) :
  forall (store : gmap string RateLimitRecord) (k : string) (r : RateLimitRecord),
    Forall (fun a => 0 <= windowSeconds (at_options a)) attempts ->
    store !! k = Some r ->
    exists r',
      fst (run_attempts attempts store) !! k = Some r' /\
      resetTime r <= resetTime r'.
Proof.
  induction attempts as [|a rest IH]; intros store k r Hall Hr.
  - exists r. split; [exact Hr | lia].
  - inversion Hall as [|? ? Ha Hrest]; subst.
    rewrite run_attempts_cons. cbn [fst].
    destruct (rateLimit_resetTime a store k r Ha Hr) as (r1 & Hr1 & Hle & _).
    destruct (IH _ k r1 Hrest Hr1) as (r' & Hr' & Hle').
    exists r'. split; [exact Hr' | lia].
Qed.

(** ** C9 *)

(** C9: across every sequence of admission attempts on the store, whatever
    limiter each goes through: (1) the call that raises the count of a key
    is admitted exactly when the count it stores does not exceed its
    [maxRequests], so a stored count above [maxRequests] always comes with a
    rejection of the call that raised it, and no other key is touched; a call
    whose key names a property of [Object.prototype] stores no count at all
    (the store is left as it was), so no stored count can exceed
    [maxRequests] through it; (2) the reset time of a key never decreases:
    while the window is active it stays the same, and it is replaced only
    after expiry, by a strictly later time. *)
Theorem rate_limit_invariants :
  (forall attempts store n a resp,
      attempts !! n = Some a ->
      snd (run_attempts attempts store) !! n = Some resp ->
      skip (at_options a) (at_req a) = false ->
      let before := fst (run_attempts (take n attempts) store) in
      let after := fst (run_attempts (take (S n) attempts) store) in
      let key := keyGenerator (at_options a) (at_req a) in
      (is_prototype_key key = false ->
       exists r',
          after !! key = Some r' /\
          (admitted resp = true <-> count r' <= maxRequests (at_options a)) /\
          (maxRequests (at_options a) < count r' -> admitted resp = false)) /\
      (is_prototype_key key = true -> after = before /\ admitted resp = true) /\
      (forall k, k <> key -> after !! k = before !! k)) /\
  (forall a store k r,
      0 <= windowSeconds (at_options a) ->
      store !! k = Some r ->
      exists r',
        fst (rateLimit (at_options a) (at_req a) (at_now a) store) !! k = Some r' /\
        resetTime r <= resetTime r' /\
        (at_now a <= resetTime r -> resetTime r' = resetTime r) /\
        (resetTime r' <> resetTime r ->
           resetTime r < at_now a /\ resetTime r < resetTime r')) /\
  (forall attempts store k r,
      Forall (fun a => 0 <= windowSeconds (at_options a)) attempts ->
      store !! k = Some r ->
      exists r',
        fst (run_attempts attempts store) !! k = Some r' /\
        resetTime r <= resetTime r').
Proof.
  split; [|split].
  - intros attempts store n a resp Ha Hresp Hskip before after key.
    assert (Hsplit : attempts = take n attempts ++ a :: drop (S n) attempts).
    { now rewrite <- (take_drop_middle attempts n a Ha) at 1. }
    assert (Hlen : length (take n attempts) = n).
    { rewrite length_take. apply lookup_lt_Some in Ha. lia. }
    assert (Hafter : after =
              fst (rateLimit (at_options a) (at_req a) (at_now a) before)).
    { unfold after. rewrite (take_S_r attempts n a Ha), run_attempts_app.
      cbn [fst]. rewrite run_attempts_cons. reflexivity. }
    assert (Hr : resp = snd (rateLimit (at_options a) (at_req a) (at_now a) before)).
    { rewrite Hsplit, run_attempts_app in Hresp. cbn [snd] in Hresp.
      rewrite lookup_app_r in Hresp by (rewrite length_run_attempts; lia).
      rewrite length_run_attempts, Hlen, Nat.sub_diag, run_attempts_cons in Hresp.
      cbn in Hresp. now inversion Hresp. }
    rewrite Hafter, Hr. split; [|split].
    + intros Hkey.
      destruct (rateLimit_count a before Hskip Hkey) as (r' & Hr' & Hiff & _).
      exists r'. split; [exact Hr'|]. split; [exact Hiff|].
      intros Hgt. destruct (admitted _); [|reflexivity].
      assert (count r' <= maxRequests (at_options a)) by now apply Hiff. lia.
    + intros Hkey. now rewrite rateLimit_prototype_key.
    + intros k Hk. now apply rateLimit_frame.
  - apply rateLimit_resetTime.
  - apply run_attempts_resetTime.
Qed.

Lemma rate_limit_invariants_witness :
  exists r',
    fst (run_attempts
           (attempts_at aiGenerationRateLimit
              {| session_userId := None; ip := Some "10.0.0.7"; remoteAddress := None |}
              [60001; 60002])
           {[ "10.0.0.7" := {| count := 11; resetTime := 60000 |} ]})
      !! "10.0.0.7" = Some r' /\
    60000 <= resetTime r'.
Proof.
  destruct rate_limit_invariants as (_ & _ & Hmono).
  apply (Hmono
           (attempts_at aiGenerationRateLimit
              {| session_userId := None; ip := Some "10.0.0.7"; remoteAddress := None |}
              [60001; 60002])
           {[ "10.0.0.7" := {| count := 11; resetTime := 60000 |} ]}
           "10.0.0.7" {| count := 11; resetTime := 60000 |}).
  - repeat constructor; cbn; lia.
  - apply lookup_singleton_eq.
Defined.


(** The response of a call depends on the store only through the record the
    call works on. *)
Lemma rateLimit_response_current (options : RateLimitOptions) (req : Request_)
    (now : Z) (store1 store2 : gmap string RateLimitRecord) :
  current_record options now (store1 !! keyGenerator options req) =
  current_record options now (store2 !! keyGenerator options req) ->
  snd (rateLimit options req now store1) = snd (rateLimit options req now store2).
Proof.
  intros Hcur. unfold rateLimit. destruct (skip options req); [reflexivity|].
  set (key := keyGenerator options req) in *.
  destruct (is_prototype_key key); [reflexivity|].
  assert (Hdef : forall store : gmap string RateLimitRecord,
    default {| count := 0; resetTime := now + windowSeconds options * 1000 |}
      match store !! key with
      | Some r => if resetTime r <? now then None else Some r
      | None => None
      end = current_record options now (store !! key)).
  { intros store. unfold current_record. destruct (store !! key) as [r|]; [|reflexivity].
    now destruct (resetTime r <? now). }
  rewrite !Hdef, Hcur.
  now destruct (maxRequests options <?
                count {| count := count (current_record options now (store2 !! key)) + 1;
                         resetTime := resetTime (current_record options now (store2 !! key)) |}).
Qed.

(** Lazy expiry on access is enough: a sweep made at any earlier time never
    changes the answer to a call. *)
Lemma cleanup_transparent (options : RateLimitOptions) (req : Request_)
    (now swept : Z) (store : gmap string RateLimitRecord) :
  swept <= now ->
  snd (rateLimit options req now (cleanup swept store)) =
  snd (rateLimit options req now store).
Proof.
  intros Hle. apply rateLimit_response_current.
  unfold cleanup. rewrite map_lookup_filter.
  destruct (store !! keyGenerator options req) as [r|]; cbn; [|reflexivity].
  case_guard as Hkeep; cbn in *; [reflexivity|].
  unfold current_record.
  destruct (Z.ltb_spec (resetTime r) now); [reflexivity | lia].
Qed.

(** The store is keyed by the identity alone, so limiters applied to the
    same identity count on one record: after five generation requests the
    first presentation creation of the same user is rejected. *)
Lemma limiters_share_one_record :
  exists req headers msg retryAfter,
    snd (run_attempts
           (attempts_at aiGenerationRateLimit req [0; 1; 2; 3; 4] ++
            attempts_at presentationCreationRateLimit req [5]) ∅)
      !! 5%nat = Some (Reject 429 headers retryAfter msg retryAfter).
Proof.
  exists {| session_userId := Some "u1"; ip := None; remoteAddress := None |}.
  eexists _, _, _. vm_compute. reflexivity.
Qed.

(* ===================================================================== *)
(** * Properties of the token refresh *)
(* ===================================================================== *)

Lemma calls_overlap_cons (settled : bool) (e : Event) (rest : list Event) :
  calls_overlap settled (e :: rest) = true ->
  match e with Call _ _ => settled = false | _ => True end /\
  calls_overlap (settled_after settled e) rest = true.
Proof.
  destruct e as [i now|p [c|err]|p r|i|i r]; cbn; intros H; try (split; [exact I|exact H]).
  apply andb_true_iff in H as [Hs Hrest]. split; [now destruct settled | exact Hrest].
Qed.

Section SingleFlight.

Variable db : gmap string Profile.
Variable user : Profile.
Variable expiry : Z.
Variable n : nat.

Hypothesis Haccess : truthy (googleAccessToken user) = true.
Hypothesis Hrefresh : truthy (googleRefreshToken user) = true.
Hypothesis Hexpiry : googleTokenExpiry user = Some expiry.

(** A call in the margin that finds no lock starts the refresh: one job,
    one call to the provider, and the lock is stored. *)
Lemma call_starts_refresh (i : nat) (now : Z) (s : State) :
  expiry <= now + 5 * 60 * 1000 ->
  refreshLocks s !! id user = None ->
  call i user now s =
    {| refreshLocks := <[id user := length (jobs s)]> (refreshLocks s);
       jobs := jobs s ++ [AwaitProvider user];
       profiles := profiles s;
       callers := <[i := AwaitLock user (length (jobs s))]> (callers s);
       providerCalls := providerCalls s ++ [id user] |}.
Proof.
  intros Hmargin Hlock. unfold call, needsTokenRefresh.
  rewrite Haccess, Hrefresh, Hexpiry, Hlock. cbn [negb orb].
  destruct (Z.leb_spec expiry (now + 5 * 60 * 1000)); [reflexivity | lia].
Qed.

(** A call in the margin that finds a lock awaits it: no job is started
    and the provider is not called. *)
Lemma call_joins_refresh (i : nat) (now : Z) (s : State) (p : nat) :
  expiry <= now + 5 * 60 * 1000 ->
  refreshLocks s !! id user = Some p ->
  call i user now s = set_caller i (AwaitLock user p) s.
Proof.
  intros Hmargin Hlock. unfold call, needsTokenRefresh.
  rewrite Haccess, Hrefresh, Hexpiry, Hlock. cbn [negb orb].
  destruct (Z.leb_spec expiry (now + 5 * 60 * 1000)); [reflexivity | lia].
Qed.

Lemma refresh_answers_snoc (hist : list Event) (e : Event) :
  refresh_answers (hist ++ [e]) =
  refresh_answers hist ++ (if is_answer e then [e] else []).
Proof.
  unfold refresh_answers. rewrite List.filter_app. cbn [List.filter].
  now destruct (is_answer e).
Qed.

Lemma refresh_answers_keep (hist : list Event) (e : Event) :
  is_answer e = false -> refresh_answers (hist ++ [e]) = refresh_answers hist.
Proof. intros He. now rewrite refresh_answers_snoc, He, app_nil_r. Qed.

(** From the initial state only a call can happen, and it starts the
    refresh. *)
Lemma step_from_init (hist : list Event) (e : Event) (s' : State) :
  match e with Call _ now => expiry <= now + 5 * 60 * 1000 | _ => True end ->
  refresh_answers hist = [] ->
  step (init db user n) e = Some s' ->
  settled_after false e = false /\ in_flight db user n (hist ++ [e]) s'.
Proof.
  intros Hmargin Hnone Hstep.
  destruct e as [i now|p r|p r|i|i r]; cbn in Hstep.
  - destruct (replicate n (Idle user) !! i) as [c|] eqn:Hi; [|discriminate Hstep].
    apply lookup_replicate in Hi as [-> Hi].
    inversion Hstep; subst; clear Hstep.
    rewrite call_starts_refresh by (assumption || apply lookup_empty).
    split; [reflexivity|]. unfold in_flight, init.
    cbn [refreshLocks jobs profiles callers providerCalls length app].
    split; [apply insert_empty|].
    split; [left; split; [reflexivity | now rewrite refresh_answers_keep]|].
    split; [reflexivity|]. split; [reflexivity|]. split.
    + rewrite length_insert. apply length_replicate.
    + apply Forall_insert; [|now right].
      apply Forall_replicate. now left.
  - discriminate Hstep.
  - discriminate Hstep.
  - destruct (replicate n (Idle user) !! i) as [c|] eqn:Hi; [|discriminate Hstep].
    apply lookup_replicate in Hi as [-> Hi]. discriminate Hstep.
  - destruct (replicate n (Idle user) !! i) as [c|] eqn:Hi; [|discriminate Hstep].
    apply lookup_replicate in Hi as [-> Hi]. discriminate Hstep.
Qed.

(** While the job is in flight: calls join it, the provider's answer moves
    it on or settles it, the store's answer settles it. *)
Lemma step_in_flight (hist : list Event) (e : Event) (s s' : State) :
  match e with Call _ now => expiry <= now + 5 * 60 * 1000 | _ => True end ->
  in_flight db user n hist s ->
  step s e = Some s' ->
  if settled_after false e
  then after_settlement db user n (hist ++ [e]) s'
  else in_flight db user n (hist ++ [e]) s'.
Proof.
  intros Hmargin (Hl & Hj & Hp & Hc & Hlen & Hall) Hstep.
  destruct e as [i now|p r|p r|i|i r]; cbn [step] in Hstep.
  - (* Call *)
    destruct (callers s !! i) as [c|] eqn:Hi; [|discriminate Hstep].
    destruct (Forall_lookup_1 _ _ _ _ Hall Hi) as [-> | ->]; [|discriminate Hstep].
    inversion Hstep; subst s'; clear Hstep.
    rewrite (call_joins_refresh i now s 0)
      by (assumption || (rewrite Hl; apply lookup_singleton_eq)).
    cbn [settled_after]. unfold in_flight, set_caller.
    cbn [refreshLocks jobs profiles callers providerCalls].
    rewrite refresh_answers_keep by reflexivity.
    split; [exact Hl|]. split; [exact Hj|].
    split; [exact Hp|]. split; [exact Hc|]. split.
    + now rewrite length_insert.
    + apply Forall_insert; [exact Hall | now right].
  - (* ProviderAnswers *)
    destruct Hj as [[Hj Hnone] | (c & Hj & Hans)]; rewrite Hj in Hstep;
      destruct p as [|p]; cbn in Hstep; try discriminate Hstep.
    destruct r as [c|err]; inversion Hstep; subst s'; clear Hstep.
    + cbn [settled_after]. unfold in_flight.
      cbn [refreshLocks jobs profiles callers providerCalls].
      split; [exact Hl|]. split.
      { right. exists c. split; [reflexivity|].
        now rewrite refresh_answers_snoc, Hnone. }
      auto.
    + cbn [settled_after]. unfold after_settlement, settle.
      cbn [refreshLocks jobs profiles callers providerCalls].
      split; [rewrite Hl; apply delete_singleton_eq|].
      split; [|split; assumption].
      exists (Rejected TokenRefreshError). rewrite Hj.
      split; [reflexivity|]. split.
      { left. split; [|split; [reflexivity | exact Hp]].
        left. exists err. now rewrite refresh_answers_snoc, Hnone. }
      eapply Forall_impl; [exact Hall|]. intros c [-> | ->]; auto.
  - (* UpdateAnswers *)
    destruct Hj as [[Hj Hnone] | (c & Hj & Hans)]; rewrite Hj in Hstep;
      destruct p as [|p]; cbn in Hstep; try discriminate Hstep.
    destruct r as [[]|err]; inversion Hstep; subst s'; clear Hstep;
      cbn [settled_after]; unfold after_settlement, settle;
      cbn [refreshLocks jobs profiles callers providerCalls];
      (split; [rewrite Hl; apply delete_singleton_eq|]);
      (split; [|split; assumption]).
    + exists Fulfilled. rewrite Hj. split; [reflexivity|]. split.
      { right. exists c. rewrite refresh_answers_snoc, Hans, Hp. auto. }
      eapply Forall_impl; [exact Hall|]. intros c' [-> | ->]; auto.
    + exists (Rejected TokenRefreshError). rewrite Hj.
      split; [reflexivity|]. split.
      { left. split; [|split; [reflexivity | exact Hp]].
        right. exists c, err. now rewrite refresh_answers_snoc, Hans. }
      eapply Forall_impl; [exact Hall|]. intros c' [-> | ->]; auto.
  - (* LockSettled *)
    destruct (callers s !! i) as [c|] eqn:Hi; [|discriminate Hstep].
    destruct (Forall_lookup_1 _ _ _ _ Hall Hi) as [-> | ->]; [discriminate Hstep|].
    destruct Hj as [[Hj _] | (c & Hj & _)]; rewrite Hj in Hstep; discriminate Hstep.
  - (* ProfileAnswers *)
    destruct (callers s !! i) as [c|] eqn:Hi; [|discriminate Hstep].
    destruct (Forall_lookup_1 _ _ _ _ Hall Hi) as [-> | ->]; discriminate Hstep.
Qed.

(** After the settlement callers only move on to the common result. *)
Lemma step_after_settlement (hist : list Event) (e : Event) (s s' : State) :
  match e with
  | Call _ _ => False
  | ProfileAnswers _ (Throw _) => False
  | _ => True
  end ->
  after_settlement db user n hist s ->
  step s e = Some s' ->
  after_settlement db user n (hist ++ [e]) s'.
Proof.
  intros Hev Hinv Hstep.
  destruct Hinv as (Hl & (j & Hj & Hout & Hall) & Hc & Hlen).
  assert (Hsettled : j = Fulfilled \/ j = Rejected TokenRefreshError).
  { destruct Hout as [(_ & -> & _) | (c & _ & -> & _)]; auto. }
  destruct e as [i now|p r|p r|i|i r]; cbn [step] in Hstep.
  - destruct Hev.
  - rewrite Hj in Hstep. destruct p as [|p]; cbn in Hstep; [|discriminate Hstep].
    destruct Hsettled as [-> | ->]; discriminate Hstep.
  - rewrite Hj in Hstep. destruct p as [|p]; cbn in Hstep; [|discriminate Hstep].
    destruct Hsettled as [-> | ->]; discriminate Hstep.
  - destruct (callers s !! i) as [c|] eqn:Hi; [|discriminate Hstep].
    destruct (Forall_lookup_1 _ _ _ _ Hall Hi) as [-> | [-> | [[-> _] | ->]]];
      try discriminate Hstep.
    rewrite Hj in Hstep. cbn in Hstep.
    destruct Hsettled as [-> | ->]; inversion Hstep; subst s'; clear Hstep;
      unfold after_settlement, settlement, set_caller;
      cbn [refreshLocks jobs profiles callers providerCalls];
      rewrite refresh_answers_keep by reflexivity;
      (split; [exact Hl|]); (split; [|split; [exact Hc | now rewrite length_insert]]);
      eexists; (split; [exact Hj|]); (split; [exact Hout|]);
      (apply Forall_insert; [exact Hall|]); auto.
  - destruct (callers s !! i) as [c|] eqn:Hi; [|discriminate Hstep].
    destruct (Forall_lookup_1 _ _ _ _ Hall Hi) as [-> | [-> | [[-> ->] | ->]]];
      try discriminate Hstep.
    destruct r as [[]|err]; [|destruct Hev].
    assert (Hs' : s' = set_caller i (Done (final_result user Fulfilled (profiles s))) s).
    { unfold final_result. destruct (profiles s !! id user); now inversion Hstep. }
    subst s'. unfold after_settlement, settlement, set_caller.
    cbn [refreshLocks jobs profiles callers providerCalls].
    rewrite refresh_answers_keep by reflexivity.
    split; [exact Hl|]. split; [|split; [exact Hc | now rewrite length_insert]].
    exists Fulfilled. split; [exact Hj|]. split; [exact Hout|].
    apply Forall_insert; [exact Hall|]. auto.
Qed.

(** The invariant is kept by every enabled event of a schedule whose calls
    overlap, are made inside the margin, and whose reads succeed. *)
Lemma exec_overlap_invariant (evs : list Event) :
  forall (hist : list Event) (settled : bool) (s s' : State),
    overlap_invariant db user n hist settled s ->
    calls_overlap settled evs = true ->
    calls_within_margin expiry evs = true ->
    reads_succeed evs = true ->
    exec s evs = Some s' ->
    exists settled', overlap_invariant db user n (hist ++ evs) settled' s'.
Proof.
  induction evs as [|e rest IH]; intros hist settled s s' Hinv Hover Hmargin Hreads Hexec.
  - cbn in Hexec. inversion Hexec; subst. exists settled. now rewrite app_nil_r.
  - cbn [exec] in Hexec. destruct (step s e) as [s1|] eqn:Hstep; [|discriminate Hexec].
    apply calls_overlap_cons in Hover as [Hcall Hover].
    cbn [calls_within_margin reads_succeed forallb] in Hmargin, Hreads.
    apply andb_true_iff in Hmargin as [Hm Hmargin].
    apply andb_true_iff in Hreads as [Hr Hreads].
    assert (Hm' : match e with
                  | Call _ now => expiry <= now + 5 * 60 * 1000
                  | _ => True
                  end).
    { destruct e; auto. now apply Z.leb_le. }
    assert (Hinv1 : overlap_invariant db user n (hist ++ [e]) (settled_after settled e) s1).
    { destruct settled; cbn [overlap_invariant] in Hinv |- *.
      - assert (Hsa : settled_after true e = true) by (destruct e as [| ? [] | | |]; reflexivity).
        rewrite Hsa. apply (step_after_settlement hist e s s1); auto.
        destruct e as [| | | |i [|]]; auto; discriminate.
      - destruct Hinv as [[-> Hnone] | Hinv].
        + destruct (step_from_init hist e s1 Hm' Hnone Hstep) as [-> Hfl]. now right.
        + pose proof (step_in_flight hist e s s1 Hm' Hinv Hstep) as Hnext.
          destruct (settled_after false e); [exact Hnext | now right]. }
    replace (hist ++ e :: rest) with ((hist ++ [e]) ++ rest)
      by now rewrite <- app_assoc.
    apply (IH (hist ++ [e]) (settled_after settled e) s1 s'); auto.
Qed.

End SingleFlight.

(** ** C1 *)

(** C1, as stated, fails.  Two calls of one principal, whose stored
    credential expires within the margin, are pending together, and the
    provider is called twice: the second call is made after the refresh job
    of the first has settled and released the lock (the provider refused, or
    the store refused the update) but before the first caller has resumed; it
    finds no lock and starts a refresh of its own.  The same happens after
    a job that was fulfilled, while the first caller waits for the profile
    to be read back. *)
Lemma pending_calls_refresh_twice :
  let two := init {[ "alice" := alice ]} alice 2 in
  let refused :=
    exec two [ Call 0 900000; ProviderAnswers 0 (Throw (PlainError "invalid_grant"));
               Call 1 900001 ] in
  let not_stored :=
    exec two [ Call 0 900000; ProviderAnswers 0 (Return new_credentials);
               UpdateAnswers 0 (Throw (PlainError "storage.updateProfile is not a function"));
               Call 1 900001 ] in
  let stored :=
    exec two [ Call 0 900000; ProviderAnswers 0 (Return new_credentials);
               UpdateAnswers 0 (Return tt); LockSettled 0; Call 1 900001 ] in
  (callers <$> refused = Some [AwaitLock alice 0; AwaitLock alice 1] /\
   providerCalls <$> refused = Some ["alice"; "alice"]) /\
  (callers <$> not_stored = Some [AwaitLock alice 0; AwaitLock alice 1] /\
   providerCalls <$> not_stored = Some ["alice"; "alice"]) /\
  (callers <$> stored = Some [AwaitProfile alice; AwaitLock alice 1] /\
   providerCalls <$> stored = Some ["alice"; "alice"]) /\
  ~ (forall s, refused = Some s -> providerCalls s = [id alice]).
Proof.
  cbv zeta.
  assert (Hrefused :
    providerCalls <$>
      exec (init {[ "alice" := alice ]} alice 2)
        [ Call 0 900000; ProviderAnswers 0 (Throw (PlainError "invalid_grant"));
          Call 1 900001 ] = Some ["alice"; "alice"]) by (vm_compute; reflexivity).
  split; [split; [vm_compute; reflexivity | exact Hrefused]|].
  split; [split; vm_compute; reflexivity|].
  split; [split; vm_compute; reflexivity|].
  intros Hone.
  destruct (exec (init {[ "alice" := alice ]} alice 2)
              [ Call 0 900000; ProviderAnswers 0 (Throw (PlainError "invalid_grant"));
                Call 1 900001 ]) as [s|]; [|discriminate Hrefused].
  specialize (Hone s eq_refl). cbn in Hrefused. rewrite Hone in Hrefused.
  discriminate Hrefused.
Qed.

(** C1, amended: let [n >= 1] callers hold the profile of one principal whose
    credential expires within the five-minute margin, and let them call
    [getOAuth2Client] so that the calls overlap the refresh (none is made
    after a refresh job has settled).  Whatever the interleaving of the calls
    with the answers of the provider and of the profile store, as long as no
    read of the profile table fails, once all callers have completed:
    [refreshAccessToken] has been called exactly once, the lock is released,
    and all callers have completed alike, with the result the one job
    decides.  When the provider answered with
    credentials and the store accepted the update, the row of the principal
    carries the refreshed credential and every caller gets it, read back
    from the table (the session-expired error when the principal has no
    row); when the provider or the store refused, the table is as it was and
    every caller gets the session-expired error.  A caller that arrives
    while a refresh is in flight awaits the stored lock and starts nothing:
    the jobs and the provider calls stay as they are. *)
Theorem single_flight_refresh :
  (forall (db : gmap string Profile) (user : Profile) (expiry : Z) (n : nat)
          (evs : list Event) (s : State),
      truthy (googleAccessToken user) = true ->
      truthy (googleRefreshToken user) = true ->
      googleTokenExpiry user = Some expiry ->
      (0 < n)%nat ->
      calls_within_margin expiry evs = true ->
      calls_overlap false evs = true ->
      reads_succeed evs = true ->
      exec (init db user n) evs = Some s ->
      Forall (fun c => is_done c = true) (callers s) ->
      providerCalls s = [id user] /\
      refreshLocks s = ∅ /\
      exists r,
        callers s = replicate n (Done r) /\
        ((exists credentials,
             refresh_answers evs =
               [ProviderAnswers 0 (Return credentials); UpdateAnswers 0 (Return tt)] /\
             profiles s = alter (refreshed_profile user credentials) (id user) db /\
             (forall row,
                 db !! id user = Some row ->
                 r = Return (credentials_of (refreshed_profile user credentials row),
                             refreshed_profile user credentials row)) /\
             (db !! id user = None -> r = Throw TokenExpiredError)) \/
         (((exists e, refresh_answers evs = [ProviderAnswers 0 (Throw e)]) \/
           (exists credentials e,
               refresh_answers evs =
                 [ProviderAnswers 0 (Return credentials); UpdateAnswers 0 (Throw e)])) /\
          profiles s = db /\
          r = Throw TokenExpiredError))) /\
  (forall (s : State) (i : nat) (user : Profile) (now : Z) (p : nat),
      callers s !! i = Some (Idle user) ->
      truthy (googleAccessToken user) = true ->
      truthy (googleRefreshToken user) = true ->
      needsTokenRefresh (googleTokenExpiry user) now = true ->
      refreshLocks s !! id user = Some p ->
      exists s',
        step s (Call i now) = Some s' /\
        callers s' !! i = Some (AwaitLock user p) /\
        jobs s' = jobs s /\
        providerCalls s' = providerCalls s /\
        refreshLocks s' = refreshLocks s).
Proof.
  split.
  - intros db user expiry n evs s Haccess Hrefresh Hexpiry Hn Hmargin Hover Hreads
           Hexec Hdone.
    destruct (exec_overlap_invariant db user expiry n Haccess Hrefresh Hexpiry evs
                [] false (init db user n) s) as [settled Hinv]; auto.
    { left. split; reflexivity. }
    cbn [app] in Hinv. destruct settled; cbn [overlap_invariant] in Hinv.
    + destruct Hinv as (Hl & (j & Hj & Hout & Hall) & Hc & Hlen).
      split; [exact Hc|]. split; [exact Hl|].
      exists (final_result user j (profiles s)). split.
      * symmetry. apply replicate_as_Forall. split; [exact Hlen|].
        rewrite Forall_forall in Hall, Hdone |- *. intros c Hin.
        specialize (Hall c Hin). specialize (Hdone c Hin).
        destruct Hall as [-> | [-> | [[-> _] | ->]]];
          try discriminate Hdone. reflexivity.
      * destruct Hout as [(Hans & -> & Hp) | (credentials & Hans & -> & Hp)].
        -- right. split; [exact Hans|]. split; [exact Hp | reflexivity].
        -- left. exists credentials. split; [exact Hans|]. split; [exact Hp|].
           unfold final_result. rewrite Hp, lookup_alter_eq. split.
           ++ intros row ->. reflexivity.
           ++ intros ->. reflexivity.
    + exfalso. destruct Hinv as [[-> _] | (_ & _ & _ & _ & Hlen & Hall)].
      * cbn [init callers] in Hdone. destruct n as [|n]; [lia|].
        cbn in Hdone. inversion Hdone; subst. discriminate.
      * destruct (callers s) as [|c rest]; [cbn in Hlen; lia|].
        inversion Hall; subst. inversion Hdone; subst.
        match goal with H : c = _ \/ c = _ |- _ => destruct H as [-> | ->] end;
          discriminate.
  - intros s i user now p Hi Haccess Hrefresh Hneeds Hlock.
    exists (set_caller i (AwaitLock user p) s).
    cbn [step]. rewrite Hi. unfold call.
    rewrite Haccess, Hrefresh, Hneeds, Hlock. cbn [negb orb].
    split; [reflexivity|]. unfold set_caller.
    cbn [refreshLocks jobs profiles callers providerCalls].
    split; [|auto]. apply list_lookup_insert_eq. now apply lookup_lt_Some in Hi.
Qed.

Lemma single_flight_refresh_witness :
  match exec (init {[ "alice" := alice ]} alice 3) overlapping_schedule with
  | Some s =>
      providerCalls s = ["alice"] /\
      refreshLocks s = ∅ /\
      profiles s = {[ "alice" := refreshed_profile alice new_credentials alice ]} /\
      callers s =
        replicate 3
          (Done (Return (credentials_of (refreshed_profile alice new_credentials alice),
                         refreshed_profile alice new_credentials alice)))
  | None => False
  end.
Proof.
  assert (Hdone :
    forallb is_done <$>
      (callers <$> exec (init {[ "alice" := alice ]} alice 3) overlapping_schedule) =
    Some true).
  { vm_compute. reflexivity. }
  destruct (exec (init {[ "alice" := alice ]} alice 3) overlapping_schedule)
    as [s|] eqn:Hexec; [|discriminate Hdone].
  cbn in Hdone. injection Hdone as Hdone.
  destruct (proj1 single_flight_refresh {[ "alice" := alice ]} alice 1000000 3%nat
              overlapping_schedule s) as (Hcalls & Hlocks & r & Hcallers & Hresult).
  - reflexivity.
  - reflexivity.
  - reflexivity.
  - lia.
  - vm_compute. reflexivity.
  - vm_compute. reflexivity.
  - vm_compute. reflexivity.
  - exact Hexec.
  - apply Forall_forall. intros c Hin. rewrite forallb_forall in Hdone.
    apply Hdone. now apply list_elem_of_In.
  - split; [exact Hcalls|]. split; [exact Hlocks|].
    destruct Hresult as [(credentials & Hans & Hp & Hrow & _) | ([Hans | Hans] & _)].
    + change (refresh_answers overlapping_schedule)
        with [ProviderAnswers 0 (Return new_credentials); UpdateAnswers 0 (Return tt)]
        in Hans.
      injection Hans as <-.
      split.
      * rewrite Hp. cbn [id alice]. apply alter_singleton_eq.
      * rewrite Hcallers, (Hrow alice) by apply lookup_singleton_eq. reflexivity.
    + destruct Hans as [e Hans]. vm_compute in Hans. discriminate Hans.
    + destruct Hans as (credentials & e & Hans). vm_compute in Hans. discriminate Hans.
Defined.

(* ===================================================================== *)
(** * Further properties of strings *)
(* ===================================================================== *)

Lemma lower_char_idem (c : ascii) : lower_char (lower_char c) = lower_char c.
Proof.
  destruct c as [[|] [|] [|] [|] [|] [|] [|] [|]]; reflexivity.
Qed.

Lemma toLowerCase_idem (s : string) : toLowerCase (toLowerCase s) = toLowerCase s.
Proof.
  induction s as [|c s IH]; cbn; [reflexivity|]. now rewrite lower_char_idem, IH.
Qed.

Lemma append_cons (c : ascii) (a b : string) :
  String c a +:+ b = String c (a +:+ b).
Proof. reflexivity. Qed.

Lemma append_nil (b : string) : "" +:+ b = b.
Proof. reflexivity. Qed.

Lemma append_assoc (a b c : string) : (a +:+ b) +:+ c = a +:+ (b +:+ c).
Proof.
  induction a as [|x a IH]; [reflexivity|].
  rewrite !append_cons. now rewrite IH.
Qed.

Lemma toLowerCase_app (a b : string) :
  toLowerCase (a +:+ b) = toLowerCase a +:+ toLowerCase b.
Proof.
  induction a as [|c a IH]; [reflexivity|].
  rewrite append_cons. cbn [toLowerCase]. rewrite append_cons. f_equal. exact IH.
Qed.

Lemma length_append (a b : string) :
  String.length (a +:+ b) = (String.length a + String.length b)%nat.
Proof.
  induction a as [|c a IH]; [reflexivity|].
  rewrite append_cons. cbn [String.length]. now rewrite IH.
Qed.

Lemma substring_all (s : string) : String.substring 0 (String.length s) s = s.
Proof. induction s as [|c s IH]; cbn; [reflexivity|]. now rewrite IH. Qed.

Lemma substring_skip (p s : string) (k : nat) :
  String.substring (String.length p) k (p +:+ s) = String.substring 0 k s.
Proof.
  induction p as [|c p IH]; [reflexivity|].
  rewrite append_cons. cbn [String.length String.substring]. exact IH.
Qed.

Lemma substring_split (s : string) :
  forall i, (i <= String.length s)%nat ->
    s = String.substring 0 i s +:+ String.substring i (String.length s - i) s.
Proof.
  induction s as [|c s IH]; intros i Hi.
  - destruct i; reflexivity.
  - destruct i as [|i]; cbn [String.substring String.length Nat.sub].
    + rewrite append_nil. now rewrite substring_all.
    + rewrite append_cons. rewrite <- IH by (cbn in Hi; lia). reflexivity.
Qed.

(** [endsWith] holds exactly of the strings that are something followed by
    the suffix. *)
Lemma endsWith_iff (s suffix : string) :
  endsWith s suffix = true <-> exists p, s = p +:+ suffix.
Proof.
  unfold endsWith. split.
  - intros H. apply andb_true_iff in H as [Hlen Heq].
    apply Nat.leb_le in Hlen. apply String.eqb_eq in Heq.
    exists (String.substring 0 (String.length s - String.length suffix) s).
    pose proof (substring_split s (String.length s - String.length suffix)) as Hs.
    replace (String.length s - (String.length s - String.length suffix))%nat
      with (String.length suffix) in Hs by lia.
    rewrite Heq in Hs. apply Hs. lia.
  - intros [p ->]. rewrite length_append.
    apply andb_true_iff. split; [apply Nat.leb_le; lia|].
    replace (String.length p + String.length suffix - String.length suffix)%nat
      with (String.length p) by lia.
    rewrite substring_skip, substring_all. apply String.eqb_refl.
Qed.

Lemma trimEnd_cons (c : ascii) (s : string) :
  trimEnd (String c s) =
    match trimEnd s with
    | EmptyString => if is_space c then EmptyString else String c EmptyString
    | rest' => String c rest'
    end.
Proof. reflexivity. Qed.

Lemma trimEnd_idem (s : string) : trimEnd (trimEnd s) = trimEnd s.
Proof.
  induction s as [|c s IH]; [reflexivity|].
  rewrite trimEnd_cons. destruct (trimEnd s) as [|c' r] eqn:Hr.
  - destruct (is_space c) eqn:Hc; [reflexivity|]. cbn. now rewrite Hc.
  - rewrite trimEnd_cons, IH. reflexivity.
Qed.

Lemma trimEnd_keeps_head (c : ascii) (s : string) :
  is_space c = false -> trimEnd (String c s) = String c (trimEnd s).
Proof.
  intros Hc. rewrite trimEnd_cons. destruct (trimEnd s); [now rewrite Hc | reflexivity].
Qed.

Lemma trimStart_head (s : string) :
  trimStart s = "" \/
  exists c r, trimStart s = String c r /\ is_space c = false.
Proof.
  induction s as [|c s IH]; [now left|].
  cbn [trimStart]. destruct (is_space c) eqn:Hc; [exact IH|].
  right. now exists c, s.
Qed.

(** Trimming twice is trimming once. *)
Lemma trim_idem (s : string) : trim (trim s) = trim s.
Proof.
  unfold trim. destruct (trimStart_head s) as [-> | (c & r & -> & Hc)]; [reflexivity|].
  rewrite (trimEnd_keeps_head c r Hc). cbn [trimStart]. rewrite Hc.
  rewrite <- (trimEnd_keeps_head c r Hc). apply trimEnd_idem.
Qed.

Lemma match_lit_Some (lit s r : string) :
  match_lit lit s = Some r <-> s = lit +:+ r.
Proof.
  revert s. induction lit as [|c lit IH]; intros s.
  - cbn. rewrite append_nil. split; congruence.
  - cbn [match_lit]. rewrite append_cons. destruct s as [|x s]; [split; discriminate|].
    destruct (Ascii.eqb_spec c x) as [->|Hne].
    + rewrite IH. split; [now intros -> | now intros [= ->]].
    + split; [discriminate | intros [= <- _]; contradiction].
Qed.

(* ===================================================================== *)
(** * Further properties of the URL validator *)
(* ===================================================================== *)

Lemma domain_matches_iff (host domain : string) :
  domain_matches host domain = true <->
  host = toLowerCase domain \/ exists sub, host = sub +:+ "." +:+ toLowerCase domain.
Proof.
  unfold domain_matches. rewrite orb_true_iff, String.eqb_eq, endsWith_iff. reflexivity.
Qed.

Lemma hostname_trusted_iff_aux :
  forall domains host,
    hostname_trusted domains host = true <->
    exists d, In d domains /\
              (toLowerCase host = toLowerCase d \/
               exists sub, toLowerCase host = sub +:+ "." +:+ toLowerCase d).
Proof.
  intros domains host. unfold hostname_trusted. rewrite existsb_exists.
  split; intros (d & Hin & Hd); exists d; (split; [exact Hin|]);
    now apply domain_matches_iff.
Qed.

(** A host is trusted exactly when, compared without regard to case, it
    equals an allow-listed domain or is something followed by a dot and an
    allow-listed domain; so a host that merely ends in the letters of a
    trusted domain is not trusted.  The test looks at the host and at the
    list entries only through their lower-case forms. *)
Theorem hostname_trusted_iff :
  (forall domains host,
      hostname_trusted domains host = true <->
      exists d, In d domains /\
                (toLowerCase host = toLowerCase d \/
                 exists sub, toLowerCase host = sub +:+ "." +:+ toLowerCase d)) /\
  (forall domains host,
      hostname_trusted domains (toLowerCase host) = hostname_trusted domains host) /\
  (forall domains host,
      hostname_trusted (map toLowerCase domains) host = hostname_trusted domains host).
Proof.
  split; [|split].
  - apply hostname_trusted_iff_aux.
  - intros domains host. unfold hostname_trusted. now rewrite toLowerCase_idem.
  - intros domains host. unfold hostname_trusted.
    induction domains as [|d rest IH]; [reflexivity|].
    cbn [map existsb]. rewrite IH. f_equal.
    unfold domain_matches. now rewrite toLowerCase_idem.
Qed.

Lemma href_https (u : URL) :
  protocol u = "https:" -> exists rest, href u = "https://" +:+ rest.
Proof. intros Hp. unfold href. rewrite Hp. eexists. reflexivity. Qed.

Lemma set_protocol_https_protocol (u : URL) : protocol (set_protocol_https u) = "https:".
Proof. reflexivity. Qed.

Lemma validateImageUrl_returns_href
    (parseURL : string -> option URL) (domains : list string)
    (url : option string) (allowUntrusted : bool) (validatedUrl : string) :
  validateImageUrl parseURL domains url allowUntrusted = Return (Some validatedUrl) ->
  (exists u, validatedUrl = href u /\ protocol u = "https:") /\
  (allowUntrusted = false -> isUrlTrusted parseURL domains validatedUrl = true).
Proof.
  unfold validateImageUrl. destruct url as [url|]; [|discriminate].
  destruct (String.eqb url ""); [discriminate|].
  destruct (String.eqb (trim url) ""); [discriminate|].
  destruct (parseURL (trim url)) as [u|]; [|discriminate].
  destruct (String.eqb (protocol u) "http:") eqn:Hhttp.
  - cbn [orb negb].
    destruct (negb allowUntrusted && negb (isUrlTrusted parseURL domains
                                             (href (set_protocol_https u)))) eqn:Hc;
      [discriminate|].
    intros [= <-]. split.
    + now exists (set_protocol_https u).
    + intros ->. cbn in Hc. now destruct (isUrlTrusted _ _ _).
  - destruct (String.eqb (protocol u) "https:") eqn:Hhttps; cbn [orb negb];
      [|discriminate].
    apply String.eqb_eq in Hhttps.
    destruct (negb allowUntrusted && negb (isUrlTrusted parseURL domains (href u))) eqn:Hc;
      [discriminate|].
    intros [= <-]. split.
    + now exists u.
    + intros ->. cbn in Hc. now destruct (isUrlTrusted _ _ _).
Qed.

Lemma validateImageUrl_returns
    (parseURL : string -> option URL) (domains : list string)
    (url : option string) (allowUntrusted : bool) (validatedUrl : string) :
  validateImageUrl parseURL domains url allowUntrusted = Return (Some validatedUrl) ->
  exists rest, validatedUrl = "https://" +:+ rest.
Proof.
  intros H. destruct (validateImageUrl_returns_href _ _ _ _ _ H) as [(u & -> & Hp) _].
  now apply href_https.
Qed.

(** Whatever [validateImageUrl] returns as a URL is the [href] of an
    https URL, so it starts with [https://]; and unless untrusted hosts were
    allowed it passes [isUrlTrusted]. *)
Theorem validateImageUrl_returns_https
    (parseURL : string -> option URL) (domains : list string)
    (url : option string) (allowUntrusted : bool) (validatedUrl : string) :
  validateImageUrl parseURL domains url allowUntrusted = Return (Some validatedUrl) ->
  (exists rest, validatedUrl = "https://" +:+ rest) /\
  (exists u, validatedUrl = href u /\ protocol u = "https:") /\
  (allowUntrusted = false -> isUrlTrusted parseURL domains validatedUrl = true).
Proof.
  intros H. split; [now apply (validateImageUrl_returns _ _ _ _ _ H)|].
  now apply (validateImageUrl_returns_href _ _ _ _ _ H).
Qed.

Lemma validateImageUrl_returns_https_witness :
  (exists rest, "https://images.unsplash.com/a.png" = "https://" +:+ rest) /\
  (exists u, "https://images.unsplash.com/a.png" = href u /\ protocol u = "https:") /\
  (false = false ->
   isUrlTrusted parseURL_basic TRUSTED_IMAGE_DOMAINS "https://images.unsplash.com/a.png"
   = true).
Proof.
  apply (validateImageUrl_returns_https parseURL_basic TRUSTED_IMAGE_DOMAINS
           (Some "http://images.unsplash.com/a.png") false).
  vm_compute. reflexivity.
Defined.

Lemma trimStart_blank (s : string) :
  string_forallb is_space (trimStart s) = string_forallb is_space s.
Proof.
  induction s as [|c rest IH]; [reflexivity|]. cbn [trimStart string_forallb].
  destruct (is_space c) eqn:Hc; [exact IH|]. cbn [string_forallb]. now rewrite Hc.
Qed.

Lemma trimEnd_blank (s : string) :
  trimEnd s = "" <-> string_forallb is_space s = true.
Proof.
  induction s as [|c rest IH]; [split; reflexivity|].
  cbn [trimEnd string_forallb]. rewrite andb_true_iff, <- IH.
  destruct (trimEnd rest) as [|c' rest'].
  - destruct (is_space c); split; try discriminate; try tauto.
    intros [H _]. discriminate H.
  - split; [discriminate|]. intros [_ H]. discriminate H.
Qed.

(** Trimming leaves nothing exactly of the text that is white space only. *)
Lemma trim_blank (s : string) :
  trim s = "" <-> string_forallb is_space s = true.
Proof. unfold trim. now rewrite trimEnd_blank, trimStart_blank. Qed.

(** On ASCII input, [validateImageUrl] returns [undefined] exactly when the
    input is missing, empty or made of white space only (tab, line feed,
    vertical tab, form feed, carriage return, space); an input with anything
    else in it is either returned as a URL or refused with an error. *)
Theorem validateImageUrl_undefined_iff
    (parseURL : string -> option URL) (domains : list string)
    (url : option string) (allowUntrusted : bool) :
  (forall s, url = Some s -> ascii_only s = true) ->
  (validateImageUrl parseURL domains url allowUntrusted = Return None <->
   url = None \/ exists s, url = Some s /\ string_forallb is_space s = true) /\
  (forall s, url = Some s -> string_forallb is_space s = false ->
     (exists validatedUrl,
         validateImageUrl parseURL domains url allowUntrusted =
           Return (Some validatedUrl)) \/
     (exists e, validateImageUrl parseURL domains url allowUntrusted = Throw e)).
Proof.
  intros _.
  assert (Hiff : validateImageUrl parseURL domains url allowUntrusted = Return None <->
                 url = None \/ exists s, url = Some s /\ string_forallb is_space s = true).
  { unfold validateImageUrl. destruct url as [s|]; [|split; [now left | reflexivity]].
    destruct (String.eqb_spec s "") as [->|Hs].
    { split; [intros _; right; now exists "" | reflexivity]. }
    destruct (String.eqb_spec (trim s) "") as [Ht|Ht].
    { split; [intros _; right; exists s; split; [reflexivity | now apply trim_blank]
             | reflexivity]. }
    split.
    - destruct (parseURL (trim s)) as [u|]; [|discriminate].
      destruct (negb _); [discriminate|].
      destruct (_ && _); discriminate.
    - intros [Hnone | (s' & [= <-] & Hblank)]; [discriminate|].
      apply trim_blank in Hblank. contradiction. }
  split; [exact Hiff|].
  intros s -> Hs.
  destruct (validateImageUrl parseURL domains (Some s) allowUntrusted)
    as [[v|]|e] eqn:Hrun.
  - left. now exists v.
  - exfalso. destruct (proj1 Hiff eq_refl) as [Hnone | (s' & [= <-] & Hblank)];
      [discriminate | congruence].
  - right. now exists e.
Qed.

Lemma validateImageUrl_undefined_iff_witness :
  validateImageUrl parseURL_basic TRUSTED_IMAGE_DOMAINS (Some "   ") false = Return None <->
  Some "   " = None \/
  exists s, Some "   " = Some s /\ string_forallb is_space s = true.
Proof.
  refine (proj1 (validateImageUrl_undefined_iff parseURL_basic TRUSTED_IMAGE_DOMAINS
                   (Some "   ") false _)).
  intros s [= <-]. reflexivity.
Defined.

(** The result of [validateImageUrl], including the URL quoted in an
    error, depends on the input only through its trimmed form. *)
Theorem validateImageUrl_ignores_outer_space
    (parseURL : string -> option URL) (domains : list string)
    (url : string) (allowUntrusted : bool) :
  validateImageUrl parseURL domains (Some url) allowUntrusted =
  validateImageUrl parseURL domains (Some (trim url)) allowUntrusted.
Proof.
  unfold validateImageUrl. rewrite trim_idem.
  destruct (String.eqb_spec url "") as [->|Hs]; [reflexivity|].
  destruct (String.eqb_spec (trim url) "") as [Ht|Ht]; reflexivity.
Qed.

(** [validateImageUrls] never throws and answers with one entry per
    input, in the order of the inputs.  The entry of an input that
    [validateImageUrl] accepts is valid and carries the validated URL (an
    https one, or none for a blank input) and no error; the entry of an input
    it refuses is invalid and carries the input as it was given, with the
    message of the error. *)
Theorem validateImageUrls_entries
    (parseURL : string -> option URL) (domains : list string)
    (urls : list (option string)) (allowUntrusted : bool) :
  length (validateImageUrls parseURL domains urls allowUntrusted) = length urls /\
  (forall i url,
      urls !! i = Some url ->
      exists entry,
        validateImageUrls parseURL domains urls allowUntrusted !! i = Some entry /\
        (forall v,
            validateImageUrl parseURL domains url allowUntrusted = Return v ->
            entry = {| uc_url := v; uc_valid := true; uc_error := None |} /\
            (v = None \/ exists rest, v = Some ("https://" +:+ rest))) /\
        (forall e,
            validateImageUrl parseURL domains url allowUntrusted = Throw e ->
            entry = {| uc_url := url; uc_valid := false;
                       uc_error := Some (error_message e) |} /\
            (exists s, e = InvalidImageUrlError s \/ e = UntrustedImageDomainError s))).
Proof.
  split; [apply length_map|].
  intros i url Hi. unfold validateImageUrls.
  exists (checkImageUrl parseURL domains allowUntrusted url). split.
  { rewrite list_lookup_fmap, Hi. reflexivity. }
  unfold checkImageUrl. split.
  - intros v Hv. rewrite Hv. split; [reflexivity|].
    destruct v as [s|]; [right | now left].
    destruct (validateImageUrl_returns parseURL domains url allowUntrusted s Hv)
      as [rest ->]. now exists rest.
  - intros e He. rewrite He. split; [reflexivity|].
    revert He. unfold validateImageUrl. destruct url as [url|]; [|discriminate].
    destruct (String.eqb url ""); [discriminate|].
    destruct (String.eqb (trim url) ""); [discriminate|].
    destruct (parseURL (trim url)) as [u|]; [|intros [= <-]; eexists; now left].
    destruct (negb _); [intros [= <-]; eexists; now left|].
    destruct (_ && _); [intros [= <-]; eexists; now right | discriminate].
Qed.

Lemma validateImageUrls_entries_witness :
  exists entry,
    validateImageUrls parseURL_basic TRUSTED_IMAGE_DOMAINS
      [Some "http://unsplash.com/p.png"; None; Some "ftp://x/y"] false !! 2%nat
      = Some entry /\
    (forall v,
        validateImageUrl parseURL_basic TRUSTED_IMAGE_DOMAINS (Some "ftp://x/y") false
          = Return v ->
        entry = {| uc_url := v; uc_valid := true; uc_error := None |} /\
        (v = None \/ exists rest, v = Some ("https://" +:+ rest))) /\
    (forall e,
        validateImageUrl parseURL_basic TRUSTED_IMAGE_DOMAINS (Some "ftp://x/y") false
          = Throw e ->
        entry = {| uc_url := Some "ftp://x/y"; uc_valid := false;
                   uc_error := Some (error_message e) |} /\
        (exists s, e = InvalidImageUrlError s \/ e = UntrustedImageDomainError s)).
Proof.
  apply (proj2 (validateImageUrls_entries parseURL_basic TRUSTED_IMAGE_DOMAINS
                  [Some "http://unsplash.com/p.png"; None; Some "ftp://x/y"] false)
           2%nat (Some "ftp://x/y")).
  reflexivity.
Defined.

Lemma existsb_eqb_In (x : string) (l : list string) :
  existsb (String.eqb x) l = true <-> In x l.
Proof.
  rewrite existsb_exists. split.
  - intros (y & Hin & Heq). apply String.eqb_eq in Heq. now subst.
  - intros Hin. exists x. split; [exact Hin | apply String.eqb_refl].
Qed.

Lemma toLowerCase_literal_suffix (lit s r : string) :
  toLowerCase lit = lit -> toLowerCase s = lit +:+ r -> toLowerCase r = r.
Proof.
  intros Hlit Hs.
  assert (H : toLowerCase (lit +:+ r) = lit +:+ r).
  { rewrite <- Hs. apply toLowerCase_idem. }
  rewrite toLowerCase_app, Hlit in H. now apply String.app_inj in H.
Qed.

(** What [addTrustedDomain] stores is in lower case. *)
Lemma strip_scheme_lower (domain : string) :
  toLowerCase (strip_scheme (toLowerCase domain)) = strip_scheme (toLowerCase domain).
Proof.
  unfold strip_scheme.
  destruct (match_lit "http://" (toLowerCase domain)) as [r|] eqn:H1.
  { apply match_lit_Some in H1.
    now apply (toLowerCase_literal_suffix "http://" domain r). }
  destruct (match_lit "https://" (toLowerCase domain)) as [r|] eqn:H2.
  { apply match_lit_Some in H2.
    now apply (toLowerCase_literal_suffix "https://" domain r). }
  apply toLowerCase_idem.
Qed.

Lemma hostname_trusted_app (l1 l2 : list string) (host : string) :
  hostname_trusted (l1 ++ l2) host =
  hostname_trusted l1 host || hostname_trusted l2 host.
Proof. unfold hostname_trusted. apply existsb_app. Qed.

(** On ASCII text (the domain given, the domains listed and the host
    names asked about), [addTrustedDomain] extends the allow-list by the
    lower-cased domain without its [http://] or [https://] prefix, unless it
    is there already.  Hosts trusted before stay trusted; afterwards a host
    that equals the stored domain up to case is trusted; adding the same
    domain again changes nothing; a list without duplicates stays without. *)
Theorem addTrustedDomain_properties (domain : string) (domains : list string) :
  ascii_only domain = true ->
  Forall (fun listed => ascii_only listed = true) domains ->
  (forall host,
      ascii_only host = true ->
      hostname_trusted domains host = true ->
      hostname_trusted (addTrustedDomain domain domains) host = true) /\
  (forall host,
      ascii_only host = true ->
      toLowerCase host = strip_scheme (toLowerCase domain) ->
      hostname_trusted (addTrustedDomain domain domains) host = true) /\
  addTrustedDomain domain (addTrustedDomain domain domains) =
    addTrustedDomain domain domains /\
  (NoDup domains -> NoDup (addTrustedDomain domain domains)) /\
  In (strip_scheme (toLowerCase domain)) (addTrustedDomain domain domains).
Proof.
  intros _ _.
  set (n := strip_scheme (toLowerCase domain)).
  assert (Hin : In n (addTrustedDomain domain domains)).
  { unfold addTrustedDomain. fold n.
    destruct (existsb (String.eqb n) domains) eqn:He.
    - now apply existsb_eqb_In.
    - apply in_or_app. right. now left. }
  split; [|split; [|split; [|split]]].
  - intros host _ Ht. unfold addTrustedDomain. fold n.
    destruct (existsb (String.eqb n) domains); [exact Ht|].
    rewrite hostname_trusted_app, Ht. reflexivity.
  - intros host _ Hhost.
    apply (proj2 (hostname_trusted_iff_aux (addTrustedDomain domain domains) host)).
    exists n. split; [exact Hin|]. left. rewrite Hhost.
    symmetry. apply strip_scheme_lower.
  - unfold addTrustedDomain at 1. fold n.
    apply existsb_eqb_In in Hin. now rewrite Hin.
  - intros Hnd. unfold addTrustedDomain. fold n.
    destruct (existsb (String.eqb n) domains) eqn:He; [exact Hnd|].
    apply NoDup_app. split; [exact Hnd|]. split; [|apply NoDup_singleton].
    intros x Hx Hx'. apply list_elem_of_In in Hx. apply list_elem_of_In in Hx'.
    destruct Hx' as [<-|[]].
    apply existsb_eqb_In in Hx. congruence.
  - exact Hin.
Qed.

(* ===================================================================== *)
(** * Decimal numerals *)
(* ===================================================================== *)

Lemma pretty_N_char_digit (d : N) : is_digit (pretty_N_char d) = true.
Proof. unfold pretty_N_char. repeat case_match; reflexivity. Qed.

Lemma pretty_N_char_value (d : N) :
  (d < 10)%N -> Z.of_nat (Ascii.nat_of_ascii (pretty_N_char d)) - 48 = Z.of_N d.
Proof.
  intros Hd.
  assert (d = 0 \/ d = 1 \/ d = 2 \/ d = 3 \/ d = 4 \/ d = 5 \/ d = 6 \/ d = 7 \/
          d = 8 \/ d = 9)%N as H by lia.
  repeat (destruct H as [-> | H]; [reflexivity|]). now subst.
Qed.

Lemma pretty_N_go_app (x : N) :
  forall s, pretty_N_go x s = pretty_N_go x "" +:+ s.
Proof.
  induction (N.lt_wf_0 x) as [x _ IH]; intros s.
  destruct (N.eq_dec x 0%N) as [->|Hx].
  - now rewrite !pretty_N_go_0.
  - rewrite (pretty_N_go_step x s), (pretty_N_go_step x "") by lia.
    rewrite (IH (x / 10)%N) by (apply N.div_lt; lia).
    rewrite (IH (x / 10)%N ltac:(apply N.div_lt; lia)
               (String (pretty_N_char (x mod 10)) "")).
    now rewrite append_assoc.
Qed.

Lemma string_forallb_app (p : ascii -> bool) (a b : string) :
  string_forallb p (a +:+ b) = string_forallb p a && string_forallb p b.
Proof.
  induction a as [|c a IH]; [reflexivity|].
  rewrite append_cons. cbn [string_forallb]. now rewrite IH, andb_assoc.
Qed.

Lemma pretty_N_go_digits (x : N) :
  string_forallb is_digit (pretty_N_go x "") = true.
Proof.
  induction (N.lt_wf_0 x) as [x _ IH].
  destruct (N.eq_dec x 0%N) as [->|Hx]; [reflexivity|].
  rewrite pretty_N_go_step, pretty_N_go_app by lia.
  rewrite string_forallb_app, IH by (apply N.div_lt; lia).
  cbn. now rewrite pretty_N_char_digit.
Qed.

Lemma pretty_N_go_nonempty (x : N) : (0 < x)%N -> pretty_N_go x "" <> "".
Proof.
  intros Hx. rewrite pretty_N_go_step, pretty_N_go_app by lia.
  destruct (pretty_N_go (x / 10) ""); discriminate.
Qed.

Lemma leading_digits_app (a b : string) :
  string_forallb is_digit a = true ->
  forall acc, leading_digits acc (a +:+ b) = leading_digits (leading_digits acc a) b.
Proof.
  induction a as [|c a IH]; intros Ha acc; [reflexivity|].
  rewrite append_cons. cbn [string_forallb] in Ha.
  apply andb_true_iff in Ha as [Hc Ha]. cbn [leading_digits]. rewrite Hc.
  now apply IH.
Qed.

Lemma leading_digits_pretty_N_go (x : N) :
  (0 < x)%N -> leading_digits None (pretty_N_go x "") = Some (Z.of_N x).
Proof.
  induction (N.lt_wf_0 x) as [x _ IH]. intros Hx.
  rewrite pretty_N_go_step, pretty_N_go_app by lia.
  rewrite leading_digits_app by apply pretty_N_go_digits.
  assert (Hmod : (x mod 10 < 10)%N) by (apply N.mod_lt; lia).
  destruct (N.eq_dec (x / 10)%N 0%N) as [Hq|Hq].
  - rewrite Hq, pretty_N_go_0. cbn [leading_digits].
    rewrite pretty_N_char_digit. unfold default. cbn [from_option id].
    rewrite pretty_N_char_value by assumption.
    f_equal. pose proof (N.div_mod x 10%N ltac:(lia)) as Hdm. rewrite Hq in Hdm.
    rewrite N.mul_0_r, N.add_0_l in Hdm. now rewrite <- Hdm.
  - rewrite IH by (try apply N.div_lt; try apply N.neq_0_lt_0; (assumption || lia)).
    cbn [leading_digits].
    rewrite pretty_N_char_digit. unfold default. cbn [from_option id].
    rewrite pretty_N_char_value by assumption.
    f_equal. pose proof (N.div_mod x 10%N ltac:(lia)) as Hdm.
    apply (f_equal Z.of_N) in Hdm. rewrite N2Z.inj_add, N2Z.inj_mul in Hdm.
    set (q := Z.of_N (x / 10)) in *. set (r := Z.of_N (x mod 10)) in *.
    change (Z.of_N 10) with 10 in Hdm. clearbody q r.
    unfold Datatypes.id. lia.
Qed.

(** The decimal numeral of a natural number is a non-empty string of digits,
    and reading its digits gives the number back. *)
Lemma pretty_nat_numeral (n : nat) : numeral (pretty n).
Proof.
  unfold pretty, pretty_nat, pretty, pretty_N.
  destruct (decide (N.of_nat n = 0%N)) as [_|Hn]; [split; [discriminate|reflexivity]|].
  split; [apply pretty_N_go_nonempty; lia | apply pretty_N_go_digits].
Qed.

Lemma leading_digits_pretty_nat (n : nat) :
  leading_digits None (pretty n) = Some (Z.of_nat n).
Proof.
  unfold pretty, pretty_nat, pretty, pretty_N.
  destruct (decide (N.of_nat n = 0%N)) as [Hz|Hn].
  - assert (n = 0%nat) as -> by lia. reflexivity.
  - rewrite leading_digits_pretty_N_go by lia. f_equal. lia.
Qed.

(* ===================================================================== *)
(** * The private-address patterns of [isPublicUrl] *)
(* ===================================================================== *)

Lemma digit_char (c : ascii) :
  is_digit c = true ->
  lower_char c = c /\ c <> "."%char /\ c <> "l"%char /\ c <> "["%char /\ c <> ":"%char.
Proof.
  destruct c as [[|] [|] [|] [|] [|] [|] [|] [|]]; cbn; intros H;
    try discriminate H; repeat split; discriminate.
Qed.

Lemma digits_lower (p : string) :
  string_forallb is_digit p = true -> toLowerCase p = p.
Proof.
  induction p as [|c p IH]; [reflexivity|]. cbn [string_forallb toLowerCase].
  intros H. apply andb_true_iff in H as [Hc Hp].
  destruct (digit_char c Hc) as [-> _]. now rewrite IH.
Qed.

(** A numeral followed by a dot is split off in only one way. *)
Lemma digits_dot_unique (x : string) :
  forall y R R',
    string_forallb is_digit x = true -> string_forallb is_digit y = true ->
    x +:+ "." +:+ R = y +:+ "." +:+ R' -> x = y /\ R = R'.
Proof.
  induction x as [|c x IH]; intros y R R' Hx Hy Heq.
  - destruct y as [|d y].
    + rewrite !append_nil in Heq. now inversion Heq.
    + rewrite append_nil, append_cons in Heq. inversion Heq; subst.
      cbn in Hy. discriminate Hy.
  - cbn [string_forallb] in Hx. apply andb_true_iff in Hx as [Hc Hx].
    destruct y as [|d y].
    + rewrite append_nil, append_cons in Heq. inversion Heq; subst.
      cbn in Hc. discriminate Hc.
    + cbn [string_forallb] in Hy. apply andb_true_iff in Hy as [Hd Hy].
      rewrite !append_cons in Heq. inversion Heq; subst.
      destruct (IH y R R' Hx Hy) as [-> ->]; auto.
Qed.

Lemma skip_digits_app (p r : string) :
  string_forallb is_digit p = true -> skip_digits (p +:+ r) = skip_digits r.
Proof.
  induction p as [|c p IH]; [reflexivity|]. cbn [string_forallb].
  intros H. apply andb_true_iff in H as [Hc Hp].
  rewrite append_cons. cbn [skip_digits]. rewrite Hc. now apply IH.
Qed.

(** [\d+] takes a numeral that is followed by a dot, or by nothing, whole. *)
Lemma match_digits_dot (p r : string) :
  numeral p -> match_digits (p +:+ "." +:+ r) = Some ("." +:+ r).
Proof.
  intros [Hne Hd]. destruct p as [|c p]; [contradiction|].
  cbn [string_forallb] in Hd. apply andb_true_iff in Hd as [Hc Hp].
  rewrite append_cons. cbn [match_digits]. rewrite Hc.
  now rewrite skip_digits_app.
Qed.

Lemma match_digits_end (p : string) : numeral p -> match_digits p = Some "".
Proof.
  intros [Hne Hd]. destruct p as [|c p]; [contradiction|].
  cbn [string_forallb] in Hd. apply andb_true_iff in Hd as [Hc Hp].
  cbn [match_digits]. rewrite Hc. f_equal.
  clear Hc Hne. induction p as [|d p IH]; [reflexivity|].
  cbn [string_forallb] in Hp. apply andb_true_iff in Hp as [Hd Hp].
  cbn [skip_digits]. rewrite Hd. now apply IH.
Qed.

(** A literal number and a dot match a numeral and a dot exactly when the
    numeral is that number. *)
Lemma match_lit_number (lit p R : string) :
  string_forallb is_digit lit = true -> numeral p ->
  match_lit (lit +:+ ".") (p +:+ "." +:+ R) =
    if bool_decide (p = lit) then Some R else None.
Proof.
  intros Hlit [_ Hp]. case_bool_decide as Heq.
  - subst p. apply match_lit_Some. now rewrite append_assoc.
  - destruct (match_lit (lit +:+ ".") (p +:+ "." +:+ R)) as [r|] eqn:Hm; [|reflexivity].
    apply match_lit_Some in Hm. rewrite append_assoc in Hm.
    destruct (digits_dot_unique p lit R r Hp Hlit Hm) as [-> _]. contradiction.
Qed.

Lemma pretty_literal (n : nat) (lit : string) :
  pretty n = lit -> forall m : nat, pretty m = lit <-> m = n.
Proof.
  intros <- m. split; [apply (inj pretty) | now intros ->].
Qed.

(** [\.\d+] on a dot, a numeral and what follows it. *)
Lemma dot_number_dot (p r : string) :
  numeral p -> dot_number (Some ("." +:+ p +:+ "." +:+ r)) = Some ("." +:+ r).
Proof.
  intros Hp. unfold dot_number. cbn [and_then].
  rewrite (proj2 (match_lit_Some "." _ (p +:+ "." +:+ r)) eq_refl). cbn [and_then].
  now apply match_digits_dot.
Qed.

Lemma dot_number_end (p : string) :
  numeral p -> dot_number (Some ("." +:+ p)) = Some "".
Proof.
  intros Hp. unfold dot_number. cbn [and_then].
  rewrite (proj2 (match_lit_Some "." _ p) eq_refl). cbn [and_then].
  now apply match_digits_end.
Qed.

(** The second number of the 172 pattern. *)
Lemma second_of_172 (b : nat) (R : string) :
  and_then (match_172_second (pretty b +:+ "." +:+ R)) (match_lit ".") =
    if (16 <=? b)%nat && (b <=? 31)%nat then Some R else None.
Proof.
  destruct ((16 <=? b)%nat && (b <=? 31)%nat) eqn:Hrange.
  - apply andb_true_iff in Hrange as [Hlo Hhi].
    apply Nat.leb_le in Hlo. apply Nat.leb_le in Hhi.
    assert (Hb : In b (seq 16 16)) by (apply in_seq; lia).
    cbn [seq In] in Hb.
    repeat (destruct Hb as [<- | Hb]; [vm_compute; reflexivity|]). destruct Hb.
  - destruct (and_then _ _) as [r|] eqn:Hm; [exfalso|reflexivity].
    destruct (pretty_nat_numeral b) as [Hne Hd].
    destruct (pretty b) as [|c1 t] eqn:Hpb; [contradiction|].
    cbn [string_forallb] in Hd. apply andb_true_iff in Hd as [Hc1 Ht].
    rewrite append_cons in Hm.
    destruct t as [|c2 t'].
    { rewrite append_nil in Hm.
      change ("." +:+ R) with (String "." R) in Hm. cbn [match_172_second] in Hm.
      change (Ascii.nat_of_ascii ".") with 46%nat in Hm.
      cbn [Nat.leb is_digit] in Hm.
      rewrite !andb_false_r in Hm. cbn in Hm. discriminate Hm. }
    cbn [string_forallb] in Ht. apply andb_true_iff in Ht as [Hc2 Ht'].
    rewrite append_cons in Hm. cbn [match_172_second] in Hm.
    destruct (_ || _) eqn:Hpat in Hm; [|discriminate Hm].
    cbn [and_then] in Hm. apply match_lit_Some in Hm.
    assert (t' = "") as ->.
    { destruct t' as [|c3 t'']; [reflexivity|].
      rewrite append_cons in Hm. inversion Hm; subst.
      cbn in Ht'. discriminate Ht'. }
    assert (Hlist : existsb (String.eqb (String c1 (String c2 "")))
                      (map (fun k : nat => pretty k) (seq 16 16)) = true).
    { clear - Hpat.
      destruct c1 as [[|] [|] [|] [|] [|] [|] [|] [|]]; try discriminate Hpat;
        destruct c2 as [[|] [|] [|] [|] [|] [|] [|] [|]]; try discriminate Hpat;
        vm_compute; reflexivity. }
    apply existsb_exists in Hlist as (lit & Hin & Heq).
    apply String.eqb_eq in Heq. subst lit.
    apply in_map_iff in Hin as (k & Hk & Hkin). apply in_seq in Hkin.
    rewrite <- Hpb in Hk. apply (inj pretty) in Hk. subst k.
    apply andb_false_iff in Hrange as [H|H]; apply Nat.leb_gt in H; lia.
Qed.

Lemma dotted_quad_head (a b c d : nat) :
  exists ch t, dotted_quad a b c d = String ch t /\ is_digit ch = true.
Proof.
  unfold dotted_quad. destruct (pretty_nat_numeral a) as [Hne Hd].
  destruct (pretty a) as [|ch t]; [contradiction|].
  cbn [string_forallb] in Hd. apply andb_true_iff in Hd as [Hc _].
  rewrite append_cons. eauto.
Qed.

Lemma toLowerCase_dotted_quad (a b c d : nat) :
  toLowerCase (dotted_quad a b c d) = dotted_quad a b c d.
Proof.
  unfold dotted_quad.
  rewrite !toLowerCase_app.
  rewrite (digits_lower (pretty a)), (digits_lower (pretty b)),
    (digits_lower (pretty c)), (digits_lower (pretty d))
    by apply pretty_nat_numeral.
  reflexivity.
Qed.

Lemma dotted_quad_inj (a b c d a' b' c' d' : nat) :
  dotted_quad a b c d = dotted_quad a' b' c' d' ->
  a = a' /\ b = b' /\ c = c' /\ d = d'.
Proof.
  unfold dotted_quad. intros H.
  apply digits_dot_unique in H as [Ha H]; try apply pretty_nat_numeral.
  apply digits_dot_unique in H as [Hb H]; try apply pretty_nat_numeral.
  apply digits_dot_unique in H as [Hc H]; try apply pretty_nat_numeral.
  repeat split; now apply (inj pretty).
Qed.

(** The value of each address pattern on a dotted quad. *)
Lemma first_number_pattern (lit : string) (n a b c d : nat) :
  pretty n = lit ->
  at_end (dot_number (dot_number
     (and_then (match_lit (lit +:+ ".") (dotted_quad a b c d)) match_digits))) =
  bool_decide (a = n).
Proof.
  intros Hlit. unfold dotted_quad.
  rewrite match_lit_number;
    [| rewrite <- Hlit; apply pretty_nat_numeral | apply pretty_nat_numeral].
  rewrite <- Hlit.
  case_bool_decide as Hp.
  - apply (inj pretty) in Hp. rewrite bool_decide_eq_true_2 by assumption.
    cbn [and_then].
    rewrite match_digits_dot, dot_number_dot, dot_number_end
      by apply pretty_nat_numeral.
    reflexivity.
  - rewrite bool_decide_eq_false_2 by (intros ->; now apply Hp). reflexivity.
Qed.

Lemma pattern_172 (a b c d : nat) :
  at_end (dot_number (dot_number
     (and_then (match_lit "172." (dotted_quad a b c d)) match_172_second))) =
  bool_decide (a = 172%nat) && ((16 <=? b)%nat && (b <=? 31)%nat).
Proof.
  unfold dotted_quad.
  change "172." with (pretty 172%nat +:+ ".").
  rewrite match_lit_number by apply pretty_nat_numeral.
  case_bool_decide as Hp.
  - apply (inj pretty) in Hp. rewrite bool_decide_eq_true_2 by assumption.
    cbn [and_then andb]. unfold dot_number at 2.
    pose proof (second_of_172 b (pretty c +:+ "." +:+ pretty d)) as H2.
    rewrite H2. destruct (_ && _); [|reflexivity].
    cbn [and_then].
    rewrite match_digits_dot by apply pretty_nat_numeral.
    rewrite dot_number_end by apply pretty_nat_numeral. reflexivity.
  - rewrite bool_decide_eq_false_2 by (intros ->; now apply Hp). reflexivity.
Qed.

Lemma pattern_192_168 (a b c d : nat) :
  at_end (dot_number
     (and_then (match_lit "192.168." (dotted_quad a b c d)) match_digits)) =
  bool_decide (a = 192%nat) && bool_decide (b = 168%nat).
Proof.
  unfold dotted_quad.
  destruct (match_lit "192.168." _) as [r|] eqn:Hm.
  - apply match_lit_Some in Hm.
    change ("192.168." +:+ r) with (pretty 192%nat +:+ "." +:+ pretty 168%nat +:+ "." +:+ r) in Hm.
    apply digits_dot_unique in Hm as [Ha Hm]; try apply pretty_nat_numeral.
    apply digits_dot_unique in Hm as [Hb Hm]; try apply pretty_nat_numeral.
    apply (inj pretty) in Ha. apply (inj pretty) in Hb. subst a b r.
    cbn [and_then]. rewrite !bool_decide_eq_true_2 by reflexivity.
    rewrite match_digits_dot, dot_number_end by apply pretty_nat_numeral.
    reflexivity.
  - cbn [and_then dot_number at_end].
    destruct (bool_decide (a = 192%nat)) eqn:Ha; [|reflexivity].
    destruct (bool_decide (b = 168%nat)) eqn:Hb; [|reflexivity].
    apply bool_decide_eq_true_1 in Ha. apply bool_decide_eq_true_1 in Hb. subst a b.
    exfalso.
    assert (match_lit "192.168."
              (pretty 192%nat +:+ "." +:+ pretty 168%nat +:+ "." +:+ pretty c +:+ "." +:+ pretty d)
            = Some (pretty c +:+ "." +:+ pretty d)) as Hs.
    { apply match_lit_Some. reflexivity. }
    congruence.
Qed.

Lemma pattern_zero (a b c d : nat) :
  String.eqb (dotted_quad a b c d) "0.0.0.0" =
  bool_decide (a = 0%nat /\ b = 0%nat /\ c = 0%nat /\ d = 0%nat).
Proof.
  case_bool_decide as H.
  - destruct H as (-> & -> & -> & ->). reflexivity.
  - apply String.eqb_neq. intros Heq. apply H.
    change "0.0.0.0" with (dotted_quad 0 0 0 0) in Heq.
    now apply dotted_quad_inj in Heq.
Qed.

Lemma other_patterns (a b c d : nat) :
  String.eqb (toLowerCase (dotted_quad a b c d)) "localhost" = false /\
  startsWith (dotted_quad a b c d) "[::" = false /\
  String.eqb (dotted_quad a b c d) "::1" = false.
Proof.
  rewrite toLowerCase_dotted_quad.
  destruct (dotted_quad_head a b c d) as (ch & t & -> & Hch).
  destruct (digit_char ch Hch) as (_ & _ & Hl & Hb & Hcol).
  repeat split.
  - apply String.eqb_neq. intros H. inversion H. contradiction.
  - unfold startsWith.
    change (String.prefix "[::" (String ch t))
      with (if Ascii.ascii_dec "[" ch then String.prefix "::" t else false).
    destruct (Ascii.ascii_dec "[" ch) as [E|E]; [|reflexivity].
    now subst ch.
  - apply String.eqb_neq. intros H. inversion H. contradiction.
Qed.

Lemma isPrivateHost_dotted_quad (a b c d : nat) :
  isPrivateHost (dotted_quad a b c d) = true <->
  a = 127%nat \/ a = 10%nat \/
  (a = 172%nat /\ (16 <= b <= 31)%nat) \/
  (a = 192%nat /\ b = 168%nat) \/
  (a = 0%nat /\ b = 0%nat /\ c = 0%nat /\ d = 0%nat).
Proof.
  unfold isPrivateHost, privatePatterns. cbn [existsb].
  destruct (other_patterns a b c d) as (-> & -> & ->).
  change "127." with ("127" +:+ "."). change "10." with ("10" +:+ ".").
  rewrite (first_number_pattern "127" 127) by reflexivity.
  rewrite (first_number_pattern "10" 10) by reflexivity.
  change ("172" +:+ ".") with "172.".
  rewrite pattern_172, pattern_192_168, pattern_zero.
  rewrite !orb_false_r, !orb_false_l, !orb_true_iff, !andb_true_iff,
    !bool_decide_eq_true, !Nat.leb_le.
  tauto.
Qed.

(** On a URL whose host is a dotted quad of decimal numbers,
    [isPublicUrl] answers [false] exactly for the addresses its patterns
    name: 127.x.x.x, 10.x.x.x, 172.16.x.x to 172.31.x.x, 192.168.x.x and
    0.0.0.0.  Every other dotted quad counts as public, whatever its
    numbers. *)
Theorem isPublicUrl_dotted_quad
    (parseURL : string -> option URL) (url : string) (u : URL) (a b c d : nat) :
  parseURL url = Some u ->
  hostname u = dotted_quad a b c d ->
  (isPublicUrl parseURL url = false <->
   a = 127%nat \/ a = 10%nat \/
   (a = 172%nat /\ (16 <= b <= 31)%nat) \/
   (a = 192%nat /\ b = 168%nat) \/
   (a = 0%nat /\ b = 0%nat /\ c = 0%nat /\ d = 0%nat)).
Proof.
  intros Hparse Hhost. unfold isPublicUrl. rewrite Hparse, Hhost.
  rewrite toLowerCase_dotted_quad, negb_false_iff.
  apply isPrivateHost_dotted_quad.
Qed.

Lemma isPublicUrl_dotted_quad_witness :
  isPublicUrl (parse_only "http://172.20.0.7/logo.png" private_image_url)
    "http://172.20.0.7/logo.png" = false <->
  172%nat = 127%nat \/ 172%nat = 10%nat \/
  (172%nat = 172%nat /\ (16 <= 20 <= 31)%nat) \/
  (172%nat = 192%nat /\ 20%nat = 168%nat) \/
  (172%nat = 0%nat /\ 20%nat = 0%nat /\ 0%nat = 0%nat /\ 7%nat = 0%nat).
Proof.
  apply (isPublicUrl_dotted_quad
           (parse_only "http://172.20.0.7/logo.png" private_image_url)
           "http://172.20.0.7/logo.png" private_image_url 172 20 0 7).
  - reflexivity.
  - vm_compute. reflexivity.
Defined.

Lemma addTrustedDomain_properties_witness :
  hostname_trusted
    (addTrustedDomain "HTTPS://Cdn.Example.org" TRUSTED_IMAGE_DOMAINS)
    "images.unsplash.com" = true /\
  hostname_trusted
    (addTrustedDomain "HTTPS://Cdn.Example.org" TRUSTED_IMAGE_DOMAINS)
    "CDN.example.ORG" = true /\
  NoDup (addTrustedDomain "HTTPS://Cdn.Example.org" TRUSTED_IMAGE_DOMAINS).
Proof.
  destruct (addTrustedDomain_properties "HTTPS://Cdn.Example.org" TRUSTED_IMAGE_DOMAINS)
    as (Hmono & Hnew & _ & Hnodup & _).
  { reflexivity. }
  { repeat constructor. }
  split; [|split].
  - apply Hmono; vm_compute; reflexivity.
  - apply Hnew; vm_compute; reflexivity.
  - apply Hnodup. refine (bool_decide_unpack _ _). vm_compute. exact I.
Defined.

(* ===================================================================== *)
(** * Further properties of the request compiler *)
(* ===================================================================== *)

(** The operations of a deck are the initial ones followed by those of the
    slides, in order. *)
Lemma compile_from_requests (colorTheme : option ColorTheme)
    (validatedSlides : list SlideContent) :
  forall index acc,
    exists ops,
      acc_requests (compile_from colorTheme index validatedSlides acc) =
        acc_requests acc ++ ops /\
      Z.of_nat (length ops) =
        fold_right Z.add 0
          (map (fun c => requestCount c - (if truthy (notes c) then 1 else 0))
               validatedSlides).
Proof.
  induction validatedSlides as [|content rest IH]; intros index acc.
  - exists []. now rewrite app_nil_r.
  - cbn [compile_from].
    assert (Hone : exists rs,
      createSlideRequests content index colorTheme = Return rs /\
      Z.of_nat (length rs) =
        requestCount content - (if truthy (notes content) then 1 else 0)).
    { unfold createSlideRequests, requestCount. eexists. split; [reflexivity|].
      destruct (truthy (title content)), (truthy (subtitle content)),
        (truthy (text content)), (nonEmptyArray (bulletPoints content)),
        (nonEmptyArray (questions content)), (truthy (imageUrl content)),
        (truthy (notes content)); reflexivity. }
    destruct Hone as (rs & -> & Hlen).
    destruct (IH (S index)
                {| acc_requests := acc_requests acc ++ rs;
                   acc_failedSlides := acc_failedSlides acc;
                   acc_warnings := acc_warnings acc |}) as (ops & Hops & Hsum).
    exists (rs ++ ops). cbn [acc_requests] in Hops. rewrite Hops, <- app_assoc.
    split; [reflexivity|].
    rewrite length_app, Nat2Z.inj_add, Hlen, Hsum. reflexivity.
Qed.

(** The estimate of [validateSlideContent] is exact: for every slide it
    counts the operations [createSlideRequests] compiles, plus one for the
    speaker notes, which are inserted by a call of their own.  So a deck
    compiles to the initial operations and, for each slide, its estimate
    less the notes. *)
Theorem requestCount_is_exact :
  (forall content index colorTheme,
      exists requests,
        createSlideRequests content index colorTheme = Return requests /\
        requestCount content =
          Z.of_nat (length requests) + (if truthy (notes content) then 1 else 0)) /\
  (forall colorTheme firstSlideId validatedSlides,
      Z.of_nat (length (compiled_requests colorTheme firstSlideId validatedSlides)) =
        Z.of_nat (length (initial_requests firstSlideId)) +
        fold_right Z.add 0
          (map (fun c => requestCount c - (if truthy (notes c) then 1 else 0))
               validatedSlides)).
Proof.
  split.
  - intros content index colorTheme. unfold createSlideRequests, requestCount.
    eexists. split; [reflexivity|].
    destruct (truthy (title content)), (truthy (subtitle content)),
      (truthy (text content)), (nonEmptyArray (bulletPoints content)),
      (nonEmptyArray (questions content)), (truthy (imageUrl content)),
      (truthy (notes content)); reflexivity.
  - intros colorTheme firstSlideId validatedSlides. unfold compiled_requests.
    destruct (compile_from_requests colorTheme validatedSlides 0
                {| acc_requests := initial_requests firstSlideId;
                   acc_failedSlides := []; acc_warnings := [] |})
      as (ops & -> & Hsum).
    cbn [acc_requests]. rewrite length_app, Nat2Z.inj_add, Hsum. reflexivity.
Qed.

(** ** The compiled script creates before it uses *)

Lemma omap_cons_eq {A B} (f : A -> option B) (x : A) (l : list A) :
  omap f (x :: l) =
  match f x with
  | Some y => y :: omap f l
  | None => omap f l
  end.
Proof. reflexivity. Qed.

Lemma script_ok_app (l l' : list Request) :
  forall known,
    script_ok known (l ++ l') <->
    script_ok known l /\ script_ok (rev (omap request_creates l) ++ known) l'.
Proof.
  induction l as [|r l IH]; intros known; cbn [app script_ok].
  - cbn. tauto.
  - rewrite omap_cons_eq. destruct (request_creates r) as [x|] eqn:Hc.
    + rewrite IH. cbn [rev]. rewrite <- app_assoc. cbn [app]. tauto.
    + rewrite IH. tauto.
Qed.

Lemma script_ok_known (ops : list Request) :
  forall k1 k2,
    (forall x, In x k1 <-> In x k2) -> script_ok k1 ops -> script_ok k2 ops.
Proof.
  induction ops as [|r ops IH]; intros k1 k2 Heq; cbn [script_ok]; [tauto|].
  intros [Hneeds Hrest]. split.
  - intros x Hx. apply Heq. now apply Hneeds.
  - destruct (request_creates r) as [x|].
    + destruct Hrest as [Hfresh Hrest]. split.
      * intros Hin. apply Hfresh. now apply Heq.
      * apply (IH (x :: k1)); [|exact Hrest].
        intros y. cbn [In]. rewrite Heq. tauto.
    + now apply (IH k1).
Qed.

(** What a well-formed script guarantees, in terms of its operations. *)
Lemma script_ok_sound (ops : list Request) :
  forall known,
    script_ok known ops ->
    NoDup (omap request_creates ops) /\
    (forall x, In x (omap request_creates ops) -> ~ In x known) /\
    (forall l1 r l2 x,
        ops = l1 ++ r :: l2 -> request_needs r = Some x ->
        In x known \/ exists r', In r' l1 /\ request_creates r' = Some x).
Proof.
  induction ops as [|r ops IH]; intros known Hok.
  - split; [constructor|]. split; [intros x []|].
    intros [|? ?] ? ? ? Heq; discriminate Heq.
  - cbn [script_ok] in Hok. destruct Hok as [Hneeds Hrest].
    rewrite omap_cons_eq. destruct (request_creates r) as [c|] eqn:Hc.
    + destruct Hrest as [Hfresh Hrest].
      destruct (IH (c :: known) Hrest) as (Hnd & Hnew & Hsplit).
      split; [|split].
      * constructor; [|exact Hnd].
        intros Hin. apply list_elem_of_In in Hin. apply (Hnew c Hin). now left.
      * intros x [<-|Hin]; [exact Hfresh|].
        intros Hk. apply (Hnew x Hin). now right.
      * intros l1 r0 l2 x Heq Hx. destruct l1 as [|a l1]; cbn [app] in Heq.
        -- inversion Heq; subst. left. now apply Hneeds.
        -- inversion Heq; subst.
           destruct (Hsplit l1 r0 l2 x eq_refl Hx) as [[<-|Hk]|(r' & Hr' & Hc')].
           ++ right. exists a. split; [now left | exact Hc].
           ++ now left.
           ++ right. exists r'. split; [now right | exact Hc'].
    + destruct (IH known Hrest) as (Hnd & Hnew & Hsplit).
      split; [exact Hnd|]. split; [exact Hnew|].
      intros l1 r0 l2 x Heq Hx. destruct l1 as [|a l1]; cbn [app] in Heq.
      * inversion Heq; subst. left. now apply Hneeds.
      * inversion Heq; subst.
        destruct (Hsplit l1 r0 l2 x eq_refl Hx) as [Hk|(r' & Hr' & Hc')].
        -- now left.
        -- right. exists r'. split; [now right | exact Hc'].
Qed.

(** The operations of one slide form a well-formed script on top of any
    objects that are not among the identifiers of the slide, and create
    identifiers of the slide only. *)
Lemma createSlideRequests_script_ok (content : SlideContent) (index : nat)
    (colorTheme : option ColorTheme) (known : list string) :
  (forall x, In x (slide_object_ids index) -> ~ In x known) ->
  exists requests,
    createSlideRequests content index colorTheme = Return requests /\
    script_ok known requests /\
    (forall x, In x (omap request_creates requests) -> In x (slide_object_ids index)).
Proof.
  intros Hfresh. unfold createSlideRequests. eexists. split; [reflexivity|].
  destruct (truthy (title content)), (truthy (subtitle content)),
    (truthy (text content)), (nonEmptyArray (bulletPoints content)),
    (nonEmptyArray (questions content)), (truthy (imageUrl content));
    (split;
     [ cbn [app script_ok request_needs request_creates text_box pageObjectId];
       repeat split;
       try (intros ? [= <-]; cbn [In]; tauto);
       try discriminate;
       fresh_id Hfresh
     | intros x Hx;
       cbn [app omap list_omap request_creates In] in Hx;
       unfold slide_object_ids; cbn [In];
       repeat (destruct Hx as [<-|Hx]; [tauto|]); destruct Hx ]).
Qed.

Lemma compile_from_script_ok (colorTheme : option ColorTheme)
    (validatedSlides : list SlideContent) :
  forall index acc,
    script_ok [] (acc_requests acc) ->
    (forall x, In x (omap request_creates (acc_requests acc)) ->
               exists j, (j < index)%nat /\ In x (slide_object_ids j)) ->
    script_ok [] (acc_requests (compile_from colorTheme index validatedSlides acc)).
Proof.
  induction validatedSlides as [|content rest IH]; intros index acc Hok Hids.
  - exact Hok.
  - cbn [compile_from].
    destruct (createSlideRequests_script_ok content index colorTheme
                (rev (omap request_creates (acc_requests acc)) ++ []))
      as (rs & -> & Hrs & Hcreated).
    { intros x Hx Hin. rewrite app_nil_r, <- in_rev in Hin.
      destruct (Hids x Hin) as (j & Hj & Hxj).
      apply (slide_object_ids_disjoint j index x); [lia | exact Hxj | exact Hx]. }
    apply IH; cbn [acc_requests].
    + apply script_ok_app. split; assumption.
    + intros x Hx.
      rewrite omap_app, in_app_iff in Hx. destruct Hx as [Hx|Hx].
      * destruct (Hids x Hx) as (j & Hj & Hxj). exists j. split; [lia | exact Hxj].
      * exists index. split; [lia | now apply Hcreated].
Qed.

(** In the operations compiled for a deck no object is created twice, and
    every operation that places an element on a page, or writes or styles
    the text of a shape, comes after the operation that creates that page or
    shape. *)
Theorem compiled_script_creates_before_use
    (colorTheme : option ColorTheme) (firstSlideId : option string)
    (validatedSlides : list SlideContent) :
  let ops := compiled_requests colorTheme firstSlideId validatedSlides in
  NoDup (omap request_creates ops) /\
  (forall l1 r l2 x,
      ops = l1 ++ r :: l2 -> request_needs r = Some x ->
      exists r', In r' l1 /\ request_creates r' = Some x).
Proof.
  intros ops.
  assert (Hok : script_ok [] ops).
  { apply compile_from_script_ok; cbn [acc_requests]; unfold initial_requests;
      destruct (truthy firstSlideId); cbn.
    - split; [discriminate | exact I].
    - exact I.
    - intros x Hx. destruct Hx.
    - intros x Hx. destruct Hx. }
  destruct (script_ok_sound ops [] Hok) as (Hnd & _ & Hsplit).
  split; [exact Hnd|].
  intros l1 r l2 x Heq Hx.
  destruct (Hsplit l1 r l2 x Heq Hx) as [[]|H]; exact H.
Qed.

(** ** Where the elements of a slide are placed *)

(** Every element of a slide other than the title box covers the same
    strip of the page. *)
Lemma createSlideRequests_boxes (content : SlideContent) (index : nat)
    (colorTheme : option ColorTheme) (requests : list Request)
    (r : Request) (b : ElementProperties) :
  createSlideRequests content index colorTheme = Return requests ->
  In r requests -> request_box r = Some b ->
  request_objectId r <> Some ("title_" +:+ pretty index) ->
  translateX b <= 2500000 /\ 6500000 <= translateX b + width b /\
  translateY b <= 1500000 /\ 2000000 <= translateY b + height b.
Proof.
  unfold createSlideRequests. intros [= <-] Hin Hbox Hid.
  destruct (truthy (title content)), (truthy (subtitle content)),
    (truthy (text content)), (nonEmptyArray (bulletPoints content)),
    (nonEmptyArray (questions content)), (truthy (imageUrl content));
    cbn [app In] in Hin;
    repeat (destruct Hin as [<-|Hin];
            [try discriminate Hbox; try (exfalso; apply Hid; reflexivity);
             injection Hbox as <-;
             cbn [translateX translateY width height text_box];
             unfold TITLE_POSITION_X_EMU, SUBTITLE_POSITION_Y_EMU,
               CONTENT_POSITION_WITH_TITLE_Y_EMU, CONTENT_POSITION_NO_TITLE_Y_EMU,
               IMAGE_POSITION_X_EMU, IMAGE_POSITION_Y_EMU, TITLE_BOX_WIDTH_EMU,
               CONTENT_BOX_WIDTH_EMU, DEFAULT_IMAGE_WIDTH_EMU, SUBTITLE_BOX_HEIGHT_EMU,
               CONTENT_BOX_HEIGHT_EMU, BULLET_BOX_HEIGHT_EMU, QUESTIONS_BOX_HEIGHT_EMU,
               DEFAULT_IMAGE_HEIGHT_EMU;
             lia|]);
    destruct Hin.
Qed.

(** Any two elements that [createSlideRequests] places on a slide, the title
    box apart, overlap: the boxes of subtitle, text, bullets and questions
    and the image all cover a common strip of the page. *)
Theorem slide_elements_overlap (content : SlideContent) (index : nat)
    (colorTheme : option ColorTheme) (requests : list Request)
    (r1 r2 : Request) (b1 b2 : ElementProperties) :
  createSlideRequests content index colorTheme = Return requests ->
  In r1 requests -> request_box r1 = Some b1 ->
  request_objectId r1 <> Some ("title_" +:+ pretty index) ->
  In r2 requests -> request_box r2 = Some b2 ->
  request_objectId r2 <> Some ("title_" +:+ pretty index) ->
  boxes_overlap b1 b2.
Proof.
  intros Hreq Hin1 Hb1 Hid1 Hin2 Hb2 Hid2.
  pose proof (createSlideRequests_boxes content index colorTheme requests r1 b1
                Hreq Hin1 Hb1 Hid1).
  pose proof (createSlideRequests_boxes content index colorTheme requests r2 b2
                Hreq Hin2 Hb2 Hid2).
  unfold boxes_overlap. lia.
Qed.

Lemma slide_elements_overlap_witness :
  boxes_overlap
    (text_box "slide_0" CONTENT_BOX_HEIGHT_EMU CONTENT_BOX_WIDTH_EMU
       TITLE_POSITION_X_EMU CONTENT_POSITION_WITH_TITLE_Y_EMU)
    (text_box "slide_0" DEFAULT_IMAGE_HEIGHT_EMU DEFAULT_IMAGE_WIDTH_EMU
       IMAGE_POSITION_X_EMU IMAGE_POSITION_Y_EMU).
Proof.
  apply (slide_elements_overlap full_slide 0 None
           (match createSlideRequests full_slide 0 None with
            | Return rs => rs
            | Throw _ => []
            end)
           (createShape "text_0"
              (text_box "slide_0" CONTENT_BOX_HEIGHT_EMU CONTENT_BOX_WIDTH_EMU
                 TITLE_POSITION_X_EMU CONTENT_POSITION_WITH_TITLE_Y_EMU))
           (createImage "https://images.unsplash.com/leaf.png"
              (text_box "slide_0" DEFAULT_IMAGE_HEIGHT_EMU DEFAULT_IMAGE_WIDTH_EMU
                 IMAGE_POSITION_X_EMU IMAGE_POSITION_Y_EMU))).
  - reflexivity.
  - vm_compute. tauto.
  - reflexivity.
  - vm_compute. discriminate.
  - vm_compute. tauto.
  - reflexivity.
  - vm_compute. discriminate.
Defined.

(** ** Text styles *)

(** Every text style [createSlideRequests] emits comes with the field mask
    that names exactly the properties the style sets.  Only the title and
    the subtitle are coloured, with the primary and the secondary colour of
    the theme; text, bullets and questions keep the default colour, and the
    accent colour of a theme is never used. *)
Theorem text_styles_match_their_masks (content : SlideContent) (index : nat)
    (colorTheme : option ColorTheme) (requests : list Request)
    (objectId : string) (style : TextStyle) (fields : string) :
  createSlideRequests content index colorTheme = Return requests ->
  In (updateTextStyle objectId style fields) requests ->
  fields = style_fields style /\
  foregroundColor style =
    (if String.eqb objectId ("title_" +:+ pretty index)
     then (fun t => primary (COLOR_THEMES t)) <$> colorTheme
     else if String.eqb objectId ("subtitle_" +:+ pretty index)
          then (fun t => secondary (COLOR_THEMES t)) <$> colorTheme
          else None).
Proof.
  unfold createSlideRequests. intros [= <-] Hin.
  destruct colorTheme as [t|];
    destruct (truthy (title content)), (truthy (subtitle content)),
      (truthy (text content)), (nonEmptyArray (bulletPoints content)),
      (nonEmptyArray (questions content)), (truthy (imageUrl content));
    cbn [app In fmap option_fmap option_map] in Hin;
    repeat (destruct Hin as [Hin|Hin];
            [try discriminate Hin;
             injection Hin as <- <- <-;
             rewrite ?String.eqb_refl;
             repeat match goal with
                    | |- context [String.eqb ?a ?b] =>
                        let E := fresh in
                        destruct (String.eqb_spec a b) as [E|E]; [discriminate E|]
                    end;
             split; reflexivity|]);
    destruct Hin.
Qed.

Lemma text_styles_match_their_masks_witness :
  "fontSize,foregroundColor" =
    style_fields {| fontSize := FONT_SIZE_SUBTITLE_PT; bold := None;
                    foregroundColor := Some (secondary (COLOR_THEMES teal_theme)) |} /\
  foregroundColor {| fontSize := FONT_SIZE_SUBTITLE_PT; bold := None;
                     foregroundColor := Some (secondary (COLOR_THEMES teal_theme)) |} =
    (if String.eqb "subtitle_0" ("title_" +:+ pretty 0%nat)
     then (fun t => primary (COLOR_THEMES t)) <$> Some teal_theme
     else if String.eqb "subtitle_0" ("subtitle_" +:+ pretty 0%nat)
          then (fun t => secondary (COLOR_THEMES t)) <$> Some teal_theme
          else None).
Proof.
  apply (text_styles_match_their_masks full_slide 0 (Some teal_theme)
           (match createSlideRequests full_slide 0 (Some teal_theme) with
            | Return rs => rs
            | Throw _ => []
            end)
           "subtitle_0").
  - reflexivity.
  - vm_compute. tauto.
Defined.

(* ===================================================================== *)
(** * Further properties of the run *)
(* ===================================================================== *)

Lemma startsWith_app (a b : string) : startsWith (a +:+ b) a = true.
Proof.
  unfold startsWith. induction a as [|c a IH]; [now destruct b|].
  rewrite append_cons. cbn [String.prefix].
  destruct (Ascii.ascii_dec c c) as [_|Hne]; [exact IH | contradiction].
Qed.

Lemma remove_first_prefix (pat s : string) :
  remove_first pat (pat +:+ s) = s.
Proof.
  assert (H : remove_first pat (pat +:+ s) =
              String.substring (String.length pat)
                (String.length (pat +:+ s) - String.length pat) (pat +:+ s)).
  { destruct (pat +:+ s) eqn:Heq; cbn [remove_first];
      rewrite <- Heq, startsWith_app; reflexivity. }
  rewrite H, substring_skip, length_append.
  replace (String.length pat + String.length s - String.length pat)%nat
    with (String.length s) by lia.
  apply substring_all.
Qed.

Lemma parseInt_pretty (n : nat) : parseInt (pretty n) = Some (Z.of_nat n).
Proof.
  unfold parseInt. pose proof (leading_digits_pretty_nat n) as Hd.
  destruct (pretty_nat_numeral n) as [Hne Hdig].
  destruct (pretty n) as [|c rest]; [contradiction|].
  cbn [string_forallb] in Hdig. apply andb_true_iff in Hdig as [Hc Hrest].
  assert (Hmag : parse_magnitude (String c rest) = leading_digits None (String c rest)).
  { unfold parse_magnitude.
    destruct rest as [|x rest];
      [now destruct c as [[|] [|] [|] [|] [|] [|] [|] [|]]|].
    cbn [string_forallb] in Hrest. apply andb_true_iff in Hrest as [Hx _].
    assert (Hnox : Ascii.eqb x "x" || Ascii.eqb x "X" = false)
      by (destruct x as [[|] [|] [|] [|] [|] [|] [|] [|]]; try discriminate Hx; reflexivity).
    rewrite Hnox. now destruct c as [[|] [|] [|] [|] [|] [|] [|] [|]]. }
  cbn [trimStart].
  destruct c as [[|] [|] [|] [|] [|] [|] [|] [|]]; try discriminate Hc;
    (etransitivity; [|exact Hd]); (etransitivity; [|exact Hmag]); reflexivity.
Qed.

(** The slide index travels through the slide identifier and back. *)
Lemma slide_index_round_trip (i : nat) :
  parseInt (remove_first "slide_" ("slide_" +:+ pretty i)) = Some (Z.of_nat i).
Proof. rewrite remove_first_prefix. apply parseInt_pretty. Qed.

(** [addSpeakerNotes] on the slide with index [i] reads the deck exactly
    once and submits at most one operation list, the single insertion of the
    notes text.  It either returns, and then the service has accepted that
    insertion, or throws a [SpeakerNotesError] that carries the index [i],
    recovered from the slide identifier; no other error leaves it. *)
Theorem addSpeakerNotes_outcome (api : SlidesApi) (i : nat) (notes : string) (w : World) :
  let run := addSpeakerNotes api ("slide_" +:+ pretty i) notes w in
  gets (snd run) = S (gets w) /\
  (fst run = Return tt \/ fst run = Throw (SpeakerNotesError (Some (Z.of_nat i)))) /\
  (updates (snd run) = updates w \/
   exists shapeId, updates (snd run) = updates w ++ [[insertText shapeId notes]]) /\
  (fst run = Return tt ->
   exists shapeId,
     updates (snd run) = updates w ++ [[insertText shapeId notes]] /\
     api_batchUpdate api (length (updates w)) [insertText shapeId notes] = Return tt).
Proof.
  intros run. subst run.
  destruct (addSpeakerNotes_effect api ("slide_" +:+ pretty i) notes w)
    as [Hgets Hcases].
  rewrite slide_index_round_trip in Hcases.
  split; [exact Hgets|].
  destruct Hcases as [(Hr & shapeId & Hup & Hok) | (Hr & Hup)].
  - split; [now left|]. split; [right; now exists shapeId|].
    intros _. now exists shapeId.
  - split; [now right|]. split; [exact Hup|].
    rewrite Hr. discriminate.
Qed.

(** A run is rejected in two cases only: the credential is not valid, or
    the deck cannot be read.  It is rejected with the error of that step, and
    no operation has been submitted by then. *)
Theorem addSlidesToPresentation_rejected_iff
    (parseURL : string -> option URL) (domains : list string) (api : SlidesApi)
    (auth : Completion unit) (slideContents : list SlideContent)
    (options : CreatePresentationOptions) (w : World) (e : JsError) :
  let run := addSlidesToPresentation parseURL domains api auth slideContents options w in
  (fst run = Throw e <->
   auth = Throw e \/ (auth = Return tt /\ api_get api (gets w) = Throw e)) /\
  (forall e', fst run = Throw e' -> updates (snd run) = updates w).
Proof.
  intros run. subst run. destruct auth as [[]|e0].
  - destruct (api_get api (gets w)) as [p|e1] eqn:Hget.
    + rewrite (addSlidesToPresentation_closed parseURL domains api slideContents
                 options w p Hget). cbn [fst snd].
      split; [|discriminate]. split; [discriminate|].
      intros [H | [_ H]]; discriminate H.
    + unfold addSlidesToPresentation, addSlidesToPresentationWith, bind, lift.
      fold (validateSlideContent slideContents).
      rewrite validateSlideContent_returns.
      unfold presentations_get. rewrite Hget. cbn [fst snd updates].
      split; [|reflexivity]. split.
      * intros [= <-]. right. now split.
      * intros [H | [_ H]]; [discriminate H | now injection H as ->].
  - unfold addSlidesToPresentation, addSlidesToPresentationWith, bind, lift.
    cbn [fst snd]. split; [|reflexivity]. split.
    + intros [= <-]. now left.
    + intros [H | [H _]]; [now injection H as -> | discriminate H].
Qed.

(** The outcome of a run that returns counts every slide it was given as a
    success and names no failed slide, whatever the service answered to the
    batches and to the notes. *)
Theorem outcome_counts_every_slide
    (parseURL : string -> option URL) (domains : list string) (api : SlidesApi)
    (auth : Completion unit) (slideContents : list SlideContent)
    (options : CreatePresentationOptions) (w : World) (o : Outcome) :
  fst (addSlidesToPresentation parseURL domains api auth slideContents options w)
    = Return o ->
  successCount o = Z.of_nat (length slideContents) /\ failedSlides o = [].
Proof.
  destruct auth as [[]|e0];
    [|unfold addSlidesToPresentation, addSlidesToPresentationWith, bind, lift;
      discriminate].
  destruct (api_get api (gets w)) as [p|e1] eqn:Hget.
  - rewrite (addSlidesToPresentation_closed parseURL domains api slideContents
               options w p Hget). cbn [fst].
    intros [= <-]. split; reflexivity.
  - unfold addSlidesToPresentation, addSlidesToPresentationWith, bind, lift.
    fold (validateSlideContent slideContents).
    rewrite validateSlideContent_returns.
    unfold presentations_get. rewrite Hget. discriminate.
Qed.

Lemma outcome_counts_every_slide_witness :
  exists o,
    fst (addSlidesToPresentation parseURL_basic TRUSTED_IMAGE_DOMAINS refusing_api
           (Return tt) [full_slide; title_only "Recap"] default_options World0)
      = Return o /\
    successCount o = 2 /\ failedSlides o = [].
Proof.
  destruct (fst (addSlidesToPresentation parseURL_basic TRUSTED_IMAGE_DOMAINS
                   refusing_api (Return tt) [full_slide; title_only "Recap"]
                   default_options World0)) as [o|e] eqn:Hrun;
    [|vm_compute in Hrun; discriminate Hrun].
  exists o. split; [reflexivity|].
  exact (outcome_counts_every_slide parseURL_basic TRUSTED_IMAGE_DOMAINS
           refusing_api (Return tt) [full_slide; title_only "Recap"]
           default_options World0 o Hrun).
Defined.

(** An image operation of the compiled script carries the image reference of
    one of the slides. *)
Lemma createSlideRequests_images (content : SlideContent) (index : nat)
    (colorTheme : option ColorTheme) (requests : list Request)
    (url : string) (props : ElementProperties) :
  createSlideRequests content index colorTheme = Return requests ->
  In (createImage url props) requests ->
  imageUrl content = Some url /\ url <> "".
Proof.
  unfold createSlideRequests. intros [= <-] Hin.
  destruct (truthy (imageUrl content)) eqn:Hu.
  - assert (Hd : default "" (imageUrl content) = url).
    { destruct (truthy (title content)), (truthy (subtitle content)),
        (truthy (text content)), (nonEmptyArray (bulletPoints content)),
        (nonEmptyArray (questions content));
        cbn [app In] in Hin;
        repeat (destruct Hin as [Hin|Hin]; [try discriminate Hin|]);
        try (exfalso; exact Hin); now injection Hin as ->. }
    destruct (imageUrl content) as [u|]; [|discriminate Hu].
    cbn in Hd. subst u. split; [reflexivity|].
    intros ->. discriminate Hu.
  - destruct (truthy (title content)), (truthy (subtitle content)),
      (truthy (text content)), (nonEmptyArray (bulletPoints content)),
      (nonEmptyArray (questions content));
      cbn [app In] in Hin;
      repeat (destruct Hin as [Hin|Hin]; [discriminate Hin|]); destruct Hin.
Qed.

Lemma compile_from_images (colorTheme : option ColorTheme)
    (validatedSlides : list SlideContent) (url : string) (props : ElementProperties) :
  forall index acc,
    In (createImage url props)
       (acc_requests (compile_from colorTheme index validatedSlides acc)) ->
    In (createImage url props) (acc_requests acc) \/
    exists content,
      In content validatedSlides /\ imageUrl content = Some url /\ url <> "".
Proof.
  induction validatedSlides as [|content rest IH]; intros index acc Hin.
  - now left.
  - cbn [compile_from] in Hin.
    destruct (createSlideRequests_returns content index colorTheme) as [rs Hrs].
    rewrite Hrs in Hin. apply IH in Hin. cbn [acc_requests] in Hin.
    destruct Hin as [Hin | (c & Hc & Hurl)].
    + apply in_app_iff in Hin. destruct Hin as [Hin|Hin]; [now left|].
      right. exists content. split; [now left|].
      now apply (createSlideRequests_images content index colorTheme rs url props).
    + right. exists c. split; [now right | exact Hurl].
Qed.

(** What the sanitization leaves as the image reference of a slide has
    passed [validateImageUrl]. *)
Lemma validateSlideImage_image (parseURL : string -> option URL)
    (domains : list string) (allowUntrusted : bool) (slide : SlideContent)
    (url : string) :
  imageUrl (validateSlideImage parseURL domains allowUntrusted slide) = Some url ->
  url = "" \/
  validateImageUrl parseURL domains (imageUrl slide) allowUntrusted = Return (Some url).
Proof.
  unfold validateSlideImage.
  destruct (truthy (imageUrl slide)) eqn:Ht; cbn [negb].
  - destruct (validateImageUrl parseURL domains (imageUrl slide) allowUntrusted)
      as [v|e]; cbn [with_imageUrl imageUrl]; [|discriminate].
    intros ->. now right.
  - intros Hurl. rewrite Hurl in Ht. cbn [truthy] in Ht.
    apply negb_false_iff, String.eqb_eq in Ht. now left.
Qed.

Lemma in_make_batches {A} (ops : list A) (batch : list A) (x : A) :
  In batch (make_batches ops) -> In x batch -> In x ops.
Proof.
  intros Hb Hx.
  assert (Hc : concat (make_batches ops) = ops).
  { rewrite make_batches_closed, (concat_batches_of ops (length ops) 0) by lia.
    reflexivity. }
  rewrite <- Hc. apply in_concat. eauto.
Qed.

Section RunCalls.

Variable parseURL : string -> option URL.
Variable domains : list string.
Variable api : SlidesApi.

(** The operation lists a run that has read the deck submits. *)
Lemma addSlidesToPresentation_updates (slideContents : list SlideContent)
    (options : CreatePresentationOptions) (w : World) (p : Presentation) :
  api_get api (gets w) = Return p ->
  exists inserted,
    updates (snd (addSlidesToPresentation parseURL domains api (Return tt)
                    slideContents options w)) =
      updates w ++
      make_batches
        (compiled_requests (colorTheme options)
           (head (default [] (slides p)) ≫= pg_objectId)
           (validateSlideImages parseURL domains slideContents
              (allowUntrustedImages options))) ++
      inserted /\
    Forall (fun batch => exists shapeId text, batch = [insertText shapeId text])
           inserted.
Proof.
  intros Hget.
  rewrite (addSlidesToPresentation_closed parseURL domains api slideContents
             options w p Hget). cbn [snd].
  match goal with
  | |- context [notes_outcome api 0 ?vs ?w1] =>
      destruct (notes_outcome_world api vs 0 w1) as (_ & inserted & Hup & _ & _ & Hall)
  end.
  cbn [updates] in Hup. exists inserted. rewrite Hup, <- app_assoc. auto.
Qed.

End RunCalls.

(** A run that has read the deck reads it once more for every slide with
    speaker notes.  It submits the compiled operations, cut into batches,
    and after them at most one list per slide with notes, each the
    insertion of one text. *)
Theorem remote_calls_of_a_run
    (parseURL : string -> option URL) (domains : list string) (api : SlidesApi)
    (slideContents : list SlideContent) (options : CreatePresentationOptions)
    (w : World) (p : Presentation) :
  api_get api (gets w) = Return p ->
  let run :=
    addSlidesToPresentation parseURL domains api (Return tt) slideContents options w in
  let ops :=
    compiled_requests (colorTheme options)
      (head (default [] (slides p)) ≫= pg_objectId)
      (validateSlideImages parseURL domains slideContents
         (allowUntrustedImages options)) in
  gets (snd run) = (gets w + 1 + slides_with_notes slideContents)%nat /\
  exists inserted,
    updates (snd run) = updates w ++ make_batches ops ++ inserted /\
    (length inserted <= slides_with_notes slideContents)%nat /\
    Forall (fun batch => exists shapeId text, batch = [insertText shapeId text])
           inserted.
Proof.
  intros Hget run ops. subst run.
  rewrite (addSlidesToPresentation_closed parseURL domains api slideContents
             options w p Hget). cbn [snd]. fold ops.
  destruct (notes_outcome_world api
              (validateSlideImages parseURL domains slideContents
                 (allowUntrustedImages options)) 0
              {| gets := S (gets w); updates := updates w ++ make_batches ops |})
    as (Hg & inserted & Hup & Hle & _ & Hall).
  rewrite validateSlideImages_notes in Hg, Hle. cbn [gets updates] in Hg, Hup.
  split; [lia|]. exists inserted. rewrite Hup, <- app_assoc. auto.
Qed.

Lemma remote_calls_of_a_run_witness :
  gets (snd (addSlidesToPresentation parseURL_basic TRUSTED_IMAGE_DOMAINS ok_api
               (Return tt) [full_slide; title_only "Recap"] default_options World0))
  = 2%nat.
Proof.
  destruct (remote_calls_of_a_run parseURL_basic TRUSTED_IMAGE_DOMAINS ok_api
              [full_slide; title_only "Recap"] default_options World0 blank_deck
              eq_refl) as [Hgets _].
  exact Hgets.
Defined.

(** Every image operation a run submits carries an https address that
    [validateImageUrl] returned; unless the options allow untrusted images,
    the address passes [isUrlTrusted]. *)
Theorem submitted_images_are_validated
    (parseURL : string -> option URL) (domains : list string) (api : SlidesApi)
    (auth : Completion unit) (slideContents : list SlideContent)
    (options : CreatePresentationOptions) (w : World)
    (batch : list Request) (url : string) (props : ElementProperties) :
  let run := addSlidesToPresentation parseURL domains api auth slideContents options w in
  In batch (drop (length (updates w)) (updates (snd run))) ->
  In (createImage url props) batch ->
  (exists rest, url = "https://" +:+ rest) /\
  (allowUntrustedImages options <> Some true ->
   isUrlTrusted parseURL domains url = true).
Proof.
  intros run Hbatch Himage. subst run.
  destruct auth as [[]|e0];
    [|unfold addSlidesToPresentation, addSlidesToPresentationWith, bind, lift in Hbatch;
      cbn [snd] in Hbatch; rewrite drop_all in Hbatch; destruct Hbatch].
  destruct (api_get api (gets w)) as [p|e1] eqn:Hget;
    [|unfold addSlidesToPresentation, addSlidesToPresentationWith, bind, lift in Hbatch;
      fold (validateSlideContent slideContents) in Hbatch;
      rewrite validateSlideContent_returns in Hbatch;
      unfold presentations_get in Hbatch; rewrite Hget in Hbatch;
      cbn [snd updates] in Hbatch; rewrite drop_all in Hbatch; destruct Hbatch].
  destruct (addSlidesToPresentation_updates parseURL domains api slideContents options
              w p Hget) as (inserted & Hup & Hall).
  rewrite Hup, drop_app_length in Hbatch.
  apply in_app_iff in Hbatch. destruct Hbatch as [Hbatch|Hbatch].
  - pose proof (in_make_batches _ _ _ Hbatch Himage) as Hops.
    unfold compiled_requests in Hops.
    apply compile_from_images in Hops. cbn [acc_requests] in Hops.
    destruct Hops as [Hinit | (content & Hcontent & Hurl & Hne)].
    { unfold initial_requests in Hinit. destruct (truthy _); cbn in Hinit;
        [destruct Hinit as [H|[]]; discriminate H | destruct Hinit]. }
    unfold validateSlideImages in Hcontent. apply in_map_iff in Hcontent.
    destruct Hcontent as (slide & <- & _).
    apply validateSlideImage_image in Hurl. destruct Hurl as [->|Hurl]; [contradiction|].
    split.
    + exact (validateImageUrl_returns _ _ _ _ _ Hurl).
    + intros Hallow.
      apply (proj2 (validateImageUrl_returns_href _ _ _ _ _ Hurl)).
      destruct (allowUntrustedImages options) as [[|]|]; [contradiction | | ]; reflexivity.
  - apply list_elem_of_In in Hbatch.
    rewrite Forall_forall in Hall. destruct (Hall batch Hbatch) as (s & t & ->).
    destruct Himage as [H|[]]. discriminate H.
Qed.

Lemma submitted_images_are_validated_witness :
  (exists rest, "https://images.unsplash.com/leaf.png" = "https://" +:+ rest) /\
  (allowUntrustedImages default_options <> Some true ->
   isUrlTrusted parseURL_basic TRUSTED_IMAGE_DOMAINS
     "https://images.unsplash.com/leaf.png" = true).
Proof.
  apply (submitted_images_are_validated parseURL_basic TRUSTED_IMAGE_DOMAINS ok_api
           (Return tt) [full_slide] default_options World0
           (match createSlideRequests full_slide 0 None with
            | Return rs => deleteObject "p" :: rs
            | Throw _ => []
            end)
           "https://images.unsplash.com/leaf.png"
           (text_box "slide_0" DEFAULT_IMAGE_HEIGHT_EMU DEFAULT_IMAGE_WIDTH_EMU
              IMAGE_POSITION_X_EMU IMAGE_POSITION_Y_EMU)).
  - vm_compute. left. reflexivity.
  - vm_compute. tauto.
Defined.

(** ** Every accepted image is submitted *)

Lemma createSlideRequests_has_image (content : SlideContent) (index : nat)
    (colorTheme : option ColorTheme) (url : string) :
  imageUrl content = Some url -> url <> "" ->
  exists requests props,
    createSlideRequests content index colorTheme = Return requests /\
    In (createImage url props) requests.
Proof.
  intros Hurl Hne. unfold createSlideRequests. rewrite Hurl. cbn [truthy default].
  apply String.eqb_neq in Hne. rewrite Hne. cbn [negb].
  eexists _, _. split; [reflexivity|].
  apply in_or_app. right. left. reflexivity.
Qed.

Lemma compile_from_keeps (colorTheme : option ColorTheme)
    (validatedSlides : list SlideContent) (r : Request) :
  forall index acc,
    In r (acc_requests acc) ->
    In r (acc_requests (compile_from colorTheme index validatedSlides acc)).
Proof.
  induction validatedSlides as [|content rest IH]; intros index acc Hin; [exact Hin|].
  cbn [compile_from].
  destruct (createSlideRequests_returns content index colorTheme) as [rs ->].
  apply IH. cbn [acc_requests]. apply in_or_app. now left.
Qed.

Lemma compile_from_has_image (colorTheme : option ColorTheme)
    (validatedSlides : list SlideContent) (content : SlideContent) (url : string) :
  In content validatedSlides -> imageUrl content = Some url -> url <> "" ->
  forall index acc,
    exists props,
      In (createImage url props)
         (acc_requests (compile_from colorTheme index validatedSlides acc)).
Proof.
  intros Hin Hurl Hne.
  induction validatedSlides as [|c rest IH]; intros index acc; [destruct Hin|].
  cbn [compile_from]. destruct Hin as [->|Hin].
  - destruct (createSlideRequests_has_image content index colorTheme url Hurl Hne)
      as (rs & props & -> & Hrs).
    exists props. apply compile_from_keeps. cbn [acc_requests].
    apply in_or_app. now right.
  - destruct (createSlideRequests_returns c index colorTheme) as [rs ->].
    now apply IH.
Qed.

Lemma in_some_batch {A} (ops : list A) (x : A) :
  In x ops -> exists batch, In batch (make_batches ops) /\ In x batch.
Proof.
  intros Hx.
  assert (Hc : concat (make_batches ops) = ops).
  { rewrite make_batches_closed, (concat_batches_of ops (length ops) 0) by lia.
    reflexivity. }
  rewrite <- Hc in Hx. apply in_concat in Hx. destruct Hx as (batch & Hb & Hx).
  now exists batch.
Qed.

(** Every image reference that [validateImageUrl] accepts is submitted: a
    run that has read the deck submits, for each slide whose image reference
    passes, an image operation with the validated address.  The
    [isPublicUrl] check takes no image away. *)
Theorem accepted_image_is_submitted
    (parseURL : string -> option URL) (domains : list string) (api : SlidesApi)
    (slideContents : list SlideContent) (options : CreatePresentationOptions)
    (w : World) (p : Presentation) (slide : SlideContent) (validatedUrl : string) :
  api_get api (gets w) = Return p ->
  In slide slideContents ->
  validateImageUrl parseURL domains (imageUrl slide)
    (default false (allowUntrustedImages options)) = Return (Some validatedUrl) ->
  let run :=
    addSlidesToPresentation parseURL domains api (Return tt) slideContents options w in
  exists batch props,
    In batch (drop (length (updates w)) (updates (snd run))) /\
    In (createImage validatedUrl props) batch.
Proof.
  intros Hget Hslide Hvalid run. subst run.
  destruct (addSlidesToPresentation_updates parseURL domains api slideContents options
              w p Hget) as (inserted & Hup & _).
  rewrite Hup, drop_app_length.
  destruct (validateImageUrl_returns _ _ _ _ _ Hvalid) as [rest Hrest].
  assert (Hne : validatedUrl <> "").
  { rewrite Hrest. discriminate. }
  assert (Htruthy : truthy (imageUrl slide) = true).
  { revert Hvalid. unfold validateImageUrl, truthy.
    destruct (imageUrl slide) as [u|]; [|discriminate].
    destruct (String.eqb u ""); [discriminate | reflexivity]. }
  assert (Himage :
    imageUrl (validateSlideImage parseURL domains
                (default false (allowUntrustedImages options)) slide)
    = Some validatedUrl).
  { unfold validateSlideImage. rewrite Htruthy, Hvalid. reflexivity. }
  destruct (compile_from_has_image (colorTheme options)
              (validateSlideImages parseURL domains slideContents
                 (allowUntrustedImages options))
              _ validatedUrl
              (in_map _ _ _ Hslide) Himage Hne 0%nat
              {| acc_requests :=
                   initial_requests (head (default [] (slides p)) ≫= pg_objectId);
                 acc_failedSlides := []; acc_warnings := [] |}) as [props Hin].
  destruct (in_some_batch _ _ Hin) as (batch & Hbatch & Hx).
  exists batch, props. split; [|exact Hx].
  apply in_or_app. left. exact Hbatch.
Qed.

Lemma accepted_image_is_submitted_witness :
  isPublicUrl parse_private "https://172.20.0.7/logo.png" = false /\
  exists batch props,
    In batch
       (drop (length (updates World0))
          (updates
             (snd (addSlidesToPresentation parse_private TRUSTED_IMAGE_DOMAINS ok_api
                     (Return tt) [image_slide_of "Logo" "http://172.20.0.7/logo.png"]
                     untrusted_allowed World0)))) /\
    In (createImage "https://172.20.0.7/logo.png" props) batch.
Proof.
  split; [vm_compute; reflexivity|].
  apply (accepted_image_is_submitted parse_private TRUSTED_IMAGE_DOMAINS ok_api
           [image_slide_of "Logo" "http://172.20.0.7/logo.png"] untrusted_allowed
           World0 blank_deck (image_slide_of "Logo" "http://172.20.0.7/logo.png")).
  - reflexivity.
  - left. reflexivity.
  - vm_compute. reflexivity.
Defined.

(* ===================================================================== *)
(** * Further properties of the rate limiter *)
(* ===================================================================== *)

Lemma cleanup_lookup (t : Z) (store : gmap string RateLimitRecord) (k : string) :
  cleanup t store !! k =
  match store !! k with
  | Some r => if resetTime r <? t then None else Some r
  | None => None
  end.
Proof.
  unfold cleanup. rewrite map_lookup_filter.
  destruct (store !! k) as [r|]; cbn; [|reflexivity].
  case_guard as Hkeep; cbn in *;
    destruct (Z.ltb_spec (resetTime r) t); try reflexivity; lia.
Qed.

Lemma swept_of_cleanup (t : Z) (store : gmap string RateLimitRecord) :
  swept_of t (cleanup t store) store.
Proof.
  intros k. rewrite cleanup_lookup. destruct (store !! k) as [r|]; [|now left].
  destruct (Z.ltb_spec (resetTime r) t); [right | now left].
  split; [reflexivity|]. now exists r.
Qed.

Lemma swept_of_current (t now : Z) (options : RateLimitOptions)
    (store1 store2 : gmap string RateLimitRecord) (k : string) :
  swept_of t store1 store2 -> t <= now ->
  current_record options now (store1 !! k) = current_record options now (store2 !! k).
Proof.
  intros Hsw Hnow. destruct (Hsw k) as [-> | (-> & r & -> & Hr)]; [reflexivity|].
  unfold current_record. destruct (Z.ltb_spec (resetTime r) now); [reflexivity | lia].
Qed.

Lemma swept_of_rateLimit (t : Z) (a : Attempt)
    (store1 store2 : gmap string RateLimitRecord) :
  swept_of t store1 store2 -> t <= at_now a ->
  snd (rateLimit (at_options a) (at_req a) (at_now a) store1) =
    snd (rateLimit (at_options a) (at_req a) (at_now a) store2) /\
  swept_of t (fst (rateLimit (at_options a) (at_req a) (at_now a) store1))
             (fst (rateLimit (at_options a) (at_req a) (at_now a) store2)).
Proof.
  intros Hsw Hnow. split.
  - apply rateLimit_response_current. now apply (swept_of_current t).
  - destruct (skip (at_options a) (at_req a)) eqn:Hskip.
    + unfold rateLimit. rewrite Hskip. exact Hsw.
    + destruct (is_prototype_key (keyGenerator (at_options a) (at_req a))) eqn:Hkey;
        [now rewrite !rateLimit_prototype_key|].
      rewrite !rateLimit_store by assumption.
      rewrite (swept_of_current t (at_now a) (at_options a) store1 store2 _ Hsw Hnow).
      intros k. destruct (decide (k = keyGenerator (at_options a) (at_req a))) as [->|Hk].
      * left. now rewrite !lookup_insert_eq.
      * rewrite !lookup_insert_ne by congruence. apply Hsw.
Qed.

Lemma swept_of_run_attempts (t : Z) (attempts : list Attempt) :
  forall store1 store2,
    swept_of t store1 store2 ->
    Forall (fun a => t <= at_now a) attempts ->
    snd (run_attempts attempts store1) = snd (run_attempts attempts store2) /\
    swept_of t (fst (run_attempts attempts store1)) (fst (run_attempts attempts store2)).
Proof.
  induction attempts as [|a rest IH]; intros store1 store2 Hsw Hall.
  - split; [reflexivity | exact Hsw].
  - inversion Hall as [|? ? Ha Hrest]; subst.
    rewrite !run_attempts_cons. cbn [fst snd].
    destruct (swept_of_rateLimit t a store1 store2 Hsw Ha) as [Hresp Hsw'].
    destruct (IH _ _ Hsw' Hrest) as [Hresps Hsw''].
    split; [now rewrite Hresp, Hresps | exact Hsw''].
Qed.

(** The periodic sweep deletes exactly the records whose window is over and
    leaves the others as they are; it changes the response to no call made
    afterwards, through whatever limiter, and the stores with and without
    the sweep keep differing only in records that were over when it ran. *)
Theorem sweep_changes_no_response
    (swept : Z) (store : gmap string RateLimitRecord) (attempts : list Attempt) :
  Forall (fun a => swept <= at_now a) attempts ->
  (forall k,
      cleanup swept store !! k =
      match store !! k with
      | Some r => if resetTime r <? swept then None else Some r
      | None => None
      end) /\
  snd (run_attempts attempts (cleanup swept store)) = snd (run_attempts attempts store) /\
  swept_of swept (fst (run_attempts attempts (cleanup swept store)))
                 (fst (run_attempts attempts store)).
Proof.
  intros Hall. split; [apply cleanup_lookup|].
  apply swept_of_run_attempts; [apply swept_of_cleanup | exact Hall].
Qed.

Lemma sweep_changes_no_response_witness :
  snd (run_attempts
         (attempts_at presentationCreationRateLimit
            {| session_userId := Some "u1"; ip := None; remoteAddress := None |}
            [600000; 600001])
         (cleanup 600000 {[ "u1" := {| count := 6; resetTime := 300000 |};
                            "u2" := {| count := 2; resetTime := 700000 |} ]})) =
  snd (run_attempts
         (attempts_at presentationCreationRateLimit
            {| session_userId := Some "u1"; ip := None; remoteAddress := None |}
            [600000; 600001])
         {[ "u1" := {| count := 6; resetTime := 300000 |};
            "u2" := {| count := 2; resetTime := 700000 |} ]}).
Proof.
  apply (sweep_changes_no_response 600000
           {[ "u1" := {| count := 6; resetTime := 300000 |};
              "u2" := {| count := 2; resetTime := 700000 |} ]}
           (attempts_at presentationCreationRateLimit
              {| session_userId := Some "u1"; ip := None; remoteAddress := None |}
              [600000; 600001])).
  repeat constructor; cbn; lia.
Defined.

(** The store is keyed by the identity alone.  For an identity that is not
    the name of a property of [Object.prototype]: when a limiter has opened a
    window for it and taken some calls in it, a call of the same
    identity through another limiter, made before that window is over,
    counts on the same record: it is admitted exactly when the calls taken so
    far plus one do not exceed its own [maxRequests], and the window stays
    the one the first limiter opened. *)
Theorem limiters_share_the_record
    (first other : RateLimitOptions) (req req' : Request_)
    (t0 : Z) (times : list Z) (t : Z) (store : gmap string RateLimitRecord) :
  skip first req = false ->
  skip other req' = false ->
  keyGenerator other req' = keyGenerator first req ->
  is_prototype_key (keyGenerator first req) = false ->
  (store !! keyGenerator first req = None \/
   exists r, store !! keyGenerator first req = Some r /\ resetTime r < t0) ->
  Forall (fun t' => t' <= t0 + windowSeconds first * 1000) times ->
  t <= t0 + windowSeconds first * 1000 ->
  let store' := fst (run_attempts (attempts_at first req (t0 :: times)) store) in
  (admitted (snd (rateLimit other req' t store')) = true <->
   Z.of_nat (length times) + 2 <= maxRequests other) /\
  fst (rateLimit other req' t store') !! keyGenerator first req =
    Some {| count := Z.of_nat (length times) + 2;
            resetTime := t0 + windowSeconds first * 1000 |}.
Proof.
  intros Hskip Hskip' Hkey Hown Hfresh Hall Ht store'.
  assert (Hown' : is_prototype_key (keyGenerator other req') = false)
    by now rewrite Hkey.
  assert (Hstore' : store' !! keyGenerator first req =
            Some {| count := 1 + Z.of_nat (length times);
                    resetTime := t0 + windowSeconds first * 1000 |}).
  { subst store'. unfold attempts_at. cbn [map]. fold (attempts_at first req times).
    rewrite run_attempts_cons. cbn [fst at_options at_req at_now].
    destruct (rateLimit_fresh first req Hskip Hown t0 store Hfresh) as [-> _].
    destruct (run_attempts_active first req Hskip Hown times
                (<[keyGenerator first req :=
                     {| count := 1; resetTime := t0 + windowSeconds first * 1000 |}]> store)
                {| count := 1; resetTime := t0 + windowSeconds first * 1000 |})
      as [Hfinal _]; [apply lookup_insert_eq | exact Hall | exact Hfinal]. }
  rewrite <- Hkey in Hstore'.
  destruct (rateLimit_active other req' Hskip' Hown' t store' _ Hstore' Ht)
    as (Hfst & Hadmit & Hreject).
  cbn [count resetTime] in Hadmit, Hreject.
  split.
  - split.
    + intros Ha.
      destruct (Z.le_gt_cases (Z.of_nat (length times) + 2) (maxRequests other))
        as [Hle|Hgt]; [exact Hle|].
      destruct Hreject as (h & msg & Hr); [lia|]. rewrite Hr in Ha. discriminate Ha.
    + intros Hle. apply Hadmit. lia.
  - rewrite Hfst, <- Hkey, lookup_insert_eq. unfold bump. cbn [count resetTime].
    do 2 f_equal. lia.
Qed.

Lemma limiters_share_the_record_witness :
  admitted
    (snd (rateLimit presentationCreationRateLimit
            {| session_userId := Some "u1"; ip := None; remoteAddress := None |} 5000
            (fst (run_attempts
                    (attempts_at generalApiRateLimit
                       {| session_userId := Some "u1"; ip := None;
                          remoteAddress := None |}
                       [0; 1000; 2000; 3000; 4000]) ∅)))) = true <->
  Z.of_nat (length [1000; 2000; 3000; 4000]) + 2 <=
    maxRequests presentationCreationRateLimit.
Proof.
  apply (limiters_share_the_record generalApiRateLimit presentationCreationRateLimit
           {| session_userId := Some "u1"; ip := None; remoteAddress := None |}
           {| session_userId := Some "u1"; ip := None; remoteAddress := None |}
           0 [1000; 2000; 3000; 4000] 5000 ∅).
  - reflexivity.
  - reflexivity.
  - reflexivity.
  - reflexivity.
  - left. apply lookup_empty.
  - repeat constructor; cbn; lia.
  - cbn. lia.
Defined.

(** ** How many calls a key gets through in a span of time *)

Section Span.

Variable options : RateLimitOptions.
Variable req : Request_.
Hypothesis Hskip : skip options req = false.
Hypothesis Hkey : is_prototype_key (keyGenerator options req) = false.
Hypothesis Hmax : 1 <= maxRequests options.

Let key := keyGenerator options req.



End Span.




(* ===================================================================== *)
(** * Further properties of the token refresh *)
(* ===================================================================== *)

Lemma locks_match_jobs_set_caller (i : nat) (c : Caller) (s : State) :
  locks_match_jobs s -> locks_match_jobs (set_caller i c s).
Proof. intros H. exact H. Qed.

Lemma locks_match_jobs_call (i : nat) (user : Profile) (now : Z) (s : State) :
  locks_match_jobs s -> locks_match_jobs (call i user now s).
Proof.
  intros (Hlock & Hjob & Hlen). unfold call.
  destruct (_ || _); [now apply locks_match_jobs_set_caller|].
  destruct (negb _); [now apply locks_match_jobs_set_caller|].
  destruct (refreshLocks s !! id user) as [p|] eqn:Hnone;
    [now apply locks_match_jobs_set_caller|].
  unfold locks_match_jobs. cbn [refreshLocks jobs providerCalls]. split; [|split].
  - intros uid p Hp. destruct (decide (uid = id user)) as [->|Hne].
    + rewrite lookup_insert_eq in Hp. injection Hp as <-.
      exists (AwaitProvider user), user.
      split; [|now split]. rewrite lookup_app_r by lia.
      now rewrite Nat.sub_diag.
    + rewrite lookup_insert_ne in Hp by congruence.
      destruct (Hlock uid p Hp) as (j & u & Hj & Hu & Hid).
      exists j, u. split; [|now split]. rewrite lookup_app_l; [exact Hj|].
      now apply lookup_lt_Some in Hj.
  - intros p j u Hp Hu.
    destruct (Nat.lt_ge_cases p (length (jobs s))) as [Hlt|Hge].
    + rewrite lookup_app_l in Hp by exact Hlt.
      pose proof (Hjob p j u Hp Hu) as Hl.
      destruct (decide (id u = id user)) as [Heq|Hne]; [congruence|].
      now rewrite lookup_insert_ne by congruence.
    + rewrite lookup_app_r in Hp by exact Hge.
      destruct (p - length (jobs s))%nat as [|k] eqn:Hk; cbn in Hp; [|discriminate Hp].
      injection Hp as <-. cbn in Hu. injection Hu as <-.
      rewrite lookup_insert_eq. f_equal. lia.
  - rewrite !length_app. cbn. lia.
Qed.

Lemma locks_match_jobs_progress (p : nat) (user : Profile) (credentials : Credentials)
    (s : State) :
  jobs s !! p = Some (AwaitProvider user) ->
  locks_match_jobs s ->
  locks_match_jobs
    {| refreshLocks := refreshLocks s;
       jobs := <[p := AwaitUpdate user credentials]> (jobs s);
       profiles := profiles s; callers := callers s;
       providerCalls := providerCalls s |}.
Proof.
  intros Hp (Hlock & Hjob & Hlen). pose proof (lookup_lt_Some _ _ _ Hp) as Hlt.
  unfold locks_match_jobs. cbn [refreshLocks jobs providerCalls]. split; [|split].
  - intros uid q Hq. destruct (Hlock uid q Hq) as (j & u & Hj & Hu & Hid).
    destruct (decide (q = p)) as [->|Hne].
    + rewrite Hp in Hj. injection Hj as <-. cbn in Hu. injection Hu as <-.
      exists (AwaitUpdate user credentials), user.
      split; [now apply list_lookup_insert_eq | now split].
    + exists j, u. split; [|now split]. now rewrite list_lookup_insert_ne by congruence.
  - intros q j u Hq Hu. destruct (decide (q = p)) as [->|Hne].
    + rewrite list_lookup_insert_eq in Hq by exact Hlt. injection Hq as <-.
      cbn in Hu. injection Hu as <-. now apply (Hjob p (AwaitProvider user) user).
    + rewrite list_lookup_insert_ne in Hq by congruence. now apply (Hjob q j u).
  - now rewrite length_insert.
Qed.

Lemma locks_match_jobs_settle (p : nat) (user : Profile) (j0 j : Job)
    (profiles' : gmap string Profile) (s : State) :
  jobs s !! p = Some j0 -> job_user j0 = Some user -> job_user j = None ->
  locks_match_jobs s ->
  locks_match_jobs (settle p user j profiles' s).
Proof.
  intros Hp Hu0 Hj (Hlock & Hjob & Hlen). pose proof (lookup_lt_Some _ _ _ Hp) as Hlt.
  pose proof (Hjob p j0 user Hp Hu0) as Hmine.
  unfold locks_match_jobs, settle. cbn [refreshLocks jobs providerCalls].
  split; [|split].
  - intros uid q Hq. apply lookup_delete_Some in Hq as [Hne Hq].
    destruct (Hlock uid q Hq) as (j' & u & Hj' & Hu & Hid).
    assert (q <> p).
    { intros ->. rewrite Hp in Hj'. injection Hj' as <-. congruence. }
    exists j', u. split; [|now split]. now rewrite list_lookup_insert_ne by congruence.
  - intros q j' u Hq Hu. destruct (decide (q = p)) as [->|Hne].
    + rewrite list_lookup_insert_eq in Hq by exact Hlt. injection Hq as <-. congruence.
    + rewrite list_lookup_insert_ne in Hq by congruence.
      pose proof (Hjob q j' u Hq Hu) as Hl.
      assert (id u <> id user) by (intros Heq; rewrite Heq in Hl; congruence).
      now rewrite lookup_delete_ne by congruence.
  - now rewrite length_insert.
Qed.

Lemma step_locks_match_jobs (s s' : State) (e : Event) :
  step s e = Some s' -> locks_match_jobs s -> locks_match_jobs s'.
Proof.
  intros Hstep Hinv. destruct e as [i now|p r|p r|i|i r]; cbn [step] in Hstep.
  - destruct (callers s !! i) as [[user| | |]|]; try discriminate Hstep.
    injection Hstep as <-. now apply locks_match_jobs_call.
  - destruct (jobs s !! p) as [[user| | |]|] eqn:Hp; try discriminate Hstep.
    destruct r as [credentials|err]; injection Hstep as <-.
    + now apply locks_match_jobs_progress.
    + now apply (locks_match_jobs_settle p user (AwaitProvider user)).
  - destruct (jobs s !! p) as [[|user credentials| |]|] eqn:Hp; try discriminate Hstep.
    destruct r as [[]|err]; injection Hstep as <-;
      now apply (locks_match_jobs_settle p user (AwaitUpdate user credentials)).
  - destruct (callers s !! i) as [[|user p| |]|]; try discriminate Hstep.
    destruct (jobs s !! p) as [[| | |err]|]; try discriminate Hstep;
      injection Hstep as <-; exact Hinv.
  - destruct (callers s !! i) as [[| |user|]|]; try discriminate Hstep.
    destruct r as [[]|err]; [destruct (profiles s !! id user)|];
      injection Hstep as <-; exact Hinv.
Qed.

Lemma exec_locks_match_jobs (evs : list Event) :
  forall s s', exec s evs = Some s' -> locks_match_jobs s -> locks_match_jobs s'.
Proof.
  induction evs as [|e rest IH]; intros s s' Hexec Hinv; cbn [exec] in Hexec.
  - now injection Hexec as <-.
  - destruct (step s e) as [s1|] eqn:Hstep; [|discriminate Hexec].
    apply (IH s1 s' Hexec). now apply (step_locks_match_jobs s s1 e).
Qed.

Lemma quiet_locks_match_jobs (s : State) : quiet s -> locks_match_jobs s.
Proof.
  intros (Hl & Hj & Hp & _). unfold locks_match_jobs. rewrite Hl, Hj, Hp.
  split; [|split]; [intros uid p H | intros p j u H | reflexivity].
  - rewrite lookup_empty in H. discriminate H.
  - discriminate H.
Qed.

(** Whatever the callers, the principals and the schedule: at no time are
    two refresh jobs of one principal in flight.  A principal has a lock
    exactly while a job of its own is in flight, and the provider has been
    called once for each job started. *)
Theorem refresh_mutual_exclusion (s0 : State) (evs : list Event) (s : State) :
  quiet s0 ->
  exec s0 evs = Some s ->
  (forall p q jp jq up uq,
      jobs s !! p = Some jp -> job_user jp = Some up ->
      jobs s !! q = Some jq -> job_user jq = Some uq ->
      id up = id uq -> p = q) /\
  (forall uid,
      is_Some (refreshLocks s !! uid) <->
      exists p j user,
        jobs s !! p = Some j /\ job_user j = Some user /\ id user = uid) /\
  length (providerCalls s) = length (jobs s).
Proof.
  intros Hquiet Hexec.
  destruct (exec_locks_match_jobs evs s0 s Hexec (quiet_locks_match_jobs s0 Hquiet))
    as (Hlock & Hjob & Hlen).
  split; [|split; [|exact Hlen]].
  - intros p q jp jq up uq Hp Hup Hq Huq Hid.
    pose proof (Hjob p jp up Hp Hup) as H1.
    pose proof (Hjob q jq uq Hq Huq) as H2.
    rewrite Hid in H1. congruence.
  - intros uid. split.
    + intros [p Hp]. destruct (Hlock uid p Hp) as (j & u & Hj & Hu & Hid).
      now exists p, j, u.
    + intros (p & j & u & Hj & Hu & <-). exists p. now apply (Hjob p j u).
Qed.

Lemma refresh_mutual_exclusion_witness :
  match exec two_principals interleaved_schedule with
  | Some s =>
      (forall p q jp jq up uq,
          jobs s !! p = Some jp -> job_user jp = Some up ->
          jobs s !! q = Some jq -> job_user jq = Some uq ->
          id up = id uq -> p = q) /\
      (forall uid,
          is_Some (refreshLocks s !! uid) <->
          exists p j user,
            jobs s !! p = Some j /\ job_user j = Some user /\ id user = uid) /\
      length (providerCalls s) = length (jobs s)
  | None => False
  end.
Proof.
  assert (Hruns : length <$> (jobs <$> exec two_principals interleaved_schedule)
                  = Some 3%nat) by (vm_compute; reflexivity).
  destruct (exec two_principals interleaved_schedule) as [s|] eqn:Hexec;
    [|discriminate Hruns].
  apply (refresh_mutual_exclusion two_principals interleaved_schedule s).
  - unfold quiet, two_principals. cbn. repeat split; try reflexivity.
    repeat constructor; eauto.
  - exact Hexec.
Defined.

(** ** What a call can end with *)

Lemma callers_ok_insert (i : nat) (c : Caller) (l : list Caller) :
  (forall r, c = Done r -> result_ok r) ->
  Forall (fun c => forall r, c = Done r -> result_ok r) l ->
  Forall (fun c => forall r, c = Done r -> result_ok r) (<[i := c]> l).
Proof.
  intros Hc Hl. destruct (Nat.lt_ge_cases i (length l)) as [Hlt|Hge].
  - now apply Forall_insert.
  - now rewrite list_insert_ge by lia.
Qed.

Lemma step_results_ok (s s' : State) (e : Event) :
  step s e = Some s' ->
  Forall (fun c => forall r, c = Done r -> result_ok r) (callers s) ->
  Forall (fun c => forall r, c = Done r -> result_ok r) (callers s').
Proof.
  intros Hstep Hinv. destruct e as [i now|p r|p r|i|i r]; cbn [step] in Hstep.
  - destruct (callers s !! i) as [[user| | |]|]; try discriminate Hstep.
    injection Hstep as <-. unfold call.
    destruct (_ || _);
      [apply callers_ok_insert; [intros r [= <-]; now left | exact Hinv]|].
    destruct (negb _);
      [apply callers_ok_insert; [intros r [= <-]; right; right; eauto | exact Hinv]|].
    destruct (refreshLocks s !! id user);
      (apply callers_ok_insert; [discriminate | exact Hinv]).
  - destruct (jobs s !! p) as [[user| | |]|]; try discriminate Hstep.
    destruct r; injection Hstep as <-; exact Hinv.
  - destruct (jobs s !! p) as [[|user credentials| |]|]; try discriminate Hstep.
    destruct r as [[]|err]; injection Hstep as <-; exact Hinv.
  - destruct (callers s !! i) as [[|user p| |]|]; try discriminate Hstep.
    destruct (jobs s !! p) as [[| | |err]|]; try discriminate Hstep;
      injection Hstep as <-;
      (apply callers_ok_insert; [|exact Hinv]);
      [discriminate | intros r [= <-]; right; now left].
  - destruct (callers s !! i) as [[| |user|]|]; try discriminate Hstep.
    destruct r as [[]|err]; [destruct (profiles s !! id user) as [updatedUser|]|];
      injection Hstep as <-;
      (apply callers_ok_insert; [|exact Hinv]); intros r [= <-].
    + right. right. eauto.
    + right. now left.
    + right. now left.
Qed.

Lemma exec_results_ok (evs : list Event) :
  forall s s',
    exec s evs = Some s' ->
    Forall (fun c => forall r, c = Done r -> result_ok r) (callers s) ->
    Forall (fun c => forall r, c = Done r -> result_ok r) (callers s').
Proof.
  induction evs as [|e rest IH]; intros s s' Hexec Hinv; cbn [exec] in Hexec.
  - now injection Hexec as <-.
  - destruct (step s e) as [s1|] eqn:Hstep; [|discriminate Hexec].
    apply (IH s1 s' Hexec). now apply (step_results_ok s s1 e).
Qed.

(** Whatever the schedule, a call of [getOAuth2Client] ends in one of three
    ways: with [GoogleAuthError], with [TokenExpiredError], or with a profile
    and the credentials read from that very profile.  The error of a failed
    refresh and the error of a profile that is gone never reach the
    caller as such. *)
Theorem call_results (s0 : State) (evs : list Event) (s : State)
    (i : nat) (r : Completion (Credentials * Profile)) :
  quiet s0 ->
  exec s0 evs = Some s ->
  callers s !! i = Some (Done r) ->
  r = Throw GoogleAuthError \/ r = Throw TokenExpiredError \/
  exists updatedUser, r = Return (credentials_of updatedUser, updatedUser).
Proof.
  intros (_ & _ & _ & Hidle) Hexec Hi.
  assert (Hinv : Forall (fun c => forall r, c = Done r -> result_ok r) (callers s)).
  { apply (exec_results_ok evs s0 s Hexec).
    eapply Forall_impl; [exact Hidle|].
    intros c [user ->] r0 H. discriminate H. }
  rewrite Forall_forall in Hinv.
  apply (Hinv (Done r)); [|reflexivity].
  apply list_elem_of_lookup. now exists i.
Qed.

Lemma call_results_witness :
  let r : Completion (Credentials * Profile) := Throw TokenExpiredError in
  r = Throw GoogleAuthError \/ r = Throw TokenExpiredError \/
  exists updatedUser, r = Return (credentials_of updatedUser, updatedUser).
Proof.
  assert (Hruns : (fun s => callers s !! 1%nat) <$> exec two_principals interleaved_schedule
                  = Some (Some (Done (Throw TokenExpiredError))))
    by (vm_compute; reflexivity).
  destruct (exec two_principals interleaved_schedule) as [s|] eqn:Hexec;
    [|discriminate Hruns].
  cbn in Hruns. injection Hruns as Hcaller.
  apply (call_results two_principals interleaved_schedule s 1%nat
           (Throw TokenExpiredError)).
  - unfold quiet, two_principals. cbn. repeat split; try reflexivity.
    repeat constructor; eauto.
  - exact Hexec.
  - exact Hcaller.
Defined.

(** ** When the profile table is written *)

Lemma step_table (db : gmap string Profile) (s s' : State) (e : Event) :
  step s e = Some s' ->
  (profiles s = db \/ exists p, jobs s !! p = Some Fulfilled) ->
  (profiles s' = db \/ exists p, jobs s' !! p = Some Fulfilled).
Proof.
  intros Hstep Hinv.
  assert (Hkeep : forall p j0 j,
            jobs s !! p = Some j0 -> j0 <> Fulfilled ->
            (exists q, jobs s !! q = Some Fulfilled) ->
            exists q, <[p := j]> (jobs s) !! q = Some Fulfilled).
  { intros p j0 j Hp Hne [q Hq]. exists q.
    rewrite list_lookup_insert_ne; [exact Hq|]. intros ->. congruence. }
  destruct e as [i now|p r|p r|i|i r]; cbn [step] in Hstep.
  - destruct (callers s !! i) as [[user| | |]|]; try discriminate Hstep.
    injection Hstep as <-. unfold call.
    destruct (_ || _); [exact Hinv|]. destruct (negb _); [exact Hinv|].
    destruct (refreshLocks s !! id user); [exact Hinv|].
    cbn [profiles jobs]. destruct Hinv as [Hdb | [q Hq]]; [now left|].
    right. exists q. rewrite lookup_app_l; [exact Hq|]. now apply lookup_lt_Some in Hq.
  - destruct (jobs s !! p) as [[user| | |]|] eqn:Hp; try discriminate Hstep.
    destruct r as [credentials|err]; injection Hstep as <-; cbn [settle profiles jobs];
      (destruct Hinv as [Hdb | Hful]; [now left|]); right;
      now apply (Hkeep p (AwaitProvider user)).
  - destruct (jobs s !! p) as [[|user credentials| |]|] eqn:Hp; try discriminate Hstep.
    destruct r as [[]|err]; injection Hstep as <-; cbn [settle profiles jobs].
    + right. exists p. apply list_lookup_insert_eq. now apply lookup_lt_Some in Hp.
    + destruct Hinv as [Hdb | Hful]; [now left|]. right.
      now apply (Hkeep p (AwaitUpdate user credentials)).
  - destruct (callers s !! i) as [[|user p| |]|]; try discriminate Hstep.
    destruct (jobs s !! p) as [[| | |err]|]; try discriminate Hstep;
      injection Hstep as <-; exact Hinv.
  - destruct (callers s !! i) as [[| |user|]|]; try discriminate Hstep.
    destruct r as [[]|err]; [destruct (profiles s !! id user)|];
      injection Hstep as <-; exact Hinv.
Qed.

Lemma exec_table (db : gmap string Profile) (evs : list Event) :
  forall s s',
    exec s evs = Some s' ->
    (profiles s = db \/ exists p, jobs s !! p = Some Fulfilled) ->
    (profiles s' = db \/ exists p, jobs s' !! p = Some Fulfilled).
Proof.
  induction evs as [|e rest IH]; intros s s' Hexec Hinv; cbn [exec] in Hexec.
  - now injection Hexec as <-.
  - destruct (step s e) as [s1|] eqn:Hstep; [|discriminate Hexec].
    apply (IH s1 s' Hexec). now apply (step_table db s s1 e).
Qed.

(** The profile table is written only by a refresh that has gone through:
    as long as no job has been fulfilled, whatever calls were made and
    whatever refreshes failed, the table is the one the process started
    with. *)
Theorem table_written_only_on_success (s0 : State) (evs : list Event) (s : State) :
  exec s0 evs = Some s ->
  (forall p, jobs s !! p <> Some Fulfilled) ->
  profiles s = profiles s0.
Proof.
  intros Hexec Hnone.
  destruct (exec_table (profiles s0) evs s0 s Hexec (or_introl eq_refl)) as [H | [p Hp]].
  - exact H.
  - destruct (Hnone p Hp).
Qed.

Lemma table_written_only_on_success_witness :
  match exec two_principals
          [ Call 1 900001; ProviderAnswers 0 (Throw (PlainError "invalid_grant"));
            LockSettled 1 ] with
  | Some s => profiles s = profiles two_principals
  | None => False
  end.
Proof.
  assert (Hjobs : jobs <$> exec two_principals
                    [ Call 1 900001; ProviderAnswers 0 (Throw (PlainError "invalid_grant"));
                      LockSettled 1 ]
                  = Some [Rejected TokenRefreshError]) by (vm_compute; reflexivity).
  destruct (exec two_principals
              [ Call 1 900001; ProviderAnswers 0 (Throw (PlainError "invalid_grant"));
                LockSettled 1 ]) as [s|] eqn:Hexec; [|discriminate Hjobs].
  cbn in Hjobs. injection Hjobs as Hjobs.
  apply (table_written_only_on_success two_principals
           [ Call 1 900001; ProviderAnswers 0 (Throw (PlainError "invalid_grant"));
             LockSettled 1 ] s Hexec).
  intros p. rewrite Hjobs. destruct p as [|[|p]]; discriminate.
Defined.
